(** * A shallow embedding of the spell-checking engine [spellchecker.c]

    The engine keeps three sorted word arrays (main dictionary, user
    dictionary, ignore list) and the list of misspelled words found by the
    last check.  The embedding follows the C code function by function.

    Conventions.
    - A C string is a Rocq [string] holding the bytes found at the pointer;
      reading stops at the first NUL byte or at the end of the Rocq string,
      whichever comes first (the end of the Rocq string stands for the
      terminator).  Every function below tests for NUL where the C code does.
    - [int] values stay far from their bounds (they count array slots and
      string lengths), so they are integers of [Z] or [nat]; the unsigned
      32-bit [DWORD] text position wraps modulo [2^32].
    - [isalpha], [isspace] and [tolower] are those of the "C" locale.
    - Pointers that the code tests against NULL are [option] values.
    - [malloc] and [realloc] take their verdict from an allocation oracle. *)

From Stdlib Require Import ZArith String Ascii Lia.
From stdpp Require Import base numbers list sorting.

Local Open Scope string_scope.
Local Open Scope Z_scope.

(** ** Characters *)

(** [(unsigned char)c] *)
Definition uchar (c : ascii) : Z := Z.of_N (N_of_ascii c).

Definition isalpha (c : Z) : bool :=
  ((65 <=? c) && (c <=? 90)) || ((97 <=? c) && (c <=? 122)).

Definition isspace (c : Z) : bool :=
  (c =? 32) || ((9 <=? c) && (c <=? 13)).

Definition tolower (c : Z) : Z :=
  if (65 <=? c) && (c <=? 90) then c + 32 else c.

(** [*s]: the byte under the pointer, NUL at the end of the string. *)
Definition deref (s : string) : Z :=
  match s with
  | EmptyString => 0
  | String c _ => uchar c
  end.

(** [strlen]: number of bytes before the terminator. *)
Fixpoint strlen (s : string) : nat :=
  match s with
  | EmptyString => O
  | String c r => if uchar c =? 0 then O else S (strlen r)
  end.

(** [strcpy]: the copy holds the bytes before the terminator. *)
Fixpoint strcpy (s : string) : string :=
  match s with
  | EmptyString => EmptyString
  | String c r => if uchar c =? 0 then EmptyString else String c (strcpy r)
  end.

(** ** Comparators *)

Fixpoint DictionaryComparator (s1 s2 : string) : Z :=
  match s1, s2 with
  | String a r1, String b r2 =>
      if negb (uchar a =? 0) && negb (uchar b =? 0) then
        let c1 := tolower (uchar a) in
        let c2 := tolower (uchar b) in
        if negb (c1 =? c2) then c1 - c2 else DictionaryComparator r1 r2
      else tolower (uchar a) - tolower (uchar b)
  | _, _ => tolower (deref s1) - tolower (deref s2)
  end.

Fixpoint strcasecmp_custom (s1 s2 : string) : Z :=
  match s1, s2 with
  | String a r1, String b r2 =>
      if negb (uchar a =? 0) && negb (uchar b =? 0) then
        let c1 := tolower (uchar a) in
        let c2 := tolower (uchar b) in
        if negb (c1 =? c2) then c1 - c2 else strcasecmp_custom r1 r2
      else tolower (uchar a) - tolower (uchar b)
  | _, _ => tolower (deref s1) - tolower (deref s2)
  end.

(** ** Word arrays *)

(** [Dictionary]: the first [count] slots of [words], and the capacity. *)
Record Dictionary := mkDictionary {
  words : list string;
  capacity : Z
}.

Definition count (d : Dictionary) : Z := Z.of_nat (length (words d)).

(** [qsort(words, count, sizeof(char * ), DictionaryComparator)].  The C
    library fixes neither the algorithm nor the order of entries that compare
    equal; the model sorts by insertion, and the proofs use only that the
    result is ordered by the comparator and is a rearrangement of the input. *)
Fixpoint qsort_insert (x : string) (l : list string) : list string :=
  match l with
  | [] => [x]
  | y :: r =>
      if DictionaryComparator x y <=? 0 then x :: l else y :: qsort_insert x r
  end.

Definition qsort (l : list string) : list string :=
  fold_right qsort_insert [] l.

(** The [while (left <= right)] loop of [BinarySearchDictionary]; every turn
    shrinks the interval, [None] means the fuel ran out first. *)
Fixpoint bsearch_loop (fuel : nat) (ws : list string) (word : string)
    (left right : Z) : option bool :=
  match fuel with
  | O => None
  | S fuel' =>
      if left <=? right then
        let mid := left + Z.quot (right - left) 2 in
        let cmp := strcasecmp_custom (nth (Z.to_nat mid) ws "") word in
        if cmp =? 0 then Some true
        else if cmp <? 0 then bsearch_loop fuel' ws word (mid + 1) right
        else bsearch_loop fuel' ws word left (mid - 1)
      else Some false
  end.

Definition BinarySearchDictionary (dict : Dictionary) (word : string) : bool :=
  match bsearch_loop (S (length (words dict))) (words dict) word
          0 (count dict - 1) with
  | Some b => b
  | None => false
  end.

(** ** The engine *)

Record MisspelledWord := mkMisspelledWord {
  word : string;
  startPos : Z;
  endPos : Z
}.

(** [MisspelledWordList]: the first [count] records, and the capacity. *)
Record MisspelledWordList := mkMisspelledWordList {
  m_words : list MisspelledWord;
  m_capacity : Z
}.

Record SpellChecker := mkSpellChecker {
  enabled : bool;
  suggestionsEnabled : bool;
  mainDictionary : Dictionary;
  userDictionary : Dictionary;
  ignoredWords : Dictionary;
  misspelled : MisspelledWordList
}.

Definition SpellChecker_IsWordCorrect (sc : option SpellChecker)
    (word : option string) : bool :=
  match sc, word with
  | Some sc, Some word =>
      if (strlen word =? 0)%nat then true
      else if BinarySearchDictionary (ignoredWords sc) word then true
      else if BinarySearchDictionary (mainDictionary sc) word then true
      else if BinarySearchDictionary (userDictionary sc) word then true
      else false
  | _, _ => true
  end.

(** ** Allocation *)

(** The verdicts of the coming [malloc] and [realloc] calls, in call order;
    calls beyond the end of the list succeed. *)
Definition heap := list bool.

Definition alloc (h : heap) : bool * heap :=
  match h with
  | [] => (true, [])
  | ok :: h' => (ok, h')
  end.

(** Every coming allocation succeeds. *)
Definition allocs_succeed (h : heap) : Prop := Forall (fun ok => ok = true) h.

(** The growth block shared by the four functions that append a word:
    [if (count >= capacity) { capacity *= 2; realloc(...) }].  The capacity
    is doubled before the verdict of [realloc] is known. *)
Definition Dictionary_grow (d : Dictionary) (h : heap)
    : bool * Dictionary * heap :=
  if capacity d <=? count d then
    let d' := mkDictionary (words d) (capacity d * 2) in
    let (ok, h') := alloc h in (ok, d', h')
  else (true, d, h).

(** Growth, then [malloc(len + 1)], [strcpy] and [count++]. *)
Definition Dictionary_push (d : Dictionary) (s : string) (h : heap)
    : bool * Dictionary * heap :=
  let '(ok, d1, h1) := Dictionary_grow d h in
  if negb ok then (false, d1, h1)
  else
    let (ok2, h2) := alloc h1 in
    if negb ok2 then (false, d1, h2)
    else (true, mkDictionary (words d1 ++ [strcpy s]) (capacity d1), h2).

(** [if (count > 0) qsort(...)] *)
Definition Dictionary_sort (d : Dictionary) : Dictionary :=
  if 0 <? count d then mkDictionary (qsort (words d)) (capacity d) else d.

Definition set_mainDictionary (sc : SpellChecker) (d : Dictionary) :=
  mkSpellChecker (enabled sc) (suggestionsEnabled sc) d (userDictionary sc)
    (ignoredWords sc) (misspelled sc).

Definition set_userDictionary (sc : SpellChecker) (d : Dictionary) :=
  mkSpellChecker (enabled sc) (suggestionsEnabled sc) (mainDictionary sc) d
    (ignoredWords sc) (misspelled sc).

Definition set_ignoredWords (sc : SpellChecker) (d : Dictionary) :=
  mkSpellChecker (enabled sc) (suggestionsEnabled sc) (mainDictionary sc)
    (userDictionary sc) d (misspelled sc).

Definition set_misspelled (sc : SpellChecker) (m : MisspelledWordList) :=
  mkSpellChecker (enabled sc) (suggestionsEnabled sc) (mainDictionary sc)
    (userDictionary sc) (ignoredWords sc) m.

Definition INITIAL_DICT_CAPACITY : Z := 10000.
Definition INITIAL_MISSPELLED_CAPACITY : Z := 100.

Definition SpellChecker_Create (h : heap) : option SpellChecker * heap :=
  let (ok, h0) := alloc h in
  if negb ok then (None, h0)
  else
    let (ok1, h1) := alloc h0 in
    let (ok2, h2) := alloc h1 in
    let (ok3, h3) := alloc h2 in
    let (ok4, h4) := alloc h3 in
    if ok1 && ok2 && ok3 && ok4 then
      (Some (mkSpellChecker true true
               (mkDictionary [] INITIAL_DICT_CAPACITY)
               (mkDictionary [] 1000)
               (mkDictionary [] 100)
               (mkMisspelledWordList [] INITIAL_MISSPELLED_CAPACITY)), h4)
    else (None, h4).

(** ** Loading word files *)

(** [fopen(path, "r")]: the bytes the stream will deliver, if the file can be
    opened. *)
Definition filesystem := string -> option string.

(** [s[i]], NUL past the end. *)
Definition char_at (s : string) (i : nat) : Z :=
  match String.get i s with
  | Some c => uchar c
  | None => 0
  end.

(** [fgets(line, size, file)] on the unread bytes [input]: at most [size - 1]
    bytes, up to and including the first newline; NULL at end of file. *)
Fixpoint fgets_read (room : nat) (input : string) : string * string :=
  match room, input with
  | S room', String c rest =>
      if uchar c =? 10 then (String c "", rest)
      else let (l, r) := fgets_read room' rest in (String c l, r)
  | _, _ => ("", input)
  end.

Definition fgets (size : nat) (input : string) : option (string * string) :=
  match input with
  | EmptyString => None
  | _ => Some (fgets_read (size - 1) input)
  end.

(** [while (len > 0 && isspace(line[len - 1])) line[--len] = '\0';] *)
Fixpoint trim_trailing (line : string) (len : nat) : nat :=
  match len with
  | O => O
  | S k => if isspace (char_at line k) then trim_trailing line k else len
  end.

(** The buffer after the trimming loop, as a C string. *)
Definition trimmed (line : string) : string :=
  substring 0 (trim_trailing line (strlen line)) line.

(** The [while (fgets(...))] loop of [SpellChecker_LoadDictionary]; the
    boolean is false when an allocation failed and the load was abandoned. *)
Fixpoint LoadDictionary_loop (fuel : nat) (d : Dictionary) (file : string)
    (h : heap) : option (bool * Dictionary * heap) :=
  match fuel with
  | O => None
  | S fuel' =>
      match fgets 256 file with
      | None => Some (true, d, h)
      | Some (line, rest) =>
          let len := trim_trailing line (strlen line) in
          let line := trimmed line in
          if (len =? 0)%nat || (char_at line 0 =? 35) then
            LoadDictionary_loop fuel' d rest h
          else
            let '(ok, d', h') := Dictionary_push d line h in
            if negb ok then Some (false, d', h')
            else LoadDictionary_loop fuel' d' rest h'
      end
  end.

Definition SpellChecker_LoadDictionary (fs : filesystem)
    (sc : option SpellChecker) (filePath : option string) (h : heap)
    : bool * option SpellChecker * heap :=
  match sc, filePath with
  | Some s, Some path =>
      match fs path with
      | None => (false, sc, h)
      | Some file =>
          match LoadDictionary_loop (S (String.length file))
                  (mainDictionary s) file h with
          | Some (true, d, h') =>
              let d' := Dictionary_sort d in
              (0 <? count d', Some (set_mainDictionary s d'), h')
          | Some (false, d, h') => (false, Some (set_mainDictionary s d), h')
          | None => (false, sc, h)
          end
      end
  | _, _ => (false, sc, h)
  end.

(** The [while (fgets(...))] loop of [SpellChecker_LoadUserDictionary]. *)
Fixpoint LoadUserDictionary_loop (fuel : nat) (d : Dictionary) (file : string)
    (h : heap) : option (bool * Dictionary * heap) :=
  match fuel with
  | O => None
  | S fuel' =>
      match fgets 256 file with
      | None => Some (true, d, h)
      | Some (line, rest) =>
          let len := trim_trailing line (strlen line) in
          let line := trimmed line in
          if (len =? 0)%nat then LoadUserDictionary_loop fuel' d rest h
          else
            let '(ok, d', h') := Dictionary_push d line h in
            if negb ok then Some (false, d', h')
            else LoadUserDictionary_loop fuel' d' rest h'
      end
  end.

Definition SpellChecker_LoadUserDictionary (fs : filesystem)
    (sc : option SpellChecker) (filePath : option string) (h : heap)
    : bool * option SpellChecker * heap :=
  match sc, filePath with
  | Some s, Some path =>
      match fs path with
      | None => (true, sc, h)
      | Some file =>
          match LoadUserDictionary_loop (S (String.length file))
                  (userDictionary s) file h with
          | Some (true, d, h') =>
              (true, Some (set_userDictionary s (Dictionary_sort d)), h')
          | Some (false, d, h') => (false, Some (set_userDictionary s d), h')
          | None => (false, sc, h)
          end
      end
  | _, _ => (false, sc, h)
  end.

(** ** Checking a text *)

(** [pos++] on a [DWORD]. *)
Definition DWORD_incr (pos : Z) : Z := (pos + 1) mod 2 ^ 32.

(** [while ( *checkPtr) { if (!isspace( *checkPtr)) {...; break;} checkPtr++; }] *)
Fixpoint only_whitespace (checkPtr : string) : bool :=
  match checkPtr with
  | EmptyString => true
  | String c r =>
      if uchar c =? 0 then true
      else if negb (isspace (uchar c)) then false
      else only_whitespace r
  end.

(** [while ( *ptr && !isalpha( *ptr)) { ptr++; pos++; }] *)
Fixpoint skip_nonalpha (ptr : string) (pos : Z) : string * Z :=
  match ptr with
  | EmptyString => (ptr, pos)
  | String c r =>
      if negb (uchar c =? 0) && negb (isalpha (uchar c))
      then skip_nonalpha r (DWORD_incr pos)
      else (ptr, pos)
  end.

(** [while ( *ptr && isalpha( *ptr) && wordLen < sizeof(word) - 1)
      { word[wordLen++] = *ptr; ptr++; pos++; }]
    with [word] the bytes written so far into the 256-byte buffer. *)
Fixpoint extract_word (ptr : string) (pos : Z) (word : string) (wordLen : nat)
    : string * Z * string :=
  match ptr with
  | EmptyString => (ptr, pos, word)
  | String c r =>
      if negb (uchar c =? 0) && isalpha (uchar c) && (wordLen <? 255)%nat
      then extract_word r (DWORD_incr pos) (word ++ String c "") (S wordLen)
      else (ptr, pos, word)
  end.

Definition m_count (m : MisspelledWordList) : Z := Z.of_nat (length (m_words m)).

(** The outer [while ( *ptr)] loop of [SpellChecker_Check].  Every turn that
    does not leave the loop consumes at least one byte; [None] means the fuel
    ran out first.  A failed [realloc] leaves the function at once, the
    capacity already doubled. *)
Fixpoint Check_loop (fuel : nat) (sc : SpellChecker) (ptr : string) (pos : Z)
    (h : heap) : option (SpellChecker * heap) :=
  match fuel with
  | O => None
  | S fuel' =>
      if deref ptr =? 0 then Some (sc, h)
      else
        let (ptr1, pos1) := skip_nonalpha ptr pos in
        if deref ptr1 =? 0 then Some (sc, h)
        else
          let wordStart := pos1 in
          let '(ptr2, pos2, word) := extract_word ptr1 pos1 "" 0 in
          if negb (SpellChecker_IsWordCorrect (Some sc) (Some word)) then
            let m := misspelled sc in
            let entry := mkMisspelledWord (strcpy word) wordStart pos2 in
            if m_capacity m <=? m_count m then
              let m' := mkMisspelledWordList (m_words m) (m_capacity m * 2) in
              let (ok, h') := alloc h in
              if negb ok then Some (set_misspelled sc m', h')
              else
                Check_loop fuel'
                  (set_misspelled sc
                     (mkMisspelledWordList (m_words m' ++ [entry])
                        (m_capacity m')))
                  ptr2 pos2 h'
            else
              Check_loop fuel'
                (set_misspelled sc
                   (mkMisspelledWordList (m_words m ++ [entry]) (m_capacity m)))
                ptr2 pos2 h
          else Check_loop fuel' sc ptr2 pos2 h
  end.

(** [sc->misspelled.count = 0] *)
Definition reset_misspelled (sc : SpellChecker) : SpellChecker :=
  set_misspelled sc (mkMisspelledWordList [] (m_capacity (misspelled sc))).

Definition SpellChecker_Check (sc : option SpellChecker) (text : option string)
    (h : heap) : option SpellChecker * heap :=
  match sc with
  | None => (None, h)
  | Some s =>
      if negb (enabled s) then (Some (reset_misspelled s), h)
      else
        let s0 := reset_misspelled s in
        match text with
        | None => (Some s0, h)
        | Some text =>
            if deref text =? 0 then (Some s0, h)
            else if only_whitespace text then (Some s0, h)
            else
              match Check_loop (S (String.length text)) s0 text 0 h with
              | Some (s', h') => (Some s', h')
              | None => (Some s0, h)
              end
        end
  end.

Definition SpellChecker_GetMisspelledWords (sc : option SpellChecker)
    : option MisspelledWordList :=
  match sc with
  | Some s => Some (misspelled s)
  | None => None
  end.

(** ** Learning and ignoring words *)

Definition SpellChecker_AddToUserDictionary (sc : option SpellChecker)
    (word : option string) (h : heap) : option SpellChecker * heap :=
  match sc, word with
  | Some s, Some word =>
      if BinarySearchDictionary (userDictionary s) word then (sc, h)
      else
        let '(ok, d, h') := Dictionary_push (userDictionary s) word h in
        if negb ok then (Some (set_userDictionary s d), h')
        else (Some (set_userDictionary s (Dictionary_sort d)), h')
  | _, _ => (sc, h)
  end.

Definition SpellChecker_AddToIgnoreList (sc : option SpellChecker)
    (word : option string) (h : heap) : option SpellChecker * heap :=
  match sc, word with
  | Some s, Some word =>
      if BinarySearchDictionary (ignoredWords s) word then (sc, h)
      else
        let '(ok, d, h') := Dictionary_push (ignoredWords s) word h in
        if negb ok then (Some (set_ignoredWords s d), h')
        else (Some (set_ignoredWords s (Dictionary_sort d)), h')
  | _, _ => (sc, h)
  end.

Definition SpellChecker_ClearIgnoreList (sc : option SpellChecker)
    : option SpellChecker :=
  match sc with
  | Some s =>
      Some (set_ignoredWords s (mkDictionary [] (capacity (ignoredWords s))))
  | None => None
  end.

(** ** Edit distance *)

(** [for (i = start; ...; i++) body], for [n] turns. *)
Fixpoint for_loop {S : Type} (n : nat) (i : nat) (body : nat -> S -> S) (s : S)
    : S :=
  match n with
  | O => s
  | S n' => for_loop n' (Datatypes.S i) body (body i s)
  end.

(** One turn of the inner [for (j = 1; j <= len2; j++)] loop, on the row [d]
    and [prev_diag]. *)
Definition Levenshtein_cell (s1 s2 : string) (i j : nat) (st : list Z * Z)
    : list Z * Z :=
  let '(d, prev_diag) := st in
  let cost := if char_at s1 (i - 1) =? char_at s2 (j - 1) then 0 else 1 in
  let temp := d !!! j in
  let d :=
    <[j := if d !!! j + 1 <? d !!! (j - 1)%nat + 1
           then d !!! j + 1 else d !!! (j - 1)%nat + 1]> d in
  let d :=
    <[j := if d !!! j <? prev_diag + cost
           then d !!! j else prev_diag + cost]> d in
  (d, temp).

(** One turn of the outer [for (i = 1; i <= len1; i++)] loop. *)
Definition Levenshtein_row (s1 s2 : string) (len2 : nat) (i : nat)
    (d : list Z) : list Z :=
  let prev_diag := Z.of_nat i - 1 in
  let d := <[O := Z.of_nat i]> d in
  fst (for_loop len2 1%nat (Levenshtein_cell s1 s2 i) (d, prev_diag)).

Definition LevenshteinDistance (s1 s2 : string) (h : heap) : Z * heap :=
  let len1 := strlen s1 in
  let len2 := strlen s2 in
  if (len1 =? 0)%nat then (Z.of_nat len2, h)
  else if (len2 =? 0)%nat then (Z.of_nat len1, h)
  else
    let (ok, h') := alloc h in
    if negb ok then (-1, h')
    else
      let d := replicate (len2 + 1) 0 in
      let d := for_loop (len2 + 1) 0%nat (fun i d => <[i := Z.of_nat i]> d) d in
      let d := for_loop len1 1%nat (Levenshtein_row s1 s2 len2) d in
      (d !!! len2, h').

(** ** Suggestions *)

Record Suggestion := mkSuggestion {
  s_word : string;
  distance : Z
}.

#[global] Instance Suggestion_inhabited : Inhabited Suggestion :=
  populate (mkSuggestion "" 0).

(** [for (i = 0; i < count && suggestCount < 10; i++)] over the main
    dictionary, [suggestions] being the slots filled so far. *)
Fixpoint collect_suggestions (ws : list string) (word : string)
    (suggestions : list Suggestion) (h : heap) : list Suggestion * heap :=
  match ws with
  | [] => (suggestions, h)
  | w :: ws' =>
      if (length suggestions <? 10)%nat then
        let (dist, h') := LevenshteinDistance word w h in
        if (0 <? dist) && (dist <=? 2)
        then collect_suggestions ws' word
               (suggestions ++ [mkSuggestion w dist]) h'
        else collect_suggestions ws' word suggestions h'
      else (suggestions, h)
  end.

(** The body of the two nested sorting loops. *)
Definition sort_step (i j : nat) (suggestions : list Suggestion)
    : list Suggestion :=
  if distance (suggestions !!! j) <? distance (suggestions !!! i) then
    let temp := suggestions !!! i in
    let suggestions := <[i := suggestions !!! j]> suggestions in
    <[j := temp]> suggestions
  else suggestions.

(** [for (i = 0; i < suggestCount - 1; i++)
      for (j = i + 1; j < suggestCount; j++) ...] *)
Definition sort_suggestions (suggestions : list Suggestion)
    : list Suggestion :=
  let suggestCount := length suggestions in
  for_loop (suggestCount - 1) 0%nat
    (fun i s => for_loop (suggestCount - (i + 1)) (i + 1)%nat (sort_step i) s)
    suggestions.

(** The loop that copies the kept suggestions; NULL when a [malloc] fails. *)
Fixpoint copy_suggestions (suggestions : list Suggestion) (h : heap)
    : option (list string) * heap :=
  match suggestions with
  | [] => (Some [], h)
  | s :: rest =>
      let (ok, h') := alloc h in
      if negb ok then (None, h')
      else
        match copy_suggestions rest h' with
        | (Some r, h'') => (Some (strcpy (s_word s) :: r), h'')
        | (None, h'') => (None, h'')
        end
  end.

(** The result array (NULL on failure), the value left in [*count] (when
    [count] is not NULL) and the remaining oracle. *)
Definition SpellChecker_GetSuggestions (sc : option SpellChecker)
    (word : option string) (count : option Z) (h : heap)
    : option (list string) * option Z * heap :=
  match sc, word, count with
  | Some s, Some word, Some _ =>
      let (ok, h0) := alloc h in
      if negb ok then (None, Some 0, h0)
      else
        let (suggestions, h1) :=
          collect_suggestions (words (mainDictionary s)) word [] h0 in
        let suggestions := sort_suggestions suggestions in
        let suggestions := take 5 suggestions in
        let (ok', h2) := alloc h1 in
        if negb ok' then (None, Some 0, h2)
        else
          match copy_suggestions suggestions h2 with
          | (Some result, h3) =>
              (Some result, Some (Z.of_nat (length suggestions)), h3)
          | (None, h3) => (None, Some 0, h3)
          end
  | _, _, _ => (None, count, h)
  end.

(** The first [n] bytes of a string. *)
Fixpoint str_take (n : nat) (s : string) : string :=
  match n, s with
  | S n', String c r => String c (str_take n' r)
  | _, _ => EmptyString
  end.

(** The line terminator. *)
Definition newline : string := String "010"%char EmptyString.

(** ** Looking a position up *)

(** The [for] loop of [SpellChecker_IsMisspelledAtPosition] over the records
    of the misspelled list.  [outWord] is the caller's buffer as a C string
    (NULL when absent): on a hit with [outWordLen > 0] it receives the first
    [outWordLen - 1] bytes of the word, NUL-terminated. *)
Fixpoint IsMisspelledAtPosition_loop (ms : list MisspelledWord) (pos : Z)
    (outWord : option string) (outWordLen : Z) : bool * option string :=
  match ms with
  | [] => (false, outWord)
  | m :: rest =>
      if (startPos m <=? pos) && (pos <? endPos m) then
        match outWord with
        | Some _ =>
            if 0 <? outWordLen
            then (true, Some (str_take (Z.to_nat (outWordLen - 1))
                                (strcpy (word m))))
            else (true, outWord)
        | None => (true, outWord)
        end
      else IsMisspelledAtPosition_loop rest pos outWord outWordLen
  end.

Definition SpellChecker_IsMisspelledAtPosition (sc : option SpellChecker)
    (pos : Z) (outWord : option string) (outWordLen : Z)
    : bool * option string :=
  match sc with
  | None => (false, outWord)
  | Some s =>
      IsMisspelledAtPosition_loop (m_words (misspelled s)) pos outWord outWordLen
  end.

(** ** Saving the user dictionary *)

(** [fprintf(file, "%s\n", words[i])] for every entry, in array order. *)
Fixpoint write_words (ws : list string) : string :=
  match ws with
  | [] => EmptyString
  | w :: rest => (strcpy w ++ newline ++ write_words rest)%string
  end.

(** [writable] tells whether [fopen(path, "w")] succeeds; the result is the
    engine (its user dictionary sorted once more) and the file system with the
    file rewritten.  Nothing happens when the file cannot be opened. *)
Definition SpellChecker_SaveUserDictionary (fs : filesystem)
    (writable : string -> bool) (sc : option SpellChecker)
    (filePath : option string) : option SpellChecker * filesystem :=
  match sc, filePath with
  | Some s, Some path =>
      if negb (writable path) then (sc, fs)
      else
        let d := Dictionary_sort (userDictionary s) in
        (Some (set_userDictionary s d),
         fun p => if String.eqb p path then Some (write_words (words d))
                  else fs p)
  | _, _ => (sc, fs)
  end.

(** * Specification notions *)

(** The lower-cased bytes of a C string, up to its terminator: two words
    are the same word, case-insensitively, when these sequences agree. *)
Fixpoint lower_key (s : string) : list Z :=
  match s with
  | EmptyString => []
  | String c r => if uchar c =? 0 then [] else tolower (uchar c) :: lower_key r
  end.

Definition caseless_eq (s1 s2 : string) : Prop := lower_key s1 = lower_key s2.

(** The word is present in the array, case-insensitively. *)
Definition dict_contains (d : Dictionary) (w : string) : Prop :=
  Exists (fun e => caseless_eq e w) (words d).

(** Difference at the first position where two key sequences disagree. *)
Fixpoint lexdiff (k1 k2 : list Z) : Z :=
  match k1, k2 with
  | x :: r1, y :: r2 => if x =? y then lexdiff r1 r2 else x - y
  | x :: _, [] => x
  | [], y :: _ => - y
  | [], [] => 0
  end.

(** The order the arrays are kept in. *)
Definition cmp_le (s1 s2 : string) : Prop := DictionaryComparator s1 s2 <= 0.

Definition dict_sorted (d : Dictionary) : Prop := StronglySorted cmp_le (words d).

Definition engine_sorted (sc : SpellChecker) : Prop :=
  dict_sorted (mainDictionary sc) /\ dict_sorted (userDictionary sc) /\
  dict_sorted (ignoredWords sc).

(** Learning the words of a list one after the other. *)
Fixpoint AddToUserDictionary_all (sc : option SpellChecker) (ws : list string)
    (h : heap) : option SpellChecker * heap :=
  match ws with
  | [] => (sc, h)
  | w :: ws' =>
      let (sc', h') := SpellChecker_AddToUserDictionary sc (Some w) h in
      AddToUserDictionary_all sc' ws' h'
  end.

(** The user dictionary behind an engine pointer (empty for NULL). *)
Definition user_of (sc : option SpellChecker) : Dictionary :=
  match sc with
  | Some s => userDictionary s
  | None => mkDictionary [] 0
  end.

(** What [SpellChecker_Check] must leave alone: the three word arrays and
    the two flags. *)
Definition same_dictionaries (s s' : SpellChecker) : Prop :=
  mainDictionary s' = mainDictionary s /\
  userDictionary s' = userDictionary s /\
  ignoredWords s' = ignoredWords s /\
  enabled s' = enabled s /\
  suggestionsEnabled s' = suggestionsEnabled s.

(** The tokens the scanning loop of [SpellChecker_Check] extracts, whether
    misspelled or not: the loop of [Check_loop] with the spelling test and the
    list growth taken out. *)
Fixpoint tokens_loop (fuel : nat) (ptr : string) (pos : Z)
    : list MisspelledWord :=
  match fuel with
  | O => []
  | S fuel' =>
      if deref ptr =? 0 then []
      else
        let (ptr1, pos1) := skip_nonalpha ptr pos in
        if deref ptr1 =? 0 then []
        else
          let '(ptr2, pos2, word) := extract_word ptr1 pos1 "" 0 in
          mkMisspelledWord (strcpy word) pos1 pos2 :: tokens_loop fuel' ptr2 pos2
  end.

Definition tokenize (text : string) : list MisspelledWord :=
  tokens_loop (S (String.length text)) text 0.

(** The token is not a correct word for the engine. *)
Definition is_misspelled (s : SpellChecker) (m : MisspelledWord) : bool :=
  negb (SpellChecker_IsWordCorrect (Some s) (Some (word m))).

(** The records behind the result of [SpellChecker_GetMisspelledWords]. *)
Definition misspelled_of (sc : option SpellChecker) : option (list MisspelledWord) :=
  match SpellChecker_GetMisspelledWords sc with
  | Some m => Some (m_words m)
  | None => None
  end.

(** No byte of the string is NUL: the whole string is the C string. *)
Fixpoint no_nul (s : string) : bool :=
  match s with
  | EmptyString => true
  | String c r => negb (uchar c =? 0) && no_nul r
  end.

(** Every byte is alphabetic. *)
Fixpoint all_alpha (s : string) : bool :=
  match s with
  | EmptyString => true
  | String c r => isalpha (uchar c) && all_alpha r
  end.

(** The string is empty or its last byte is not alphabetic. *)
Fixpoint ends_nonalpha (s : string) : bool :=
  match s with
  | EmptyString => true
  | String c r =>
      match r with
      | EmptyString => negb (isalpha (uchar c))
      | String _ _ => ends_nonalpha r
      end
  end.

(** The position after [n] increments. *)
Definition advance (pos : Z) (n : nat) : Z := Nat.iter n DWORD_incr pos.

Fixpoint str_drop (n : nat) (s : string) : string :=
  match n, s with
  | S n', String c r => str_drop n' r
  | _, _ => s
  end.

Fixpoint repeat_char (n : nat) (c : ascii) : string :=
  match n with
  | O => EmptyString
  | S n' => String c (repeat_char n' c)
  end.

(** The reading under which a long run is recorded whole: some record starts
    at the run, holds its first 255 bytes and ends where the run ends. *)
Definition run_recorded_whole (ms : list MisspelledWord) (run : string)
    (start : Z) : Prop :=
  exists m, m ∈ ms /\ startPos m = start /\ word m = str_take 255 run /\
            endPos m = start + Z.of_nat (String.length run).

(** What one buffer filled by [fgets] contributes to a load: nothing when it
    is blank after trimming or, with [skip_comments], starts with '#';
    otherwise the trimmed buffer.  [skip_comments] is true for the main
    dictionary and false for the user dictionary. *)
Definition line_entry (skip_comments : bool) (line : string) : list string :=
  let len := trim_trailing line (strlen line) in
  let line := trimmed line in
  if (len =? 0)%nat || (skip_comments && (char_at line 0 =? 35))
  then [] else [strcpy line].

(** The entries a load appends, in file order: the [while (fgets(...))]
    loops with the allocations taken out. *)
Fixpoint file_entries (skip_comments : bool) (fuel : nat) (file : string)
    : list string :=
  match fuel with
  | O => []
  | S fuel' =>
      match fgets 256 file with
      | None => []
      | Some (line, rest) =>
          (line_entry skip_comments line ++
           file_entries skip_comments fuel' rest)%list
      end
  end.

(** Appending entries one by one when every allocation succeeds. *)
Definition Dictionary_extend (d : Dictionary) (entries : list string) : Dictionary :=
  fold_left
    (fun d e =>
       mkDictionary (words d ++ [e])
         (if capacity d <=? count d then capacity d * 2 else capacity d))
    entries d.

(** The string is empty or its last byte is a newline. *)
Fixpoint ends_newline (s : string) : bool :=
  match s with
  | EmptyString => true
  | String c r =>
      match r with
      | EmptyString => uchar c =? 10
      | String _ _ => ends_newline r
      end
  end.

Fixpoint no_newline (s : string) : bool :=
  match s with
  | EmptyString => true
  | String c r => negb (uchar c =? 10) && no_newline r
  end.

(** The main dictionary behind an engine pointer (empty for NULL). *)
Definition main_of (sc : option SpellChecker) : Dictionary :=
  match sc with
  | Some s => mainDictionary s
  | None => mkDictionary [] 0
  end.

(** The bytes of a C string, before its terminator. *)
Fixpoint cbytes (s : string) : list Z :=
  match s with
  | EmptyString => []
  | String c r => if uchar c =? 0 then [] else uchar c :: cbytes r
  end.

(** Ways of turning one byte sequence into another, position by position,
    with their number of edits (a kept byte costs nothing; a substitution, a
    deletion and an insertion cost one each). *)
Inductive alignment : list Z -> list Z -> Z -> Prop :=
  | al_nil : alignment [] [] 0
  | al_keep x a b n : alignment a b n -> alignment (x :: a) (x :: b) n
  | al_subst x y a b n : alignment a b n -> alignment (x :: a) (y :: b) (n + 1)
  | al_delete x a b n : alignment a b n -> alignment (x :: a) b (n + 1)
  | al_insert y a b n : alignment a b n -> alignment a (y :: b) (n + 1).

(** The textbook recurrence of the edit distance. *)
Fixpoint lev_rec (a : list Z) : list Z -> Z :=
  fix inner (b : list Z) : Z :=
    match a, b with
    | [], _ => Z.of_nat (length b)
    | _, [] => Z.of_nat (length a)
    | x :: a', y :: b' =>
        Z.min (Z.min (lev_rec a' b + 1) (inner b' + 1))
          (lev_rec a' b' + (if x =? y then 0 else 1))
    end.

(** Entry (i, j) of the distance table: the distance between the first [i]
    bytes of [a] and the first [j] bytes of [b]. *)
Definition lev_table (a b : list Z) (i j : nat) : Z :=
  lev_rec (rev (take i a)) (rev (take j b)).

(** The value [LevenshteinDistance] returns when its [malloc] succeeds. *)
Definition lev_dist (s1 s2 : string) : Z := fst (LevenshteinDistance s1 s2 []).

(** The entry is close enough to the word to be suggested. *)
Definition qualifies (word w : string) : bool :=
  (0 <? lev_dist word w) && (lev_dist word w <=? 2).

(** The candidates of a word array, in array order, with their distances. *)
Definition candidates (word : string) (ws : list string) : list Suggestion :=
  map (fun w => mkSuggestion w (lev_dist word w))
    (filter (fun w => qualifies word w = true) ws).

(** A slot filled from the array [ws] with the distance of its word. *)
Definition good_suggestion (word : string) (ws : list string) (s : Suggestion)
    : Prop :=
  s_word s ∈ ws /\ distance s = lev_dist word (s_word s) /\
  0 < distance s <= 2.

(** Slots in ascending order of distance. *)
Definition by_distance (s1 s2 : Suggestion) : Prop := distance s1 <= distance s2.

(** The record is a token of the text: it spans the bytes [a, b) of the
    text, at most 255 of them, all alphabetic, and holds exactly those
    bytes. *)
Definition token_of (text : string) (m : MisspelledWord) : Prop :=
  exists a b : nat,
    startPos m = Z.of_nat a /\ endPos m = Z.of_nat b /\
    (a < b <= String.length text)%nat /\ (b - a <= 255)%nat /\
    word m = substring a (b - a) text /\ all_alpha (word m) = true.

(** The first record ends before the second starts. *)
Definition token_before (m1 m2 : MisspelledWord) : Prop :=
  endPos m1 <= startPos m2.

(** The position lies in the interval of the record. *)
Definition covers (pos : Z) (m : MisspelledWord) : Prop :=
  startPos m <= pos < endPos m.

(** A word that survives being written on a line and read back: between 1
    and 255 bytes, none of them NUL or a newline, the last one not white
    space. *)
Definition line_safe (w : string) : Prop :=
  no_nul w = true /\ no_newline w = true /\
  (1 <= String.length w <= 255)%nat /\
  isspace (char_at w (String.length w - 1)) = false.

(** The entries fit the capacity, which is positive: the next write lands
    inside the array or triggers a growth that makes room for it. *)
Definition Dictionary_fits (d : Dictionary) : Prop :=
  0 < capacity d /\ count d <= capacity d.

Definition engine_fits (s : SpellChecker) : Prop :=
  Dictionary_fits (mainDictionary s) /\ Dictionary_fits (userDictionary s) /\
  Dictionary_fits (ignoredWords s) /\
  0 < m_capacity (misspelled s) /\
  m_count (misspelled s) <= m_capacity (misspelled s).

(** One call of the interface on a live engine, its allocations succeeding,
    with any arguments and any state of the file system. *)
Inductive api_step : SpellChecker -> SpellChecker -> Prop :=
  | step_LoadDictionary fs s path h ok s' h' :
      allocs_succeed h ->
      SpellChecker_LoadDictionary fs (Some s) path h = (ok, Some s', h') ->
      api_step s s'
  | step_LoadUserDictionary fs s path h ok s' h' :
      allocs_succeed h ->
      SpellChecker_LoadUserDictionary fs (Some s) path h = (ok, Some s', h') ->
      api_step s s'
  | step_Check s text h s' h' :
      allocs_succeed h ->
      SpellChecker_Check (Some s) text h = (Some s', h') ->
      api_step s s'
  | step_AddToUserDictionary s w h s' h' :
      allocs_succeed h ->
      SpellChecker_AddToUserDictionary (Some s) w h = (Some s', h') ->
      api_step s s'
  | step_AddToIgnoreList s w h s' h' :
      allocs_succeed h ->
      SpellChecker_AddToIgnoreList (Some s) w h = (Some s', h') ->
      api_step s s'
  | step_ClearIgnoreList s s' :
      SpellChecker_ClearIgnoreList (Some s) = Some s' ->
      api_step s s'
  | step_SaveUserDictionary fs writable s path s' fs' :
      SpellChecker_SaveUserDictionary fs writable (Some s) path = (Some s', fs') ->
      api_step s s'.

(** The engines one can get from [SpellChecker_Create] by such calls. *)
Inductive reachable : SpellChecker -> Prop :=
  | reach_Create h s h' :
      SpellChecker_Create h = (Some s, h') -> reachable s
  | reach_step s s' : reachable s -> api_step s s' -> reachable s'.

(** ** Sample data *)

(** A file system with one file, [words.txt], of the given content. *)
Definition one_file (content : string) : filesystem :=
  fun path => if String.eqb path "words.txt" then Some content else None.

(** A fresh engine, as [SpellChecker_Create] returns it. *)
Definition sc_fresh : SpellChecker :=
  mkSpellChecker true true
    (mkDictionary [] INITIAL_DICT_CAPACITY)
    (mkDictionary [] 1000)
    (mkDictionary [] 100)
    (mkMisspelledWordList [] INITIAL_MISSPELLED_CAPACITY).

(** The engine of the precedence scenario: main dictionary "hello", "world";
    "wrold" ignored; nothing learned. *)
Definition sc_precedence : SpellChecker :=
  mkSpellChecker true true
    (mkDictionary ["hello"; "world"] INITIAL_DICT_CAPACITY)
    (mkDictionary [] 1000)
    (mkDictionary ["wrold"] 100)
    (mkMisspelledWordList [] INITIAL_MISSPELLED_CAPACITY).

(** * Properties *)

(** ** Characters and comparators *)

Lemma uchar_range c : 0 <= uchar c < 256.
Proof.
  unfold uchar. pose proof (N_ascii_bounded c) as Hb. lia.
Qed.

Lemma tolower_zero x : tolower x = 0 <-> x = 0.
Proof.
  unfold tolower. destruct ((65 <=? x) && (x <=? 90)) eqn:E; [|tauto].
  apply andb_prop in E as [E1 E2]. lia.
Qed.

Lemma tolower_pos x : 0 < x -> 0 < tolower x.
Proof.
  unfold tolower. destruct ((65 <=? x) && (x <=? 90)); lia.
Qed.

Lemma strcasecmp_custom_comparator s1 s2 :
  strcasecmp_custom s1 s2 = DictionaryComparator s1 s2.
Proof. reflexivity. Qed.

Lemma lower_key_pos s : Forall (fun x => 0 < x) (lower_key s).
Proof.
  induction s as [|c r IH]; simpl; [constructor|].
  destruct (uchar c =? 0) eqn:E; constructor; [|exact IH].
  apply tolower_pos. pose proof (uchar_range c). lia.
Qed.

Lemma DictionaryComparator_lexdiff s1 s2 :
  DictionaryComparator s1 s2 = lexdiff (lower_key s1) (lower_key s2).
Proof.
  revert s2. induction s1 as [|a r1 IH]; intros [|b r2]; simpl.
  - reflexivity.
  - destruct (uchar b =? 0) eqn:Eb; simpl.
    + apply Z.eqb_eq in Eb. rewrite Eb. reflexivity.
    + reflexivity.
  - destruct (uchar a =? 0) eqn:Ea; simpl.
    + apply Z.eqb_eq in Ea. rewrite Ea. reflexivity.
    + change (tolower 0) with 0. lia.
  - destruct (uchar a =? 0) eqn:Ea; destruct (uchar b =? 0) eqn:Eb; simpl.
    + apply Z.eqb_eq in Ea, Eb. rewrite Ea, Eb. reflexivity.
    + apply Z.eqb_eq in Ea. rewrite Ea. reflexivity.
    + apply Z.eqb_eq in Eb. rewrite Eb. change (tolower 0) with 0. lia.
    + destruct (tolower (uchar a) =? tolower (uchar b)); simpl; [apply IH | reflexivity].
Qed.

Lemma lexdiff_antisym k1 k2 : lexdiff k1 k2 = - lexdiff k2 k1.
Proof.
  revert k2. induction k1 as [|x r1 IH]; intros [|y r2]; simpl; try lia.
  rewrite (Z.eqb_sym y x). destruct (x =? y); [apply IH | lia].
Qed.

Lemma lexdiff_zero k1 k2 :
  Forall (fun x => 0 < x) k1 -> Forall (fun x => 0 < x) k2 ->
  lexdiff k1 k2 = 0 <-> k1 = k2.
Proof.
  intros H1. revert k2. induction H1 as [|x r1 Hx H1 IH]; intros k2 H2.
  - destruct H2; simpl; split; intros; try discriminate; try reflexivity; lia.
  - destruct H2 as [|y r2 Hy H2]; simpl.
    + split; intros; [lia | discriminate].
    + destruct (x =? y) eqn:E.
      * apply Z.eqb_eq in E. subst y. rewrite (IH _ H2).
        split; intros; [subst; reflexivity | congruence].
      * apply Z.eqb_neq in E. split; intros; [lia | congruence].
Qed.

Lemma lexdiff_lt_trans k1 k2 k3 :
  Forall (fun x => 0 < x) k1 -> Forall (fun x => 0 < x) k2 ->
  Forall (fun x => 0 < x) k3 ->
  lexdiff k1 k2 < 0 -> lexdiff k2 k3 < 0 -> lexdiff k1 k3 < 0.
Proof.
  intros H1. revert k2 k3.
  induction H1 as [|x r1 Hx H1 IH]; intros k2 k3 H2 H3;
    destruct H2 as [|y r2 Hy H2]; destruct H3 as [|z r3 Hz H3]; simpl;
    try lia.
  destruct (x =? y) eqn:Exy; destruct (y =? z) eqn:Eyz;
    destruct (x =? z) eqn:Exz;
    rewrite ?Z.eqb_eq, ?Z.eqb_neq in *; try lia.
  apply IH; assumption.
Qed.

Lemma caseless_eq_cmp s1 s2 :
  strcasecmp_custom s1 s2 = 0 <-> caseless_eq s1 s2.
Proof.
  rewrite strcasecmp_custom_comparator, DictionaryComparator_lexdiff.
  apply lexdiff_zero; apply lower_key_pos.
Qed.

Lemma cmp_antisym s1 s2 :
  DictionaryComparator s1 s2 = - DictionaryComparator s2 s1.
Proof.
  rewrite !DictionaryComparator_lexdiff. apply lexdiff_antisym.
Qed.

Lemma cmp_lt_trans a b c :
  DictionaryComparator a b < 0 -> DictionaryComparator b c < 0 ->
  DictionaryComparator a c < 0.
Proof.
  rewrite !DictionaryComparator_lexdiff.
  apply lexdiff_lt_trans; apply lower_key_pos.
Qed.

Lemma cmp_zero_l a b c :
  DictionaryComparator a b = 0 ->
  DictionaryComparator a c = DictionaryComparator b c.
Proof.
  rewrite !DictionaryComparator_lexdiff. intros H.
  apply lexdiff_zero in H; try apply lower_key_pos. rewrite H. reflexivity.
Qed.

Lemma cmp_zero_r a b c :
  DictionaryComparator b c = 0 ->
  DictionaryComparator a b = DictionaryComparator a c.
Proof.
  rewrite !DictionaryComparator_lexdiff. intros H.
  apply lexdiff_zero in H; try apply lower_key_pos. rewrite H. reflexivity.
Qed.

Lemma cmp_le_lt_trans a b c :
  DictionaryComparator a b <= 0 -> DictionaryComparator b c < 0 ->
  DictionaryComparator a c < 0.
Proof.
  intros Hab Hbc.
  destruct (Z.eq_dec (DictionaryComparator a b) 0) as [E|E].
  - rewrite (cmp_zero_l _ _ _ E). exact Hbc.
  - apply cmp_lt_trans with b; [lia | exact Hbc].
Qed.

Lemma cmp_lt_le_trans a b c :
  DictionaryComparator a b < 0 -> DictionaryComparator b c <= 0 ->
  DictionaryComparator a c < 0.
Proof.
  intros Hab Hbc.
  destruct (Z.eq_dec (DictionaryComparator b c) 0) as [E|E].
  - rewrite <- (cmp_zero_r _ _ _ E). exact Hab.
  - apply cmp_lt_trans with b; [exact Hab | lia].
Qed.

Lemma cmp_le_trans a b c : cmp_le a b -> cmp_le b c -> cmp_le a c.
Proof.
  unfold cmp_le. intros Hab Hbc.
  destruct (Z.eq_dec (DictionaryComparator a b) 0) as [E|E].
  - rewrite (cmp_zero_l _ _ _ E). exact Hbc.
  - apply Z.lt_le_incl. apply cmp_lt_le_trans with b; [lia | exact Hbc].
Qed.

Lemma cmp_le_total a b : cmp_le a b \/ cmp_le b a.
Proof.
  unfold cmp_le. rewrite (cmp_antisym b a). lia.
Qed.

Lemma cmp_le_refl a : cmp_le a a.
Proof. unfold cmp_le. pose proof (cmp_antisym a a). lia. Qed.

(** ** Sorting *)

Lemma qsort_insert_perm x l : Permutation (qsort_insert x l) (x :: l).
Proof.
  induction l as [|y r IH]; simpl; [reflexivity|].
  destruct (DictionaryComparator x y <=? 0); [reflexivity|].
  rewrite IH. apply perm_swap.
Qed.

Lemma qsort_perm l : Permutation (qsort l) l.
Proof.
  induction l as [|x l IH]; simpl; [reflexivity|].
  rewrite qsort_insert_perm. constructor. exact IH.
Qed.

Lemma qsort_insert_sorted x l :
  StronglySorted cmp_le l -> StronglySorted cmp_le (qsort_insert x l).
Proof.
  induction 1 as [|y r Hs IH Hy]; simpl.
  - repeat constructor.
  - destruct (DictionaryComparator x y <=? 0) eqn:E.
    + apply Z.leb_le in E. constructor; [constructor; assumption|].
      constructor; [exact E|].
      eapply Forall_impl; [exact Hy|]. intros z Hz.
      apply cmp_le_trans with y; assumption.
    + apply Z.leb_gt in E. constructor; [exact IH|].
      rewrite qsort_insert_perm. constructor; [|exact Hy].
      unfold cmp_le. rewrite cmp_antisym. lia.
Qed.

Lemma qsort_sorted l : StronglySorted cmp_le (qsort l).
Proof.
  induction l as [|x l IH]; simpl; [constructor|].
  apply qsort_insert_sorted, IH.
Qed.

Lemma Dictionary_sort_sorted d : dict_sorted (Dictionary_sort d).
Proof.
  unfold Dictionary_sort, dict_sorted, count.
  destruct (0 <? Z.of_nat (length (words d))) eqn:E; simpl.
  - apply qsort_sorted.
  - apply Z.ltb_ge in E. destruct (words d); [constructor | simpl in E; lia].
Qed.

Lemma Dictionary_sort_perm d : Permutation (words (Dictionary_sort d)) (words d).
Proof.
  unfold Dictionary_sort. destruct (0 <? count d); simpl;
    [apply qsort_perm | reflexivity].
Qed.

Lemma dict_contains_perm d1 d2 w :
  Permutation (words d1) (words d2) -> dict_contains d1 w -> dict_contains d2 w.
Proof.
  unfold dict_contains. intros Hp. rewrite !Exists_exists.
  intros (e & Hin & He). exists e. split; [|exact He].
  rewrite <- Hp. exact Hin.
Qed.

(** ** Binary search *)

Lemma sorted_nth ws :
  StronglySorted cmp_le ws ->
  forall i j, (i <= j < length ws)%nat -> cmp_le (nth i ws "") (nth j ws "").
Proof.
  induction 1 as [|x r Hs IH Hx]; intros i j Hij; simpl in Hij; [lia|].
  destruct i as [|i], j as [|j]; simpl; try lia.
  - apply cmp_le_refl.
  - rewrite Forall_forall in Hx. apply Hx. apply list_elem_of_In, nth_In. lia.
  - apply IH. lia.
Qed.

(** The loop ends before its fuel does. *)
Lemma bsearch_loop_total ws w fuel left right :
  Z.max 0 (right - left + 1) < Z.of_nat fuel ->
  exists b, bsearch_loop fuel ws w left right = Some b.
Proof.
  revert left right. induction fuel as [|fuel IH]; intros left right Hf; [lia|].
  simpl. destruct (left <=? right) eqn:Elr; [|eauto].
  apply Z.leb_le in Elr.
  assert (Hq : 0 <= (right - left) ÷ 2 <= right - left).
  { rewrite Z.quot_div_nonneg by lia.
    split; [apply Z.div_pos; lia | apply Z.div_le_upper_bound; lia]. }
  destruct (_ =? 0); [eauto|].
  destruct (_ <? 0); apply IH; lia.
Qed.

Lemma bsearch_loop_sound ws w :
  StronglySorted cmp_le ws ->
  forall fuel left right b,
    0 <= left -> right < Z.of_nat (length ws) ->
    bsearch_loop fuel ws w left right = Some b ->
    b = true <->
    exists i, left <= i <= right /\
              strcasecmp_custom (nth (Z.to_nat i) ws "") w = 0.
Proof.
  intros Hs. induction fuel as [|fuel IH]; intros left right b Hl Hr; simpl;
    [discriminate|].
  destruct (left <=? right) eqn:Elr.
  2:{ apply Z.leb_gt in Elr. intros [= <-].
      split; [discriminate | intros (i & Hi & _); lia]. }
  apply Z.leb_le in Elr.
  assert (Hq : 0 <= (right - left) ÷ 2 <= right - left).
  { rewrite Z.quot_div_nonneg by lia.
    split; [apply Z.div_pos; lia | apply Z.div_le_upper_bound; lia]. }
  set (mid := left + (right - left) ÷ 2) in *.
  assert (Hm : left <= mid <= right) by (unfold mid; lia).
  destruct (strcasecmp_custom (nth (Z.to_nat mid) ws "") w =? 0) eqn:E0.
  - apply Z.eqb_eq in E0. intros [= <-].
    split; [intros _; exists mid; split; [lia | exact E0] | reflexivity].
  - apply Z.eqb_neq in E0.
    destruct (strcasecmp_custom (nth (Z.to_nat mid) ws "") w <? 0) eqn:E1.
    + apply Z.ltb_lt in E1. intros Hb.
      rewrite (IH (mid + 1) right b ltac:(lia) Hr Hb).
      split; intros (i & Hi & Hc); exists i; (split; [|exact Hc]); [lia|].
      destruct (Z_lt_le_dec mid i) as [Hlt|Hle]; [lia|exfalso].
      assert (Hle' : cmp_le (nth (Z.to_nat i) ws "") (nth (Z.to_nat mid) ws ""))
        by (apply sorted_nth; [exact Hs | lia]).
      rewrite strcasecmp_custom_comparator in *.
      pose proof (cmp_le_lt_trans _ _ _ Hle' E1). lia.
    + apply Z.ltb_ge in E1. intros Hb.
      rewrite (IH left (mid - 1) b Hl ltac:(lia) Hb).
      split; intros (i & Hi & Hc); exists i; (split; [|exact Hc]); [lia|].
      destruct (Z_lt_le_dec i mid) as [Hlt|Hle]; [lia|exfalso].
      assert (Hle' : cmp_le (nth (Z.to_nat mid) ws "") (nth (Z.to_nat i) ws ""))
        by (apply sorted_nth; [exact Hs | lia]).
      rewrite strcasecmp_custom_comparator in *.
      unfold cmp_le in Hle'.
      rewrite (cmp_zero_r _ _ _ Hc) in Hle'. lia.
Qed.

(** On a sorted array the search finds a word exactly when an entry equals
    it case-insensitively. *)
Lemma BinarySearchDictionary_spec d w :
  dict_sorted d -> BinarySearchDictionary d w = true <-> dict_contains d w.
Proof.
  intros Hs. unfold BinarySearchDictionary, dict_contains, count.
  destruct (bsearch_loop_total (words d) w (S (length (words d))) 0
              (Z.of_nat (length (words d)) - 1) ltac:(lia)) as [b Hb].
  rewrite Hb.
  rewrite (bsearch_loop_sound _ w Hs _ 0 (Z.of_nat (length (words d)) - 1) b ltac:(lia) ltac:(lia) Hb).
  rewrite Exists_exists. split.
  - intros (i & Hi & Hc). exists (nth (Z.to_nat i) (words d) "").
    split; [apply list_elem_of_In, nth_In; lia | apply caseless_eq_cmp, Hc].
  - intros (e & Hin & He). apply list_elem_of_In in Hin.
    destruct (In_nth _ _ "" Hin) as (n & Hn & <-).
    exists (Z.of_nat n). rewrite Nat2Z.id.
    split; [lia | apply caseless_eq_cmp, He].
Qed.

(** A hit is always a real entry, sorted array or not. *)
Lemma bsearch_loop_hit ws w fuel left right :
  0 <= left -> right < Z.of_nat (length ws) ->
  bsearch_loop fuel ws w left right = Some true ->
  Exists (fun e => caseless_eq e w) ws.
Proof.
  revert left right. induction fuel as [|fuel IH]; intros left right Hl Hr;
    simpl; [discriminate|].
  destruct (left <=? right) eqn:Elr; [|discriminate].
  apply Z.leb_le in Elr.
  assert (Hq : 0 <= (right - left) ÷ 2 <= right - left).
  { rewrite Z.quot_div_nonneg by lia.
    split; [apply Z.div_pos; lia | apply Z.div_le_upper_bound; lia]. }
  set (mid := left + (right - left) ÷ 2) in *.
  destruct (strcasecmp_custom (nth (Z.to_nat mid) ws "") w =? 0) eqn:E0.
  - intros _. apply Z.eqb_eq in E0. apply Exists_exists.
    exists (nth (Z.to_nat mid) ws "").
    split; [apply list_elem_of_In, nth_In; lia | apply caseless_eq_cmp, E0].
  - destruct (_ <? 0); apply IH; lia.
Qed.

Lemma BinarySearchDictionary_hit d w :
  BinarySearchDictionary d w = true -> dict_contains d w.
Proof.
  unfold BinarySearchDictionary, dict_contains, count.
  destruct (bsearch_loop _ _ _ _ _) as [[|]|] eqn:E; try discriminate.
  intros _. eapply bsearch_loop_hit; [| |exact E]; lia.
Qed.

(** ** Correctness policy *)

Ltac sorted_by_computation :=
  repeat match goal with
    | |- StronglySorted _ _ => constructor
    | |- Forall _ _ => constructor
    | |- cmp_le _ _ => unfold cmp_le; vm_compute; discriminate
    end.

Lemma sc_precedence_sorted : engine_sorted sc_precedence.
Proof.
  unfold engine_sorted, dict_sorted; simpl.
  split; [|split]; sorted_by_computation.
Qed.

(** C1, as stated, fails.  The file holds the lines zebra, apple, mango and
    the allocation for the third word fails: the load returns early, before
    its sort, and leaves the main dictionary as zebra, apple.  On that engine
    "apple" is a non-empty word present in the main dictionary, yet
    [SpellChecker_IsWordCorrect] returns FALSE for it. *)
Lemma present_word_judged_incorrect :
  exists s h',
    SpellChecker_LoadDictionary
      (one_file ("zebra" ++ newline ++ "apple" ++ newline ++ "mango"))
      (Some sc_fresh) (Some "words.txt") [true; true; false] =
      (false, Some s, h') /\
    strlen "apple" <> O /\
    ~ (SpellChecker_IsWordCorrect (Some s) (Some "apple") = true <->
       dict_contains (ignoredWords s) "apple" \/
       dict_contains (mainDictionary s) "apple" \/
       dict_contains (userDictionary s) "apple").
Proof.
  eexists _, _. split; [vm_compute; reflexivity|].
  split; [vm_compute; discriminate|].
  intros [_ H].
  assert (Hc : SpellChecker_IsWordCorrect
                 (Some (set_mainDictionary sc_fresh
                          (mkDictionary ["zebra"; "apple"] INITIAL_DICT_CAPACITY)))
                 (Some "apple") = true).
  { apply H. right. left. unfold dict_contains. cbn [mainDictionary words
      set_mainDictionary]. apply Exists_cons_tl, Exists_cons_hd. reflexivity. }
  vm_compute in Hc. discriminate Hc.
Qed.

(** C1 (amended). On every engine and for every non-empty word, the verdict
    of [SpellChecker_IsWordCorrect] is the disjunction of the three binary
    searches, run on the ignore list, the main dictionary and the user
    dictionary in that order.  A word judged correct is present,
    case-insensitively, in one of the three arrays, whatever their order; a
    word present in one of the three arrays is judged correct provided that
    array is in sorted order.  So on an engine whose three arrays are sorted
    the word is judged correct exactly when one of them holds it.  The empty
    word and a null word are always judged correct, on every engine. *)
Theorem IsWordCorrect_policy (sc : SpellChecker) (w : string) :
  (strlen w <> O ->
   SpellChecker_IsWordCorrect (Some sc) (Some w) =
     (BinarySearchDictionary (ignoredWords sc) w
      || (BinarySearchDictionary (mainDictionary sc) w
          || BinarySearchDictionary (userDictionary sc) w)) /\
   (SpellChecker_IsWordCorrect (Some sc) (Some w) = true ->
    dict_contains (ignoredWords sc) w \/ dict_contains (mainDictionary sc) w \/
    dict_contains (userDictionary sc) w) /\
   (dict_sorted (ignoredWords sc) /\ dict_contains (ignoredWords sc) w \/
    dict_sorted (mainDictionary sc) /\ dict_contains (mainDictionary sc) w \/
    dict_sorted (userDictionary sc) /\ dict_contains (userDictionary sc) w ->
    SpellChecker_IsWordCorrect (Some sc) (Some w) = true) /\
   (engine_sorted sc ->
    (SpellChecker_IsWordCorrect (Some sc) (Some w) = true <->
     dict_contains (ignoredWords sc) w \/ dict_contains (mainDictionary sc) w \/
     dict_contains (userDictionary sc) w))) /\
  (strlen w = O -> SpellChecker_IsWordCorrect (Some sc) (Some w) = true) /\
  SpellChecker_IsWordCorrect (Some sc) None = true.
Proof.
  split; [|split; [|reflexivity]].
  - intros Hne.
    assert (E : SpellChecker_IsWordCorrect (Some sc) (Some w) =
                (BinarySearchDictionary (ignoredWords sc) w
                 || (BinarySearchDictionary (mainDictionary sc) w
                     || BinarySearchDictionary (userDictionary sc) w))).
    { unfold SpellChecker_IsWordCorrect.
      destruct (strlen w =? 0)%nat eqn:E0; [apply Nat.eqb_eq in E0; lia|].
      destruct (BinarySearchDictionary (ignoredWords sc) w); [reflexivity|].
      destruct (BinarySearchDictionary (mainDictionary sc) w); [reflexivity|].
      destruct (BinarySearchDictionary (userDictionary sc) w); reflexivity. }
    assert (Hsound : SpellChecker_IsWordCorrect (Some sc) (Some w) = true ->
              dict_contains (ignoredWords sc) w \/
              dict_contains (mainDictionary sc) w \/
              dict_contains (userDictionary sc) w).
    { rewrite E, !orb_true_iff.
      intros [H|[H|H]]; apply BinarySearchDictionary_hit in H; auto. }
    assert (Hcomplete :
              dict_sorted (ignoredWords sc) /\ dict_contains (ignoredWords sc) w \/
              dict_sorted (mainDictionary sc) /\ dict_contains (mainDictionary sc) w \/
              dict_sorted (userDictionary sc) /\ dict_contains (userDictionary sc) w ->
              SpellChecker_IsWordCorrect (Some sc) (Some w) = true).
    { rewrite E, !orb_true_iff.
      intros [[Hs Hc]|[[Hs Hc]|[Hs Hc]]];
        apply (BinarySearchDictionary_spec _ _ Hs) in Hc; auto. }
    split; [exact E|]. split; [exact Hsound|]. split; [exact Hcomplete|].
    intros (Hm & Hu & Hi). split; [exact Hsound|].
    intros [H|[H|H]]; apply Hcomplete; auto.
  - intros E0. unfold SpellChecker_IsWordCorrect. rewrite E0. reflexivity.
Qed.

Lemma IsWordCorrect_policy_witness :
  strlen "Wrold" <> O /\ engine_sorted sc_precedence /\
  (SpellChecker_IsWordCorrect (Some sc_precedence) (Some "Wrold") = true <->
   dict_contains (ignoredWords sc_precedence) "Wrold" \/
   dict_contains (mainDictionary sc_precedence) "Wrold" \/
   dict_contains (userDictionary sc_precedence) "Wrold").
Proof.
  assert (Hne : strlen "Wrold" <> O) by (vm_compute; discriminate).
  split; [exact Hne|]. split; [exact sc_precedence_sorted|].
  destruct (proj1 (IsWordCorrect_policy sc_precedence "Wrold") Hne)
    as (_ & _ & _ & Hiff).
  exact (Hiff sc_precedence_sorted).
Defined.

(** ** Allocation *)

Lemma alloc_succeeds h :
  allocs_succeed h -> exists h', alloc h = (true, h') /\ allocs_succeed h'.
Proof.
  intros H. destruct H as [|ok h' Hok H]; simpl.
  - exists []. split; [reflexivity | constructor].
  - subst ok. exists h'. split; [reflexivity | exact H].
Qed.

Lemma Dictionary_push_succeeds d s h :
  allocs_succeed h ->
  exists d' h', Dictionary_push d s h = (true, d', h') /\
                words d' = (words d ++ [strcpy s])%list /\ allocs_succeed h'.
Proof.
  intros H. unfold Dictionary_push, Dictionary_grow.
  destruct (capacity d <=? count d).
  - destruct (alloc_succeeds h H) as (h1 & -> & H1). simpl.
    destruct (alloc_succeeds h1 H1) as (h2 & -> & H2). simpl. eauto.
  - simpl. destruct (alloc_succeeds h H) as (h1 & -> & H1). simpl. eauto.
Qed.

(** ** Learning words *)

Lemma lower_key_strcpy s : lower_key (strcpy s) = lower_key s.
Proof.
  induction s as [|c r IH]; simpl; [reflexivity|].
  destruct (uchar c =? 0) eqn:E; simpl; [reflexivity|]. rewrite E, IH. reflexivity.
Qed.

(** One call, allocations succeeding: the call either leaves the array alone
    or appends the word and sorts. *)
Lemma AddToUserDictionary_step s v h :
  allocs_succeed h ->
  exists s' h', SpellChecker_AddToUserDictionary (Some s) (Some v) h = (Some s', h') /\
    allocs_succeed h' /\
    ((BinarySearchDictionary (userDictionary s) v = true /\ s' = s) \/
     (dict_sorted (userDictionary s') /\
      Permutation (words (userDictionary s'))
        (words (userDictionary s) ++ [strcpy v])%list)).
Proof.
  intros H. unfold SpellChecker_AddToUserDictionary.
  destruct (BinarySearchDictionary (userDictionary s) v) eqn:E.
  - exists s, h. auto.
  - destruct (Dictionary_push_succeeds (userDictionary s) v h H)
      as (d' & h' & -> & Hw & H'). simpl.
    eexists _, h'. split; [reflexivity|]. split; [exact H'|]. right. simpl.
    split; [apply Dictionary_sort_sorted|].
    rewrite Dictionary_sort_perm, Hw. reflexivity.
Qed.

Lemma AddToUserDictionary_keeps s v w h :
  allocs_succeed h ->
  BinarySearchDictionary (userDictionary s) w = true ->
  BinarySearchDictionary
    (user_of (fst (SpellChecker_AddToUserDictionary (Some s) (Some v) h))) w = true.
Proof.
  intros H Hw.
  destruct (AddToUserDictionary_step s v h H) as (s' & h' & -> & _ & [[_ ->]|[Hs Hp]]);
    simpl; [exact Hw|].
  apply BinarySearchDictionary_spec; [exact Hs|].
  apply BinarySearchDictionary_hit in Hw.
  unfold dict_contains in *. rewrite Hp. apply Exists_app. left. exact Hw.
Qed.

Lemma AddToUserDictionary_sorted s v h :
  allocs_succeed h ->
  dict_sorted (userDictionary s) ->
  dict_sorted (user_of (fst (SpellChecker_AddToUserDictionary (Some s) (Some v) h))).
Proof.
  intros H Hsd.
  destruct (AddToUserDictionary_step s v h H) as (s' & h' & -> & _ & [[_ ->]|[Hs Hp]]);
    simpl; assumption.
Qed.

Lemma AddToUserDictionary_learns s w h :
  allocs_succeed h ->
  BinarySearchDictionary
    (user_of (fst (SpellChecker_AddToUserDictionary (Some s) (Some w) h))) w = true.
Proof.
  intros H.
  destruct (AddToUserDictionary_step s w h H) as (s' & h' & -> & _ & [[Hw ->]|[Hs Hp]]);
    simpl; [exact Hw|].
  apply BinarySearchDictionary_spec; [exact Hs|].
  unfold dict_contains. rewrite Hp. apply Exists_app. right.
  constructor. apply lower_key_strcpy.
Qed.

Lemma AddToUserDictionary_all_keeps ws : forall s w h,
  allocs_succeed h ->
  BinarySearchDictionary (userDictionary s) w = true ->
  BinarySearchDictionary
    (user_of (fst (AddToUserDictionary_all (Some s) ws h))) w = true /\
  (dict_sorted (userDictionary s) ->
   dict_sorted (user_of (fst (AddToUserDictionary_all (Some s) ws h)))).
Proof.
  induction ws as [|v ws IH]; intros s w h H Hw;
    cbn [AddToUserDictionary_all]; [simpl; auto|].
  pose proof (AddToUserDictionary_keeps s v w h H Hw) as Hk.
  pose proof (AddToUserDictionary_sorted s v h H) as Hsd.
  destruct (AddToUserDictionary_step s v h H) as (s' & h' & E & H' & _).
  rewrite E in *. simpl in Hk, Hsd.
  destruct (IH s' w h' H' Hk) as [IH1 IH2]. auto.
Qed.

(** C7. With allocations succeeding, a word that was just learned is found
    by the case-insensitive search of the user dictionary, and is still found
    after any further words are learned; and a user dictionary that was in
    sorted order before is in sorted order after the insertion and after each
    of the later ones. *)
Theorem learned_word_stays (s : SpellChecker) (w : string) (others : list string)
    (h : heap) :
  allocs_succeed h ->
  let r1 := SpellChecker_AddToUserDictionary (Some s) (Some w) h in
  let r2 := AddToUserDictionary_all (fst r1) others (snd r1) in
  BinarySearchDictionary (user_of (fst r1)) w = true /\
  BinarySearchDictionary (user_of (fst r2)) w = true /\
  (dict_sorted (userDictionary s) ->
   dict_sorted (user_of (fst r1)) /\ dict_sorted (user_of (fst r2))).
Proof.
  intros H r1 r2. subst r1 r2.
  pose proof (AddToUserDictionary_learns s w h H) as Hl.
  pose proof (AddToUserDictionary_sorted s w h H) as Hsd.
  destruct (AddToUserDictionary_step s w h H) as (s' & h' & E & H' & _).
  rewrite E in *. cbn [fst snd user_of] in *.
  destruct (AddToUserDictionary_all_keeps others s' w h' H' Hl) as [K1 K2].
  split; [exact Hl|]. split; [exact K1|]. intros Hs0. split; auto.
Qed.

Lemma learned_word_stays_witness :
  allocs_succeed [true; true] /\
  BinarySearchDictionary
    (user_of (fst (AddToUserDictionary_all
       (fst (SpellChecker_AddToUserDictionary (Some sc_precedence) (Some "Colour")
               [true; true]))
       ["zebra"; "apple"]
       (snd (SpellChecker_AddToUserDictionary (Some sc_precedence) (Some "Colour")
               [true; true])))))
    "Colour" = true.
Proof.
  assert (H : allocs_succeed [true; true]) by (repeat constructor).
  split; [exact H|].
  exact (proj1 (proj2 (learned_word_stays sc_precedence "Colour"
                         ["zebra"; "apple"] [true; true] H))).
Defined.

(** ** Checking: frame *)

Lemma same_dictionaries_refl s : same_dictionaries s s.
Proof. repeat split. Qed.

Lemma same_dictionaries_set_misspelled s s' m :
  same_dictionaries s s' -> same_dictionaries s (set_misspelled s' m).
Proof. intros H. exact H. Qed.

Lemma Check_loop_frame fuel : forall s ptr pos h s' h',
  Check_loop fuel s ptr pos h = Some (s', h') -> same_dictionaries s s'.
Proof.
  induction fuel as [|fuel IH]; intros s ptr pos h s' h'; cbn [Check_loop];
    [discriminate|].
  destruct (deref ptr =? 0); [intros [= <- <-]; apply same_dictionaries_refl|].
  destruct (skip_nonalpha ptr pos) as [ptr1 pos1].
  destruct (deref ptr1 =? 0); [intros [= <- <-]; apply same_dictionaries_refl|].
  destruct (extract_word ptr1 pos1 "" 0) as [[ptr2 pos2] w].
  destruct (negb (SpellChecker_IsWordCorrect (Some s) (Some w))).
  - destruct (m_capacity (misspelled s) <=? m_count (misspelled s)).
    + destruct (alloc h) as [ok h1]. destruct (negb ok).
      * intros [= <- <-]. repeat split.
      * intros E. apply IH in E. exact E.
    + intros E. apply IH in E. exact E.
  - apply IH.
Qed.

(** C9. Whatever the engine, the text and the fate of the allocations,
    [SpellChecker_Check] returns an engine with the same main dictionary, user
    dictionary and ignore list (same entries, same order, same capacity) and
    the same flags: only the misspelled list can differ. *)
Theorem Check_frame (sc : option SpellChecker) (text : option string) (h : heap) :
  match sc, fst (SpellChecker_Check sc text h) with
  | Some s, Some s' => same_dictionaries s s'
  | None, None => True
  | _, _ => False
  end.
Proof.
  destruct sc as [s|]; [|exact I]. unfold SpellChecker_Check.
  destruct (negb (enabled s)); [repeat split|].
  destruct text as [text|]; [|repeat split].
  destruct (deref text =? 0); [repeat split|].
  destruct (only_whitespace text); [repeat split|].
  destruct (Check_loop _ _ _ _ _) as [[s' h']|] eqn:E; [|repeat split].
  apply Check_loop_frame in E. exact E.
Qed.

(** ** Checking: the recorded list *)

Lemma skip_nonalpha_length ptr : forall pos,
  (String.length (fst (skip_nonalpha ptr pos)) <= String.length ptr)%nat.
Proof.
  induction ptr as [|c r IH]; intros pos; simpl; [lia|].
  destruct (negb (uchar c =? 0) && negb (isalpha (uchar c))); simpl; [|lia].
  specialize (IH (DWORD_incr pos)). lia.
Qed.

Lemma skip_nonalpha_stops ptr : forall pos,
  deref (fst (skip_nonalpha ptr pos)) <> 0 ->
  isalpha (deref (fst (skip_nonalpha ptr pos))) = true.
Proof.
  induction ptr as [|c r IH]; intros pos; simpl; [congruence|].
  destruct (uchar c =? 0) eqn:E0; simpl.
  - apply Z.eqb_eq in E0. congruence.
  - destruct (isalpha (uchar c)) eqn:Ea; simpl; [auto|apply IH].
Qed.

Lemma extract_word_length ptr : forall pos w n,
  (String.length (fst (fst (extract_word ptr pos w n))) <= String.length ptr)%nat.
Proof.
  induction ptr as [|c r IH]; intros pos w n; simpl; [lia|].
  destruct (negb (uchar c =? 0) && isalpha (uchar c) && (n <? 255)%nat);
    simpl; [|lia].
  specialize (IH (DWORD_incr pos) (w ++ String c "")%string (S n)). lia.
Qed.

Lemma extract_word_progress ptr pos :
  deref ptr <> 0 -> isalpha (deref ptr) = true ->
  (String.length (fst (fst (extract_word ptr pos "" 0))) < String.length ptr)%nat.
Proof.
  destruct ptr as [|c r]; simpl; [congruence|]. intros H0 Ha.
  apply Z.eqb_neq in H0. rewrite H0, Ha. simpl.
  pose proof (extract_word_length r (DWORD_incr pos) (String c "") 1). lia.
Qed.

Lemma strlen_strcpy s : strlen (strcpy s) = strlen s.
Proof.
  induction s as [|c r IH]; simpl; [reflexivity|].
  destruct (uchar c =? 0) eqn:E; simpl; [reflexivity|]. rewrite E, IH. reflexivity.
Qed.

Lemma strcasecmp_custom_strcpy e w :
  strcasecmp_custom e (strcpy w) = strcasecmp_custom e w.
Proof.
  rewrite !strcasecmp_custom_comparator, !DictionaryComparator_lexdiff,
    lower_key_strcpy. reflexivity.
Qed.

Lemma bsearch_loop_strcpy ws w fuel : forall left right,
  bsearch_loop fuel ws (strcpy w) left right = bsearch_loop fuel ws w left right.
Proof.
  induction fuel as [|fuel IH]; intros left right; simpl; [reflexivity|].
  rewrite strcasecmp_custom_strcpy, !IH. reflexivity.
Qed.

Lemma IsWordCorrect_strcpy sc w :
  SpellChecker_IsWordCorrect sc (Some (strcpy w)) =
  SpellChecker_IsWordCorrect sc (Some w).
Proof.
  destruct sc as [s|]; [|reflexivity].
  unfold SpellChecker_IsWordCorrect, BinarySearchDictionary.
  rewrite strlen_strcpy, !bsearch_loop_strcpy. reflexivity.
Qed.

Lemma IsWordCorrect_frame s s' w :
  same_dictionaries s s' ->
  SpellChecker_IsWordCorrect (Some s') w = SpellChecker_IsWordCorrect (Some s) w.
Proof.
  intros (Hm & Hu & Hi & _). destruct w as [w|]; [|reflexivity].
  unfold SpellChecker_IsWordCorrect. rewrite Hm, Hu, Hi. reflexivity.
Qed.

Lemma is_misspelled_frame s s' :
  same_dictionaries s s' ->
  forall l : list MisspelledWord,
    filter (fun m => is_misspelled s' m = true) l =
    filter (fun m => is_misspelled s m = true) l.
Proof.
  intros H l. apply list_filter_iff. intros m. unfold is_misspelled.
  rewrite (IsWordCorrect_frame s s' _ H). reflexivity.
Qed.

(** With allocations succeeding the loop runs to the end of the text and
    appends exactly the misspelled tokens, in scan order. *)
Lemma Check_loop_records fuel : forall s ptr pos h,
  (String.length ptr < fuel)%nat -> allocs_succeed h ->
  exists s' h',
    Check_loop fuel s ptr pos h = Some (s', h') /\ allocs_succeed h' /\
    m_words (misspelled s') =
      (m_words (misspelled s) ++
       filter (fun m => is_misspelled s m = true) (tokens_loop fuel ptr pos))%list.
Proof.
  induction fuel as [|fuel IH]; intros s ptr pos h Hf Hh; [lia|].
  cbn [Check_loop tokens_loop].
  destruct (deref ptr =? 0).
  { exists s, h. rewrite app_nil_r. auto. }
  pose proof (skip_nonalpha_length ptr pos) as Hl1.
  pose proof (skip_nonalpha_stops ptr pos) as Hs1.
  destruct (skip_nonalpha ptr pos) as [ptr1 pos1]. simpl in Hl1, Hs1.
  destruct (deref ptr1 =? 0) eqn:E1.
  { exists s, h. rewrite app_nil_r. auto. }
  apply Z.eqb_neq in E1.
  pose proof (extract_word_progress ptr1 pos1 E1 (Hs1 E1)) as Hl2.
  destruct (extract_word ptr1 pos1 "" 0) as [[ptr2 pos2] w]. simpl in Hl2.
  rewrite filter_cons.
  set (entry := mkMisspelledWord (strcpy w) pos1 pos2).
  assert (Em : is_misspelled s entry =
               negb (SpellChecker_IsWordCorrect (Some s) (Some w))).
  { unfold is_misspelled, entry. cbn [word].
    rewrite IsWordCorrect_strcpy. reflexivity. }
  destruct (SpellChecker_IsWordCorrect (Some s) (Some w)) eqn:Ec;
    cbn [negb] in *.
  - rewrite decide_False by (rewrite Em; discriminate).
    apply IH; [lia | exact Hh].
  - rewrite decide_True by exact Em.
    destruct (m_capacity (misspelled s) <=? m_count (misspelled s)).
    + destruct (alloc_succeeds h Hh) as (h1 & -> & Hh1). cbn [negb].
      edestruct (IH (set_misspelled s
                  (mkMisspelledWordList
                     (m_words (mkMisspelledWordList (m_words (misspelled s))
                                 (m_capacity (misspelled s) * 2)) ++ [entry])
                     (m_capacity (mkMisspelledWordList (m_words (misspelled s))
                                    (m_capacity (misspelled s) * 2)))))
                  ptr2 pos2 h1) as (s' & h' & E & Hh' & Hw); [lia|exact Hh1|].
      exists s', h'. split; [exact E|]. split; [exact Hh'|].
      rewrite Hw. cbn [misspelled set_misspelled m_words].
      rewrite <- app_assoc. cbn [app].
      erewrite is_misspelled_frame; [reflexivity | repeat split].
    + edestruct (IH (set_misspelled s
                  (mkMisspelledWordList (m_words (misspelled s) ++ [entry])
                     (m_capacity (misspelled s))))
                  ptr2 pos2 h) as (s' & h' & E & Hh' & Hw); [lia|exact Hh|].
      exists s', h'. split; [exact E|]. split; [exact Hh'|].
      rewrite Hw. cbn [misspelled set_misspelled m_words].
      rewrite <- app_assoc. cbn [app].
      erewrite is_misspelled_frame; [reflexivity | repeat split].
Qed.

Lemma isspace_not_alpha c : isspace c = true -> isalpha c = false.
Proof.
  unfold isspace, isalpha. intros H.
  apply orb_true_iff in H as [H|H].
  - apply Z.eqb_eq in H. subst c. reflexivity.
  - apply andb_true_iff in H as [H1 H2].
    apply Z.leb_le in H1, H2.
    destruct (65 <=? c) eqn:E1; [apply Z.leb_le in E1; lia|].
    destruct (97 <=? c) eqn:E2; [apply Z.leb_le in E2; lia|]. reflexivity.
Qed.

Lemma only_whitespace_skipped ptr : forall pos,
  only_whitespace ptr = true -> deref (fst (skip_nonalpha ptr pos)) = 0.
Proof.
  induction ptr as [|c r IH]; intros pos; simpl; [reflexivity|].
  destruct (uchar c =? 0) eqn:E0; simpl; [intros _; apply Z.eqb_eq, E0|].
  destruct (isspace (uchar c)) eqn:Es; simpl; [|discriminate].
  rewrite (isspace_not_alpha _ Es). simpl. apply IH.
Qed.

Lemma tokenize_blank text :
  deref text = 0 \/ only_whitespace text = true -> tokenize text = [].
Proof.
  unfold tokenize. cbn [tokens_loop]. intros [H|H].
  - rewrite H. reflexivity.
  - destruct (deref text =? 0); [reflexivity|].
    pose proof (only_whitespace_skipped text 0 H) as Hs.
    destruct (skip_nonalpha text 0) as [ptr1 pos1]. simpl in Hs.
    rewrite Hs. reflexivity.
Qed.

(** With checking enabled and allocations succeeding, a check replaces the
    misspelled list by the misspelled tokens of the text, in scan order. *)
Lemma Check_records s text h :
  enabled s = true -> allocs_succeed h ->
  exists s' h',
    SpellChecker_Check (Some s) (Some text) h = (Some s', h') /\
    allocs_succeed h' /\
    m_words (misspelled s') =
      filter (fun m => is_misspelled s m = true) (tokenize text).
Proof.
  intros He Hh. unfold SpellChecker_Check. rewrite He. cbn [negb].
  destruct (deref text =? 0) eqn:E0.
  { apply Z.eqb_eq in E0. rewrite tokenize_blank by auto.
    exists (reset_misspelled s), h. auto. }
  destruct (only_whitespace text) eqn:Ew.
  { rewrite tokenize_blank by auto. exists (reset_misspelled s), h. auto. }
  destruct (Check_loop_records (S (String.length text)) (reset_misspelled s)
              text 0 h ltac:(lia) Hh) as (s' & h' & E & Hh' & Hw).
  rewrite E. exists s', h'. split; [reflexivity|]. split; [exact Hh'|].
  rewrite Hw. cbn [reset_misspelled set_misspelled misspelled m_words app].
  apply is_misspelled_frame. repeat split.
Qed.

(** C4. With allocations succeeding, checking the same text twice in a row
    leaves the same misspelled list as checking it once: same words, same
    offsets, same order.  This holds for every engine (enabled or not, NULL
    included) and every text (NULL included). *)
Theorem Check_idempotent (sc : option SpellChecker) (text : option string)
    (h1 h2 : heap) :
  allocs_succeed h1 -> allocs_succeed h2 ->
  let r1 := SpellChecker_Check sc text h1 in
  let r2 := SpellChecker_Check (fst r1) text h2 in
  misspelled_of (fst r2) = misspelled_of (fst r1).
Proof.
  intros H1 H2 r1 r2. subst r1 r2.
  destruct sc as [s|]; [|reflexivity].
  destruct (enabled s) eqn:He.
  2:{ unfold SpellChecker_Check. rewrite He. cbn [negb fst].
      cbn [reset_misspelled set_misspelled enabled]. rewrite He. reflexivity. }
  destruct text as [text|].
  2:{ unfold SpellChecker_Check. rewrite He. cbn [negb fst].
      cbn [reset_misspelled set_misspelled enabled]. rewrite He. reflexivity. }
  destruct (Check_records s text h1 He H1) as (s1 & h1' & E1 & _ & W1).
  pose proof (Check_frame (Some s) (Some text) h1) as F.
  cbv beta iota in F. rewrite E1 in F |- *. cbn [fst] in F |- *.
  destruct F as (Fm & Fu & Fi & Fe & Fs).
  destruct (Check_records s1 text h2 ltac:(congruence) H2) as (s2 & h2' & E2 & _ & W2).
  rewrite E2. cbn [fst misspelled_of SpellChecker_GetMisspelledWords].
  rewrite W1, W2. f_equal.
  apply is_misspelled_frame. repeat split; assumption.
Qed.

Lemma Check_idempotent_witness :
  allocs_succeed [] /\ allocs_succeed [true] /\
  misspelled_of
    (fst (SpellChecker_Check
            (fst (SpellChecker_Check (Some sc_precedence)
                    (Some "hello wrold xyz") []))
            (Some "hello wrold xyz") [true])) =
  misspelled_of
    (fst (SpellChecker_Check (Some sc_precedence) (Some "hello wrold xyz") [])).
Proof.
  assert (H1 : allocs_succeed []) by constructor.
  assert (H2 : allocs_succeed [true]) by (repeat constructor).
  split; [exact H1|]. split; [exact H2|].
  exact (Check_idempotent (Some sc_precedence) (Some "hello wrold xyz")
           [] [true] H1 H2).
Defined.

(** ** Checking: long runs *)

Lemma Create_fresh : SpellChecker_Create [] = (Some sc_fresh, []).
Proof. reflexivity. Qed.

(** A run of 256 letters comes out as two records, [0, 255) and [255, 256). *)
Lemma long_run_two_records :
  misspelled_of
    (fst (SpellChecker_Check (Some sc_fresh) (Some (repeat_char 256 "a")) [])) =
  Some [mkMisspelledWord (repeat_char 255 "a") 0 255;
        mkMisspelledWord "a" 255 256].
Proof. vm_compute. reflexivity. Qed.

(** C2, as stated, fails: on a text that is one run of 256 letters no record
    starts at the run and ends at its end. *)
Lemma long_run_not_recorded_whole :
  exists ms,
    misspelled_of
      (fst (SpellChecker_Check (Some sc_fresh) (Some (repeat_char 256 "a")) []))
    = Some ms /\
    ~ run_recorded_whole ms (repeat_char 256 "a") 0.
Proof.
  eexists. split; [apply long_run_two_records|].
  intros (m & Hin & Hs & _ & He).
  apply elem_of_cons in Hin as [->|Hin]; [vm_compute in He; discriminate|].
  apply elem_of_cons in Hin as [->|Hin]; [vm_compute in Hs; discriminate|].
  inversion Hin.
Qed.

Lemma advance_incr pos n : advance (DWORD_incr pos) n = advance pos (S n).
Proof. unfold advance. rewrite Nat.iter_succ_r. reflexivity. Qed.

Lemma advance_add pos a b : advance (advance pos a) b = advance pos (a + b).
Proof.
  unfold advance. rewrite (Nat.add_comm a b), Nat.iter_add. reflexivity.
Qed.

Lemma advance_nowrap pos n :
  0 <= pos -> pos + Z.of_nat n < 2 ^ 32 -> advance pos n = pos + Z.of_nat n.
Proof.
  intros Hp. induction n as [|n IH]; intros Hn; [simpl; lia|].
  change (advance pos (S n)) with (DWORD_incr (advance pos n)).
  rewrite IH by lia. unfold DWORD_incr. rewrite Z.mod_small; lia.
Qed.

Lemma string_length_app (a b : string) :
  String.length (a ++ b) = (String.length a + String.length b)%nat.
Proof. induction a as [|c r IH]; simpl; [reflexivity | rewrite IH; reflexivity]. Qed.

Lemma string_app_assoc (a b c : string) : ((a ++ b) ++ c = a ++ (b ++ c))%string.
Proof. induction a as [|x r IH]; simpl; [reflexivity | rewrite IH; reflexivity]. Qed.

Lemma skip_nonalpha_pos ptr : forall pos,
  snd (skip_nonalpha ptr pos) =
  advance pos (String.length ptr - String.length (fst (skip_nonalpha ptr pos))).
Proof.
  induction ptr as [|c r IH]; intros pos; simpl; [reflexivity|].
  destruct (negb (uchar c =? 0) && negb (isalpha (uchar c))); simpl.
  - rewrite IH, advance_incr.
    pose proof (skip_nonalpha_length r (DWORD_incr pos)).
    f_equal. lia.
  - rewrite Nat.sub_diag. reflexivity.
Qed.

Lemma extract_word_pos ptr : forall pos w n,
  snd (fst (extract_word ptr pos w n)) =
  advance pos
    (String.length ptr - String.length (fst (fst (extract_word ptr pos w n)))).
Proof.
  induction ptr as [|c r IH]; intros pos w n; simpl; [reflexivity|].
  destruct (negb (uchar c =? 0) && isalpha (uchar c) && (n <? 255)%nat); simpl.
  - rewrite IH, advance_incr.
    pose proof (extract_word_length r (DWORD_incr pos) (w ++ String c "")%string (S n)).
    f_equal. lia.
  - rewrite Nat.sub_diag. reflexivity.
Qed.

Lemma skip_nonalpha_keeps ptr : forall pos,
  (no_nul ptr = true -> no_nul (fst (skip_nonalpha ptr pos)) = true) /\
  (ends_nonalpha ptr = true -> ends_nonalpha (fst (skip_nonalpha ptr pos)) = true).
Proof.
  induction ptr as [|c r IH]; intros pos; [simpl; auto|].
  cbn [skip_nonalpha].
  destruct (negb (uchar c =? 0) && negb (isalpha (uchar c))) eqn:E;
    [|cbn [fst]; auto].
  destruct (IH (DWORD_incr pos)) as [IH1 IH2]. split.
  - cbn [no_nul]. intros H. apply andb_true_iff in H as [_ H]. auto.
  - cbn [ends_nonalpha]. destruct r as [|c' r']; [reflexivity | exact IH2].
Qed.

Lemma extract_word_keeps ptr : forall pos w n,
  (no_nul ptr = true -> no_nul (fst (fst (extract_word ptr pos w n))) = true) /\
  (ends_nonalpha ptr = true ->
   ends_nonalpha (fst (fst (extract_word ptr pos w n))) = true).
Proof.
  induction ptr as [|c r IH]; intros pos w n; [simpl; auto|].
  cbn [extract_word].
  destruct (negb (uchar c =? 0) && isalpha (uchar c) && (n <? 255)%nat) eqn:E;
    [|cbn [fst]; auto].
  destruct (IH (DWORD_incr pos) (w ++ String c "")%string (S n)) as [IH1 IH2].
  split.
  - cbn [no_nul]. intros H. apply andb_true_iff in H as [_ H]. auto.
  - cbn [ends_nonalpha]. destruct r as [|c' r']; [reflexivity | exact IH2].
Qed.

Lemma skip_nonalpha_at_end ptr pos :
  deref ptr = 0 -> skip_nonalpha ptr pos = (ptr, pos).
Proof.
  destruct ptr as [|c r]; simpl; [reflexivity|].
  intros ->. reflexivity.
Qed.

Lemma skip_nonalpha_app pre rest : forall pos,
  no_nul pre = true ->
  skip_nonalpha (pre ++ rest) pos =
  match fst (skip_nonalpha pre pos) with
  | EmptyString => skip_nonalpha rest (snd (skip_nonalpha pre pos))
  | String _ _ =>
      ((fst (skip_nonalpha pre pos) ++ rest)%string, snd (skip_nonalpha pre pos))
  end.
Proof.
  induction pre as [|c r IH]; intros pos Hn; [reflexivity|].
  cbn [no_nul] in Hn. apply andb_true_iff in Hn as [Hc Hn].
  cbn [append skip_nonalpha]. rewrite Hc. cbn [andb].
  destruct (negb (isalpha (uchar c))); [apply IH, Hn | reflexivity].
Qed.

Lemma extract_word_app p1 rest : forall pos w n,
  ends_nonalpha p1 = true -> p1 <> EmptyString ->
  extract_word (p1 ++ rest) pos w n =
  ((fst (fst (extract_word p1 pos w n)) ++ rest)%string,
   snd (fst (extract_word p1 pos w n)), snd (extract_word p1 pos w n)).
Proof.
  induction p1 as [|c r IH]; intros pos w n He Hne; [congruence|].
  cbn [append extract_word].
  destruct (negb (uchar c =? 0) && isalpha (uchar c) && (n <? 255)%nat) eqn:E;
    [|reflexivity].
  destruct r as [|c' r'].
  - cbn [ends_nonalpha] in He.
    apply andb_true_iff in E as [E _]. apply andb_true_iff in E as [_ E].
    rewrite E in He. discriminate.
  - apply IH; [exact He | discriminate].
Qed.

Lemma tokens_loop_fuel f1 : forall f2 ptr pos,
  (String.length ptr < f1)%nat -> (String.length ptr < f2)%nat ->
  tokens_loop f1 ptr pos = tokens_loop f2 ptr pos.
Proof.
  induction f1 as [|f1 IH]; intros [|f2] ptr pos H1 H2; try lia.
  cbn [tokens_loop].
  destruct (deref ptr =? 0); [reflexivity|].
  pose proof (skip_nonalpha_length ptr pos) as Hl1.
  pose proof (skip_nonalpha_stops ptr pos) as Hs1.
  destruct (skip_nonalpha ptr pos) as [ptr1 pos1]. simpl in Hl1, Hs1.
  destruct (deref ptr1 =? 0) eqn:E1; [reflexivity|].
  apply Z.eqb_neq in E1.
  pose proof (extract_word_progress ptr1 pos1 E1 (Hs1 E1)) as Hl2.
  destruct (extract_word ptr1 pos1 "" 0) as [[ptr2 pos2] w]. simpl in Hl2.
  f_equal. apply IH; lia.
Qed.

(** Tokens never straddle a non-alphabetic byte: the tokens of a text cut
    after such a byte are those of the two parts. *)
Lemma tokens_loop_app f : forall pre rest pos,
  no_nul pre = true -> ends_nonalpha pre = true ->
  (String.length pre + String.length rest < f)%nat ->
  tokens_loop f (pre ++ rest) pos =
  (tokens_loop f pre pos ++
   tokens_loop f rest (advance pos (String.length pre)))%list.
Proof.
  induction f as [|f IH]; intros pre rest pos Hn He Hf; [lia|].
  destruct pre as [|c r]; [reflexivity|].
  remember (String c r) as pre eqn:Epre.
  assert (Hd : deref (pre ++ rest) = deref pre) by (subst pre; reflexivity).
  assert (Hlen : (1 <= String.length pre)%nat) by (subst pre; simpl; lia).
  remember (tokens_loop (S f) rest (advance pos (String.length pre))) as T eqn:ET.
  cbn [tokens_loop]. rewrite Hd.
  destruct (deref pre =? 0) eqn:E0.
  { subst pre. cbn [no_nul deref] in *. rewrite E0 in Hn. discriminate. }
  rewrite skip_nonalpha_app by exact Hn.
  pose proof (skip_nonalpha_length pre pos) as Hl1.
  pose proof (skip_nonalpha_stops pre pos) as Hs1.
  pose proof (skip_nonalpha_pos pre pos) as Hp1.
  destruct (skip_nonalpha_keeps pre pos) as [Hk1 Hk2].
  specialize (Hk1 Hn). specialize (Hk2 He).
  destruct (skip_nonalpha pre pos) as [p1 pos1]. cbn [fst snd] in *.
  destruct p1 as [|c1 r1].
  - cbn [deref]. change (0 =? 0) with true. cbn [app].
    rewrite Nat.sub_0_r in Hp1. subst pos1 T. cbn [tokens_loop].
    destruct (deref rest =? 0) eqn:Er.
    + apply Z.eqb_eq in Er. rewrite skip_nonalpha_at_end by exact Er.
      rewrite Er. reflexivity.
    + reflexivity.
  - remember (String c1 r1) as p1 eqn:Ep1.
    assert (Hd1 : deref (p1 ++ rest) = deref p1) by (subst p1; reflexivity).
    assert (Hne : p1 <> EmptyString) by (subst p1; discriminate).
    replace (match p1 with
             | EmptyString => skip_nonalpha rest pos1
             | String _ _ => ((p1 ++ rest)%string, pos1)
             end) with ((p1 ++ rest)%string, pos1) by (subst p1; reflexivity).
    rewrite Hd1. destruct (deref p1 =? 0) eqn:E1.
    { subst p1. cbn [no_nul deref] in *. rewrite E1 in Hk1. discriminate. }
    apply Z.eqb_neq in E1.
    rewrite extract_word_app by assumption.
    pose proof (extract_word_progress p1 pos1 E1 (Hs1 E1)) as Hl2.
    pose proof (extract_word_pos p1 pos1 "" 0) as Hp2.
    destruct (extract_word_keeps p1 pos1 "" 0) as [Hk3 Hk4].
    specialize (Hk3 Hk1). specialize (Hk4 Hk2).
    destruct (extract_word p1 pos1 "" 0) as [[p2 pos2] w]. cbn [fst snd] in *.
    rewrite <- app_comm_cons. f_equal.
    rewrite IH by (assumption || lia).
    f_equal. subst T.
    rewrite (tokens_loop_fuel f (S f)) by lia.
    f_equal. subst pos2 pos1. rewrite !advance_add. f_equal. lia.
Qed.

Lemma string_app_nil_r (a : string) : (a ++ "")%string = a.
Proof. induction a as [|c r IH]; simpl; [reflexivity | rewrite IH; reflexivity]. Qed.

Lemma isalpha_nonzero c : isalpha c = true -> (c =? 0) = false.
Proof.
  intros H. destruct (c =? 0) eqn:E; [|reflexivity].
  apply Z.eqb_eq in E. subst c. discriminate H.
Qed.

Lemma all_alpha_no_nul s : all_alpha s = true -> no_nul s = true.
Proof.
  induction s as [|c r IH]; simpl; [reflexivity|].
  intros H. apply andb_true_iff in H as [Hc Hr].
  rewrite (isalpha_nonzero _ Hc). simpl. auto.
Qed.

Lemma strcpy_no_nul s : no_nul s = true -> strcpy s = s.
Proof.
  induction s as [|c r IH]; simpl; [reflexivity|].
  intros H. apply andb_true_iff in H as [Hc Hr].
  destruct (uchar c =? 0); [discriminate|]. rewrite IH by exact Hr. reflexivity.
Qed.

Lemma all_alpha_str_take n : forall s,
  all_alpha s = true -> all_alpha (str_take n s) = true.
Proof.
  induction n as [|n IH]; intros [|c r]; simpl; try reflexivity.
  intros H. apply andb_true_iff in H as [Hc Hr].
  rewrite Hc. simpl. auto.
Qed.

Lemma all_alpha_str_drop n : forall s,
  all_alpha s = true -> all_alpha (str_drop n s) = true.
Proof.
  induction n as [|n IH]; intros [|c r]; simpl; try reflexivity; [auto|].
  intros H. apply andb_true_iff in H as [Hc Hr]. auto.
Qed.

Lemma length_str_drop n : forall s,
  String.length (str_drop n s) = (String.length s - n)%nat.
Proof.
  induction n as [|n IH]; intros [|c r]; simpl; try reflexivity. apply IH.
Qed.

(** On an alphabetic run followed by a non-alphabetic byte the extraction
    loop stops at the end of the run or when the buffer is full, whichever
    comes first. *)
Lemma extract_word_run run post : forall pos w n,
  all_alpha run = true -> isalpha (deref post) = false -> (n <= 255)%nat ->
  extract_word (run ++ post) pos w n =
  ((str_drop (255 - n) run ++ post)%string,
   advance pos (Nat.min (255 - n) (String.length run)),
   (w ++ str_take (255 - n) run)%string).
Proof.
  induction run as [|c r IH]; intros pos w n Ha Hp Hn.
  - cbn [append String.length]. rewrite Nat.min_0_r.
    replace (str_drop (255 - n) "") with "" by (destruct (255 - n)%nat; reflexivity).
    replace (str_take (255 - n) "") with "" by (destruct (255 - n)%nat; reflexivity).
    rewrite string_app_nil_r. cbn [append advance Nat.iter].
    destruct post as [|c r]; [reflexivity|].
    cbn [extract_word]. cbn [deref] in Hp. rewrite Hp.
    rewrite andb_false_r. reflexivity.
  - cbn [all_alpha] in Ha. apply andb_true_iff in Ha as [Hc Hr].
    cbn [append extract_word]. rewrite Hc, (isalpha_nonzero _ Hc). cbn [negb andb].
    destruct (n <? 255)%nat eqn:E.
    + apply Nat.ltb_lt in E. rewrite IH by (assumption || lia).
      replace (255 - n)%nat with (S (255 - S n)) by lia.
      cbn [str_drop str_take String.length].
      rewrite string_app_assoc. cbn [append].
      rewrite advance_incr, <- Nat.succ_min_distr. reflexivity.
    + apply Nat.ltb_ge in E. replace (255 - n)%nat with O by lia.
      cbn [str_drop str_take Nat.min advance Nat.iter].
      rewrite string_app_nil_r. reflexivity.
Qed.

Lemma tokens_loop_run f run post pos :
  all_alpha run = true -> run <> EmptyString -> isalpha (deref post) = false ->
  tokens_loop (S f) (run ++ post) pos =
  mkMisspelledWord (str_take 255 run) pos
    (advance pos (Nat.min 255 (String.length run)))
  :: tokens_loop f (str_drop 255 run ++ post)
       (advance pos (Nat.min 255 (String.length run))).
Proof.
  intros Ha Hne Hp. destruct run as [|c r]; [congruence|].
  remember (String c r) as run eqn:Erun.
  assert (Hc : isalpha (uchar c) = true).
  { subst run. cbn [all_alpha] in Ha. apply andb_true_iff in Ha. tauto. }
  assert (Hd : deref (run ++ post) = uchar c) by (subst run; reflexivity).
  assert (Hs : skip_nonalpha (run ++ post) pos = ((run ++ post)%string, pos)).
  { subst run. cbn [append skip_nonalpha]. rewrite Hc. cbn [negb].
    rewrite andb_false_r. reflexivity. }
  cbn [tokens_loop]. rewrite Hd, (isalpha_nonzero _ Hc), Hs, Hd,
    (isalpha_nonzero _ Hc).
  rewrite (extract_word_run run post pos "" 0) by (assumption || lia).
  cbn [append]. rewrite Nat.sub_0_r.
  rewrite strcpy_no_nul by (apply all_alpha_no_nul, all_alpha_str_take, Ha).
  reflexivity.
Qed.

(** C2 (amended). A maximal alphabetic run longer than 255 bytes is cut into
    consecutive tokens of at most 255 bytes.  The first token holds the first
    255 bytes of the run and its interval ends 255 bytes after the start of
    the run, before the end of the run; the next token starts there and holds
    the next bytes of the run, up to 255 of them.  The check records the
    misspelled ones among the tokens.  (Text positions fit a [DWORD], no NUL
    byte precedes the run, checking is enabled, allocations succeed.) *)
Theorem long_run_is_split (s : SpellChecker) (pre run post : string) (h : heap) :
  enabled s = true -> allocs_succeed h ->
  no_nul pre = true -> ends_nonalpha pre = true ->
  all_alpha run = true -> (255 < String.length run)%nat ->
  isalpha (deref post) = false ->
  Z.of_nat (String.length pre + String.length run) < 2 ^ 32 ->
  let text := (pre ++ run ++ post)%string in
  let start := Z.of_nat (String.length pre) in
  exists s' h' more,
    SpellChecker_Check (Some s) (Some text) h = (Some s', h') /\
    m_words (misspelled s') =
      filter (fun m => is_misspelled s m = true) (tokenize text) /\
    tokenize text =
      (tokenize pre ++
       mkMisspelledWord (str_take 255 run) start (start + 255) ::
       mkMisspelledWord (str_take 255 (str_drop 255 run)) (start + 255)
         (start + 255 + Z.of_nat (Nat.min 255 (String.length run - 255))) ::
       more)%list.
Proof.
  intros He Hh Hn Hen Ha Hlen Hp Hw text start.
  destruct (Check_records s text h He Hh) as (s' & h' & E & _ & Hm).
  set (run2 := str_drop 255 run).
  assert (Hl2 : String.length run2 = (String.length run - 255)%nat)
    by apply length_str_drop.
  assert (Ha2 : all_alpha run2 = true) by apply all_alpha_str_drop, Ha.
  assert (Hne : run <> EmptyString) by (intros ->; simpl in Hlen; lia).
  assert (Hne2 : run2 <> EmptyString).
  { intros E2. rewrite E2 in Hl2. simpl in Hl2. lia. }
  assert (Ht : String.length text =
               (String.length pre + (String.length run + String.length post))%nat).
  { unfold text. rewrite !string_length_app. reflexivity. }
  exists s', h'.
  exists (tokens_loop (String.length text - 1)
            (str_drop 255 run2 ++ post)
            (advance (advance (advance 0 (String.length pre))
                        (Nat.min 255 (String.length run)))
               (Nat.min 255 (String.length run2)))).
  split; [exact E|]. split; [exact Hm|].
  unfold tokenize at 1. unfold text at 2.
  rewrite tokens_loop_app by (assumption || rewrite string_length_app; lia).
  rewrite (tokens_loop_fuel _ (S (String.length pre)) pre) by lia.
  fold (tokenize pre). f_equal.
  rewrite tokens_loop_run by assumption.
  replace (String.length text) with (S (String.length text - 1)) at 1 by lia.
  fold run2. rewrite tokens_loop_run by assumption.
  rewrite Nat.min_l by lia.
  rewrite (advance_nowrap 0 (String.length pre)) by lia.
  rewrite (advance_nowrap _ 255) by lia.
  rewrite (advance_nowrap _ (Nat.min 255 (String.length run2))) by lia.
  rewrite Hl2. reflexivity.
Qed.

Lemma long_run_is_split_witness :
  exists s' h' more,
    SpellChecker_Check (Some sc_fresh)
      (Some ("ab, " ++ repeat_char 300 "x" ++ ".")%string) [] = (Some s', h') /\
    m_words (misspelled s') =
      filter (fun m => is_misspelled sc_fresh m = true)
        (tokenize ("ab, " ++ repeat_char 300 "x" ++ ".")%string) /\
    tokenize ("ab, " ++ repeat_char 300 "x" ++ ".")%string =
      (tokenize "ab, " ++
       mkMisspelledWord (str_take 255 (repeat_char 300 "x")) 4 (4 + 255) ::
       mkMisspelledWord (str_take 255 (str_drop 255 (repeat_char 300 "x")))
         (4 + 255)
         (4 + 255 +
          Z.of_nat (Nat.min 255 (String.length (repeat_char 300 "x") - 255))) ::
       more)%list.
Proof.
  apply (long_run_is_split sc_fresh "ab, " (repeat_char 300 "x") "." []).
  - reflexivity.
  - constructor.
  - reflexivity.
  - reflexivity.
  - vm_compute. reflexivity.
  - vm_compute. lia.
  - reflexivity.
  - vm_compute. reflexivity.
Defined.

(** ** Loading: the loops *)

Lemma fgets_read_length room : forall input,
  (String.length (snd (fgets_read room input)) <= String.length input)%nat.
Proof.
  induction room as [|room IH]; intros [|c r]; simpl; try lia.
  destruct (uchar c =? 10); simpl; [lia|].
  specialize (IH r). destruct (fgets_read room r). simpl in *. lia.
Qed.

Lemma fgets_read_progress room c r :
  (String.length (snd (fgets_read (S room) (String c r))) < String.length (String c r))%nat.
Proof.
  cbn [fgets_read]. pose proof (fgets_read_length room r) as Hl.
  destruct (uchar c =? 10); [simpl; lia|].
  destruct (fgets_read room r) as [l r']. simpl in *. lia.
Qed.

Lemma fgets_progress file line rest :
  fgets 256 file = Some (line, rest) ->
  (String.length rest < String.length file)%nat.
Proof.
  destruct file as [|c r]; [discriminate|].
  intros H.
  apply (f_equal (fun o : option (string * string) =>
                    match o with Some p => snd p | None => rest end)) in H.
  unfold fgets in H. cbv beta iota in H. cbn [snd] in H. rewrite <- H.
  exact (fgets_read_progress 254 c r).
Qed.

Lemma Dictionary_push_extend d e h :
  allocs_succeed h ->
  exists h', Dictionary_push d e h = (true, Dictionary_extend d [strcpy e], h') /\
             allocs_succeed h'.
Proof.
  intros H. unfold Dictionary_push, Dictionary_grow, Dictionary_extend.
  cbn [fold_left].
  destruct (capacity d <=? count d).
  - destruct (alloc_succeeds h H) as (h1 & -> & H1). cbn [negb].
    destruct (alloc_succeeds h1 H1) as (h2 & -> & H2). cbn [negb]. eauto.
  - cbn [negb]. destruct (alloc_succeeds h H) as (h1 & -> & H1). cbn [negb].
    eauto.
Qed.

Lemma Dictionary_extend_app d l1 l2 :
  Dictionary_extend d (l1 ++ l2) = Dictionary_extend (Dictionary_extend d l1) l2.
Proof. apply fold_left_app. Qed.

Lemma Dictionary_extend_words es : forall d,
  words (Dictionary_extend d es) = (words d ++ es)%list.
Proof.
  induction es as [|e es IH]; intros d; [simpl; rewrite app_nil_r; reflexivity|].
  change (Dictionary_extend d (e :: es)) with
    (Dictionary_extend (Dictionary_extend d [e]) es).
  rewrite IH. unfold Dictionary_extend at 1. cbn [fold_left words].
  rewrite <- app_assoc. reflexivity.
Qed.

Lemma LoadDictionary_loop_entries fuel : forall d file h,
  (String.length file < fuel)%nat -> allocs_succeed h ->
  exists h',
    LoadDictionary_loop fuel d file h =
      Some (true, Dictionary_extend d (file_entries true fuel file), h') /\
    allocs_succeed h'.
Proof.
  induction fuel as [|fuel IH]; intros d file h Hf Hh; [lia|].
  cbn [LoadDictionary_loop file_entries].
  destruct (fgets 256 file) as [[line rest]|] eqn:Eg; [|exists h; auto].
  apply fgets_progress in Eg. unfold line_entry. cbn [andb].
  destruct ((trim_trailing line (strlen line) =? 0)%nat
            || (char_at (trimmed line) 0 =? 35)).
  - apply IH; [lia | exact Hh].
  - destruct (Dictionary_push_extend d (trimmed line) h Hh) as (h1 & -> & Hh1).
    cbn [negb].
    destruct (IH (Dictionary_extend d [strcpy (trimmed line)]) rest h1
                ltac:(lia) Hh1) as (h' & -> & Hh').
    exists h'. split; [|exact Hh'].
    rewrite <- Dictionary_extend_app. reflexivity.
Qed.

Lemma LoadUserDictionary_loop_entries fuel : forall d file h,
  (String.length file < fuel)%nat -> allocs_succeed h ->
  exists h',
    LoadUserDictionary_loop fuel d file h =
      Some (true, Dictionary_extend d (file_entries false fuel file), h') /\
    allocs_succeed h'.
Proof.
  induction fuel as [|fuel IH]; intros d file h Hf Hh; [lia|].
  cbn [LoadUserDictionary_loop file_entries].
  destruct (fgets 256 file) as [[line rest]|] eqn:Eg; [|exists h; auto].
  apply fgets_progress in Eg. unfold line_entry. cbn [andb].
  rewrite orb_false_r.
  destruct (trim_trailing line (strlen line) =? 0)%nat.
  - apply IH; [lia | exact Hh].
  - destruct (Dictionary_push_extend d (trimmed line) h Hh) as (h1 & -> & Hh1).
    cbn [negb].
    destruct (IH (Dictionary_extend d [strcpy (trimmed line)]) rest h1
                ltac:(lia) Hh1) as (h' & -> & Hh').
    exists h'. split; [|exact Hh'].
    rewrite <- Dictionary_extend_app. reflexivity.
Qed.

(** A load from a readable file, allocations succeeding. *)
Lemma LoadDictionary_readable fs s path file h :
  fs path = Some file -> allocs_succeed h ->
  exists h',
    SpellChecker_LoadDictionary fs (Some s) (Some path) h =
      (0 <? count (Dictionary_sort (Dictionary_extend (mainDictionary s)
                     (file_entries true (S (String.length file)) file))),
       Some (set_mainDictionary s
               (Dictionary_sort (Dictionary_extend (mainDictionary s)
                  (file_entries true (S (String.length file)) file)))), h') /\
    allocs_succeed h'.
Proof.
  intros Hfs Hh. unfold SpellChecker_LoadDictionary. rewrite Hfs.
  destruct (LoadDictionary_loop_entries (S (String.length file))
              (mainDictionary s) file h ltac:(lia) Hh) as (h' & -> & Hh').
  exists h'. auto.
Qed.

Lemma LoadUserDictionary_readable fs s path file h :
  fs path = Some file -> allocs_succeed h ->
  exists h',
    SpellChecker_LoadUserDictionary fs (Some s) (Some path) h =
      (true,
       Some (set_userDictionary s
               (Dictionary_sort (Dictionary_extend (userDictionary s)
                  (file_entries false (S (String.length file)) file)))), h') /\
    allocs_succeed h'.
Proof.
  intros Hfs Hh. unfold SpellChecker_LoadUserDictionary. rewrite Hfs.
  destruct (LoadUserDictionary_loop_entries (S (String.length file))
              (userDictionary s) file h ltac:(lia) Hh) as (h' & -> & Hh').
  exists h'. auto.
Qed.

(** ** Loading: results *)

(** A readable file that holds no word (here a single comment line) makes
    the required load report failure although every allocation succeeds. *)
Lemma LoadDictionary_readable_yet_fails :
  one_file "# no words yet" "words.txt" = Some "# no words yet" /\
  allocs_succeed [] /\
  SpellChecker_LoadDictionary (one_file "# no words yet") (Some sc_fresh)
    (Some "words.txt") [] = (false, Some sc_fresh, []).
Proof. split; [reflexivity|]. split; [constructor|]. vm_compute. reflexivity. Qed.

(** X1. When the file cannot be opened the required load reports failure
    and the optional load reports success, both leaving the engine as it was
    (no entry added).  When the file can be opened and all allocations
    succeed, the required load reports success exactly when the main
    dictionary holds at least one word afterwards. *)
Theorem Load_results (fs : filesystem) (s : SpellChecker) (path : string)
    (h : heap) :
  (fs path = None ->
   SpellChecker_LoadDictionary fs (Some s) (Some path) h = (false, Some s, h) /\
   SpellChecker_LoadUserDictionary fs (Some s) (Some path) h = (true, Some s, h)) /\
  (forall file, fs path = Some file -> allocs_succeed h ->
   exists ok s' h',
     SpellChecker_LoadDictionary fs (Some s) (Some path) h = (ok, Some s', h') /\
     (ok = true <-> words (mainDictionary s') <> [])).
Proof.
  split.
  - intros Hfs. unfold SpellChecker_LoadDictionary, SpellChecker_LoadUserDictionary.
    rewrite Hfs. split; reflexivity.
  - intros file Hfs Hh.
    destruct (LoadDictionary_readable fs s path file h Hfs Hh) as (h' & E & _).
    eexists _, _, h'. split; [exact E|].
    cbn [mainDictionary set_mainDictionary]. unfold count.
    rewrite Z.ltb_lt. destruct (words _); simpl; split; intros; try lia; congruence.
Qed.

Lemma Load_results_witness :
  (one_file "hello" "nowhere.txt" = None ->
   SpellChecker_LoadDictionary (one_file "hello") (Some sc_fresh)
     (Some "nowhere.txt") [] = (false, Some sc_fresh, []) /\
   SpellChecker_LoadUserDictionary (one_file "hello") (Some sc_fresh)
     (Some "nowhere.txt") [] = (true, Some sc_fresh, [])) /\
  (exists ok s' h',
     SpellChecker_LoadDictionary (one_file "hello") (Some sc_fresh)
       (Some "words.txt") [] = (ok, Some s', h') /\
     (ok = true <-> words (mainDictionary s') <> [])).
Proof.
  split.
  - exact (proj1 (Load_results (one_file "hello") sc_fresh "nowhere.txt" [])).
  - apply (proj2 (Load_results (one_file "hello") sc_fresh "words.txt" [])
             "hello"); [reflexivity | constructor].
Defined.

(** ** Loading: lines *)

Lemma file_entries_fuel sk f1 : forall f2 file,
  (String.length file < f1)%nat -> (String.length file < f2)%nat ->
  file_entries sk f1 file = file_entries sk f2 file.
Proof.
  induction f1 as [|f1 IH]; intros [|f2] file H1 H2; try lia.
  cbn [file_entries].
  destruct (fgets 256 file) as [[line rest]|] eqn:Eg; [|reflexivity].
  apply fgets_progress in Eg. f_equal. apply IH; lia.
Qed.

Lemma fgets_read_app room : forall pre rest,
  ends_newline pre = true -> pre <> EmptyString ->
  fgets_read room (pre ++ rest) =
  (fst (fgets_read room pre), (snd (fgets_read room pre) ++ rest)%string).
Proof.
  induction room as [|room IH]; intros pre rest He Hne;
    (destruct pre as [|c p]; [congruence|]); [reflexivity|].
  cbn [append fgets_read].
  destruct (uchar c =? 10) eqn:Ec; [reflexivity|].
  destruct p as [|c' p'].
  - cbn [ends_newline] in He. congruence.
  - rewrite (IH (String c' p') rest He ltac:(discriminate)).
    destruct (fgets_read room (String c' p')). reflexivity.
Qed.

Lemma fgets_read_ends_newline room : forall pre,
  ends_newline pre = true -> ends_newline (snd (fgets_read room pre)) = true.
Proof.
  induction room as [|room IH]; intros pre He; [destruct pre; exact He|].
  destruct pre as [|c p]; [reflexivity|].
  cbn [fgets_read].
  destruct (uchar c =? 10) eqn:Ec.
  - cbn [snd]. destruct p; [reflexivity | exact He].
  - destruct p as [|c' p'].
    + cbn [ends_newline] in He. congruence.
    + specialize (IH (String c' p') He).
      destruct (fgets_read room (String c' p')). exact IH.
Qed.

(** [fgets] never reads past a newline: the entries of a file cut after a
    newline are those of the two parts. *)
Lemma file_entries_app sk f : forall pre rest,
  ends_newline pre = true ->
  (String.length pre + String.length rest < f)%nat ->
  file_entries sk f (pre ++ rest) =
  (file_entries sk f pre ++ file_entries sk f rest)%list.
Proof.
  induction f as [|f IH]; intros pre rest He Hf; [lia|].
  destruct pre as [|c p]; [reflexivity|].
  remember (String c p) as pre eqn:Epre.
  assert (Hne : pre <> EmptyString) by (subst pre; discriminate).
  assert (Hg : forall X, fgets 256 (pre ++ X) = Some (fgets_read 255 (pre ++ X)))
    by (intros X; subst pre; reflexivity).
  remember (file_entries sk (S f) rest) as T eqn:ET.
  cbn [file_entries]. rewrite Hg.
  specialize (Hg ""). rewrite string_app_nil_r in Hg. rewrite Hg.
  rewrite fgets_read_app by assumption.
  pose proof (fgets_read_ends_newline 255 pre He) as He'.
  assert (Hl : (String.length (snd (fgets_read 255 pre)) < String.length pre)%nat).
  { subst pre. exact (fgets_read_progress 254 c p). }
  destruct (fgets_read 255 pre) as [l r]. cbn [fst snd] in *.
  rewrite <- app_assoc. f_equal.
  rewrite IH by (assumption || lia). f_equal.
  subst T. apply file_entries_fuel; lia.
Qed.

Lemma strlen_no_nul s : no_nul s = true -> strlen s = String.length s.
Proof.
  induction s as [|c r IH]; simpl; [reflexivity|].
  intros H. apply andb_true_iff in H as [Hc Hr].
  destruct (uchar c =? 0); [discriminate|]. rewrite IH by exact Hr. reflexivity.
Qed.

Lemma no_nul_app a b : no_nul (a ++ b) = no_nul a && no_nul b.
Proof.
  induction a as [|c r IH]; simpl; [reflexivity|].
  rewrite IH, andb_assoc. reflexivity.
Qed.

Lemma char_at_app_l a : forall b i,
  (i < String.length a)%nat -> char_at (a ++ b) i = char_at a i.
Proof.
  induction a as [|c r IH]; intros b i Hi; simpl in Hi; [lia|].
  destruct i as [|i]; [reflexivity|].
  unfold char_at in *. cbn [append String.get]. apply IH. lia.
Qed.

Lemma char_at_app_here a c b : char_at (a ++ String c b) (String.length a) = uchar c.
Proof.
  induction a as [|x r IH]; [reflexivity|].
  unfold char_at in *. cbn [append String.length String.get]. exact IH.
Qed.

Lemma trim_trailing_le line k : (trim_trailing line k <= k)%nat.
Proof.
  induction k as [|k IH]; simpl; [lia|].
  destruct (isspace (char_at line k)); lia.
Qed.

Lemma trim_trailing_app a b k :
  (k <= String.length a)%nat -> trim_trailing (a ++ b) k = trim_trailing a k.
Proof.
  induction k as [|k IH]; intros Hk; [reflexivity|].
  cbn [trim_trailing]. rewrite char_at_app_l by lia.
  destruct (isspace (char_at a k)); [apply IH; lia | reflexivity].
Qed.

Lemma substring_app_l a : forall b k,
  (k <= String.length a)%nat -> substring 0 k (a ++ b) = substring 0 k a.
Proof.
  induction a as [|c r IH]; intros b k Hk; simpl in Hk.
  - replace k with O by lia. destruct b; reflexivity.
  - destruct k as [|k]; [reflexivity|].
    cbn [append substring]. rewrite IH by lia. reflexivity.
Qed.

Lemma no_nul_substring a : forall k,
  no_nul a = true -> no_nul (substring 0 k a) = true.
Proof.
  induction a as [|c r IH]; intros k Hn; [destruct k; reflexivity|].
  cbn [no_nul] in Hn. apply andb_true_iff in Hn as [Hc Hr].
  destruct k as [|k]; [reflexivity|].
  cbn [substring no_nul]. rewrite Hc. simpl. auto.
Qed.

(** The newline that ends a line is trimmed with the rest of the trailing
    white space. *)
Lemma line_entry_newline sk line :
  no_nul line = true -> line_entry sk (line ++ newline) = line_entry sk line.
Proof.
  intros Hn.
  assert (Hn' : no_nul (line ++ newline) = true)
    by (rewrite no_nul_app, Hn; reflexivity).
  assert (Ht : trim_trailing (line ++ newline) (strlen (line ++ newline)) =
               trim_trailing line (strlen line)).
  { rewrite !strlen_no_nul by assumption.
    rewrite string_length_app. change (String.length newline) with 1%nat.
    rewrite Nat.add_1_r. cbn [trim_trailing].
    unfold newline at 1. rewrite char_at_app_here.
    change (isspace (uchar "010")) with true. cbv iota.
    apply trim_trailing_app. lia. }
  unfold line_entry, trimmed. rewrite Ht.
  rewrite substring_app_l; [reflexivity|].
  rewrite strlen_no_nul by assumption. apply trim_trailing_le.
Qed.

Lemma fgets_nonempty s :
  s <> EmptyString -> fgets 256 s = Some (fgets_read 255 s).
Proof. destruct s; [congruence | reflexivity]. Qed.

Lemma fgets_read_line room : forall line post,
  no_newline line = true -> (String.length line < room)%nat ->
  fgets_read room (line ++ newline ++ post) = ((line ++ newline)%string, post).
Proof.
  induction room as [|room IH]; intros line post Hn Hl; [lia|].
  destruct line as [|c r]; [reflexivity|].
  cbn [no_newline] in Hn. apply andb_true_iff in Hn as [Hc Hr].
  cbn [append fgets_read]. destruct (uchar c =? 10); [discriminate|].
  simpl in Hl. change (r ++ String "010" post)%string with (r ++ newline ++ post)%string.
  rewrite IH by (assumption || lia). reflexivity.
Qed.

Lemma fgets_read_full room : forall line rest,
  no_newline line = true -> String.length line = room ->
  fgets_read room (line ++ rest) = (line, rest).
Proof.
  induction room as [|room IH]; intros line rest Hn Hl.
  - destruct line; [reflexivity | discriminate].
  - destruct line as [|c r]; [discriminate|].
    cbn [no_newline] in Hn. apply andb_true_iff in Hn as [Hc Hr].
    cbn [append fgets_read]. destruct (uchar c =? 10); [discriminate|].
    simpl in Hl. rewrite IH by (assumption || lia). reflexivity.
Qed.

Lemma fgets_read_eof room : forall line,
  no_newline line = true -> (String.length line <= room)%nat ->
  fgets_read room line = (line, EmptyString).
Proof.
  induction room as [|room IH]; intros line Hn Hl.
  - destruct line; [reflexivity | simpl in Hl; lia].
  - destruct line as [|c r]; [reflexivity|].
    cbn [no_newline] in Hn. apply andb_true_iff in Hn as [Hc Hr].
    cbn [fgets_read]. destruct (uchar c =? 10); [discriminate|].
    simpl in Hl. rewrite IH by (assumption || lia). reflexivity.
Qed.

(** A line that fits the buffer contributes what its text contributes,
    whether a newline ends it or the file ends with it. *)
Lemma file_entries_line sk f line post (nl : bool) :
  no_nul line = true -> no_newline line = true ->
  (String.length line <= 255)%nat -> (nl = false -> post = EmptyString) ->
  (String.length (line ++ (if nl then newline else "") ++ post) < f)%nat ->
  file_entries sk f (line ++ (if nl then newline else "") ++ post) =
  (line_entry sk line ++ file_entries sk f post)%list.
Proof.
  intros Hn Hnl Hl Hpost Hf. destruct nl.
  - rewrite string_length_app in Hf. cbn [append String.length newline] in Hf.
    destruct f as [|f]; [lia|].
    remember (file_entries sk (S f) post) as T eqn:ET.
    cbn [file_entries]. rewrite fgets_nonempty by (destruct line; discriminate).
    destruct (Nat.eq_dec (String.length line) 255%nat) as [E|E].
    + rewrite fgets_read_full by assumption. f_equal.
      destruct f as [|f]; [lia|].
      cbn [file_entries]. rewrite fgets_nonempty by discriminate.
      change (fgets_read 255 (newline ++ post))
        with (fgets_read 255 ("" ++ newline ++ post)).
      rewrite (fgets_read_line 255%nat "" post) by (reflexivity || simpl; lia).
      change (line_entry sk ("" ++ newline)) with (@nil string). cbn [app].
      subst T. apply file_entries_fuel; lia.
    + rewrite fgets_read_line by (assumption || lia).
      rewrite line_entry_newline by assumption. f_equal.
      subst T. apply file_entries_fuel; lia.
  - rewrite (Hpost eq_refl) in *. cbn [append]. rewrite string_app_nil_r in *.
    destruct f as [|f]; [lia|]. cbn [file_entries].
    destruct line as [|c r]; [reflexivity|].
    rewrite fgets_nonempty by discriminate.
    rewrite fgets_read_eof by assumption.
    destruct f as [|f]; [simpl in Hf; lia|]. cbn [file_entries fgets].
    reflexivity.
Qed.

Lemma trim_trailing_first line : forall k,
  isspace (char_at line 0) = false -> (1 <= k)%nat ->
  (1 <= trim_trailing line k)%nat.
Proof.
  induction k as [|k IH]; intros Hs Hk; [lia|].
  cbn [trim_trailing]. destruct (isspace (char_at line k)) eqn:E; [|lia].
  destruct k as [|k]; [congruence|]. apply IH; [exact Hs | lia].
Qed.

(** A line starting with '#': nothing for the main dictionary, the trimmed
    line for the user dictionary. *)
Lemma comment_line_entry line :
  deref line = 35 -> no_nul line = true ->
  line_entry true line = [] /\ line_entry false line = [trimmed line].
Proof.
  intros Hd Hn. destruct line as [|c r]; [discriminate|]. cbn [deref] in Hd.
  assert (H0 : char_at (String c r) 0 = 35) by exact Hd.
  assert (Hk : (1 <= trim_trailing (String c r) (strlen (String c r)))%nat).
  { apply trim_trailing_first; [rewrite H0; reflexivity|].
    rewrite strlen_no_nul by exact Hn. simpl. lia. }
  assert (Hc : char_at (trimmed (String c r)) 0 = 35).
  { unfold trimmed.
    destruct (trim_trailing (String c r) (strlen (String c r))); [lia|].
    exact Hd. }
  unfold line_entry. rewrite Hc.
  destruct (trim_trailing (String c r) (strlen (String c r)) =? 0)%nat eqn:E;
    [apply Nat.eqb_eq in E; lia|].
  split; [reflexivity|]. cbn [orb andb].
  rewrite strcpy_no_nul; [reflexivity|].
  apply no_nul_substring, Hn.
Qed.

Lemma file_entries_around sk pre line post (nl : bool) :
  ends_newline pre = true -> no_nul line = true -> no_newline line = true ->
  (String.length line <= 255)%nat -> (nl = false -> post = EmptyString) ->
  let eol := if nl then newline else EmptyString in
  file_entries sk (S (String.length (pre ++ line ++ eol ++ post)))
    (pre ++ line ++ eol ++ post) =
  (file_entries sk (S (String.length pre)) pre ++ line_entry sk line ++
   file_entries sk (S (String.length post)) post)%list /\
  file_entries sk (S (String.length (pre ++ post))) (pre ++ post) =
  (file_entries sk (S (String.length pre)) pre ++
   file_entries sk (S (String.length post)) post)%list.
Proof.
  intros He Hn Hnl Hl Hpost eol. subst eol. split.
  - rewrite file_entries_app by (assumption || rewrite !string_length_app; lia).
    rewrite file_entries_line
      by (assumption || rewrite !string_length_app in *; lia).
    rewrite (file_entries_fuel sk _ (S (String.length pre)) pre)
      by (rewrite ?string_length_app; lia).
    rewrite (file_entries_fuel sk _ (S (String.length post)) post)
      by (rewrite ?string_length_app; lia).
    reflexivity.
  - rewrite file_entries_app by (assumption || rewrite !string_length_app; lia).
    rewrite (file_entries_fuel sk _ (S (String.length pre)) pre)
      by (rewrite ?string_length_app; lia).
    rewrite (file_entries_fuel sk _ (S (String.length post)) post)
      by (rewrite ?string_length_app; lia).
    reflexivity.
Qed.

(** A line longer than the 255 bytes [fgets] reads at a time is read in
    pieces: of a comment line of 256 bytes the main dictionary keeps the last
    byte as a word, and the user dictionary gets two entries, neither of them
    the line. *)
Lemma long_comment_line_not_skipped :
  deref ("#" ++ repeat_char 255 "a") = 35 /\
  words (main_of (snd (fst
    (SpellChecker_LoadDictionary
       (one_file ("#" ++ repeat_char 255 "a" ++ newline))
       (Some sc_fresh) (Some "words.txt") [])))) = ["a"] /\
  words (user_of (snd (fst
    (SpellChecker_LoadUserDictionary
       (one_file ("#" ++ repeat_char 255 "a" ++ newline))
       (Some sc_fresh) (Some "words.txt") [])))) =
    [("#" ++ repeat_char 254 "a")%string; "a"].
Proof. vm_compute. repeat split. Qed.

(** X2. Take a line of at most 255 bytes that starts with '#' and holds no
    NUL byte, at the start of a file or after a newline, ended by a
    newline or by the end of the file.  With allocations succeeding, loading
    the file as the main dictionary gives the same result and the same engine
    as loading the file without the line; loading it as the user dictionary
    gives the entries of the file without the line plus one entry, the line
    with its trailing white space trimmed. *)
Theorem comment_line_asymmetry (s : SpellChecker) (pre line post : string)
    (nl : bool) (h : heap) :
  ends_newline pre = true -> deref line = 35 ->
  no_nul line = true -> no_newline line = true ->
  (String.length line <= 255)%nat -> (nl = false -> post = EmptyString) ->
  allocs_succeed h ->
  let eol := if nl then newline else EmptyString in
  let with_line := one_file (pre ++ line ++ eol ++ post) in
  let without := one_file (pre ++ post) in
  (exists ok s' h1 h2,
     SpellChecker_LoadDictionary with_line (Some s) (Some "words.txt") h =
       (ok, Some s', h1) /\
     SpellChecker_LoadDictionary without (Some s) (Some "words.txt") h =
       (ok, Some s', h2)) /\
  (exists s1 s2 h1 h2,
     SpellChecker_LoadUserDictionary with_line (Some s) (Some "words.txt") h =
       (true, Some s1, h1) /\
     SpellChecker_LoadUserDictionary without (Some s) (Some "words.txt") h =
       (true, Some s2, h2) /\
     Permutation (words (userDictionary s1))
       (trimmed line :: words (userDictionary s2))).
Proof.
  intros He Hd Hn Hnl Hl Hpost Hh eol with_line without.
  subst eol with_line without.
  set (full := (pre ++ line ++ (if nl then newline else "") ++ post)%string).
  destruct (comment_line_entry line Hd Hn) as [Em Eu].
  split.
  - destruct (file_entries_around true pre line post nl He Hn Hnl Hl Hpost)
      as [E1 E2].
    fold full in E1.
    destruct (LoadDictionary_readable (one_file full) s "words.txt" full h
                eq_refl Hh) as (h1 & L1 & _).
    destruct (LoadDictionary_readable (one_file (pre ++ post)) s "words.txt"
                (pre ++ post) h eq_refl Hh) as (h2 & L2 & _).
    rewrite E1, Em in L1. rewrite E2 in L2. cbn [app] in L1.
    eexists _, _, h1, h2. split; [exact L1 | exact L2].
  - destruct (file_entries_around false pre line post nl He Hn Hnl Hl Hpost)
      as [E1 E2].
    fold full in E1.
    destruct (LoadUserDictionary_readable (one_file full) s "words.txt" full h
                eq_refl Hh) as (h1 & L1 & _).
    destruct (LoadUserDictionary_readable (one_file (pre ++ post)) s "words.txt"
                (pre ++ post) h eq_refl Hh) as (h2 & L2 & _).
    rewrite E1, Eu in L1. rewrite E2 in L2.
    eexists _, _, h1, h2. split; [exact L1|]. split; [exact L2|].
    cbn [userDictionary set_userDictionary].
    rewrite !Dictionary_sort_perm, !Dictionary_extend_words.
    cbn [app]. rewrite !app_assoc. symmetry. apply Permutation_middle.
Qed.

Lemma comment_line_asymmetry_witness :
  (exists ok s' h1 h2,
     SpellChecker_LoadDictionary
       (one_file ("hello" ++ newline ++ "# colour  " ++ newline ++ "world"))
       (Some sc_fresh) (Some "words.txt") [] = (ok, Some s', h1) /\
     SpellChecker_LoadDictionary
       (one_file ("hello" ++ newline ++ "world"))
       (Some sc_fresh) (Some "words.txt") [] = (ok, Some s', h2)) /\
  (exists s1 s2 h1 h2,
     SpellChecker_LoadUserDictionary
       (one_file ("hello" ++ newline ++ "# colour  " ++ newline ++ "world"))
       (Some sc_fresh) (Some "words.txt") [] = (true, Some s1, h1) /\
     SpellChecker_LoadUserDictionary
       (one_file ("hello" ++ newline ++ "world"))
       (Some sc_fresh) (Some "words.txt") [] = (true, Some s2, h2) /\
     Permutation (words (userDictionary s1))
       (trimmed "# colour  " :: words (userDictionary s2))).
Proof.
  apply (comment_line_asymmetry sc_fresh ("hello" ++ newline) "# colour  "
           "world" true []).
  - reflexivity.
  - reflexivity.
  - reflexivity.
  - reflexivity.
  - simpl. lia.
  - discriminate.
  - constructor.
Defined.

(** ** Edit distance *)

Lemma for_loop_invariant {S : Type} (P : nat -> S -> Prop) (body : nat -> S -> S) :
  forall n i s,
    P i s ->
    (forall t st, (i <= t < i + n)%nat -> P t st -> P (Datatypes.S t) (body t st)) ->
    P (i + n)%nat (for_loop n i body s).
Proof.
  induction n as [|n IH]; intros i s H0 Hstep; cbn [for_loop].
  - rewrite Nat.add_0_r. exact H0.
  - replace (i + Datatypes.S n)%nat with (Datatypes.S i + n)%nat by lia.
    apply IH.
    + apply Hstep; [lia | exact H0].
    + intros t st Ht. apply Hstep. lia.
Qed.

Lemma lev_rec_nil_l b : lev_rec [] b = Z.of_nat (length b).
Proof. destruct b; reflexivity. Qed.

Lemma lev_rec_nil_r a : lev_rec a [] = Z.of_nat (length a).
Proof. destruct a; reflexivity. Qed.

Lemma lev_rec_cons x a y b :
  lev_rec (x :: a) (y :: b) =
  Z.min (Z.min (lev_rec a (y :: b) + 1) (lev_rec (x :: a) b + 1))
    (lev_rec a b + (if x =? y then 0 else 1)).
Proof. reflexivity. Qed.

Lemma length_cbytes s : length (cbytes s) = strlen s.
Proof.
  induction s as [|c r IH]; simpl; [reflexivity|].
  destruct (uchar c =? 0); simpl; [reflexivity | rewrite IH; reflexivity].
Qed.

Lemma char_at_cbytes s : forall i,
  (i < strlen s)%nat -> char_at s i = cbytes s !!! i.
Proof.
  induction s as [|c r IH]; intros i Hi; simpl in Hi; [lia|].
  simpl. destruct (uchar c =? 0); [lia|].
  destruct i as [|i]; [reflexivity|].
  unfold char_at in *. cbn [String.get]. rewrite IH by lia. reflexivity.
Qed.

Lemma rev_take_S (a : list Z) i :
  (i < length a)%nat -> rev (take (S i) a) = (a !!! i) :: rev (take i a).
Proof.
  intros Hi. destruct (lookup_lt_is_Some_2 a i Hi) as [x Hx].
  rewrite (take_S_r _ _ _ Hx), rev_app_distr.
  rewrite (list_lookup_total_correct _ _ _ Hx). reflexivity.
Qed.

Lemma lev_table_0_l a b j : (j <= length b)%nat -> lev_table a b 0 j = Z.of_nat j.
Proof.
  intros Hj. unfold lev_table. rewrite take_0. cbn [rev]. rewrite lev_rec_nil_l.
  rewrite length_rev, length_take. f_equal. lia.
Qed.

Lemma lev_table_0_r a b i : (i <= length a)%nat -> lev_table a b i 0 = Z.of_nat i.
Proof.
  intros Hi. unfold lev_table. rewrite (take_0 b). cbn [rev]. rewrite lev_rec_nil_r.
  rewrite length_rev, length_take. f_equal. lia.
Qed.

Lemma lev_table_S a b i j :
  (i < length a)%nat -> (j < length b)%nat ->
  lev_table a b (S i) (S j) =
  Z.min (Z.min (lev_table a b i (S j) + 1) (lev_table a b (S i) j + 1))
    (lev_table a b i j + (if a !!! i =? b !!! j then 0 else 1)).
Proof.
  intros Hi Hj. unfold lev_table.
  rewrite (rev_take_S a i Hi), (rev_take_S b j Hj). apply lev_rec_cons.
Qed.

Lemma min_as_test x y : (if x <? y then x else y) = Z.min x y.
Proof. destruct (x <? y) eqn:E; [apply Z.ltb_lt in E | apply Z.ltb_ge in E]; lia. Qed.

(** The first loop writes row 0 of the table. *)
Lemma Levenshtein_init a b n2 :
  n2 = length b ->
  let d := for_loop (n2 + 1) 0%nat (fun i d => <[i := Z.of_nat i]> d)
             (replicate (n2 + 1) 0) in
  length d = (n2 + 1)%nat /\
  forall m, (m <= n2)%nat -> d !!! m = lev_table a b 0 m.
Proof.
  intros Hn2 d.
  assert (H : length d = (n2 + 1)%nat /\
              forall m, (m < 0 + (n2 + 1))%nat -> d !!! m = Z.of_nat m).
  { subst d.
    apply (for_loop_invariant
             (fun t (d : list Z) =>
                length d = (n2 + 1)%nat /\
                forall m, (m < t)%nat -> d !!! m = Z.of_nat m)).
    - split; [apply length_replicate | intros m Hm; lia].
    - intros t st Ht [Hl Hv]. split; [rewrite length_insert; exact Hl|].
      intros m Hm. destruct (decide (m = t)) as [->|Hne].
      + rewrite list_lookup_total_insert_eq by lia. reflexivity.
      + rewrite list_lookup_total_insert_ne by lia. apply Hv. lia. }
  destruct H as [Hl Hv]. split; [exact Hl|].
  intros m Hm. rewrite Hv by lia. rewrite lev_table_0_l by lia. reflexivity.
Qed.

(** One turn of the outer loop turns row [i - 1] of the table into row [i]. *)
Lemma Levenshtein_row_spec s1 s2 i d :
  let a := cbytes s1 in
  let b := cbytes s2 in
  let n2 := strlen s2 in
  (1 <= i <= strlen s1)%nat ->
  length d = (n2 + 1)%nat ->
  (forall m, (m <= n2)%nat -> d !!! m = lev_table a b (i - 1) m) ->
  length (Levenshtein_row s1 s2 n2 i d) = (n2 + 1)%nat /\
  forall m, (m <= n2)%nat ->
    Levenshtein_row s1 s2 n2 i d !!! m = lev_table a b i m.
Proof.
  intros a b n2 Hi Hl Hd.
  assert (Ha : length a = strlen s1) by apply length_cbytes.
  assert (Hb : length b = strlen s2) by apply length_cbytes.
  unfold Levenshtein_row.
  pose (R := fun (j : nat) (st : list Z * Z) =>
    length (fst st) = (n2 + 1)%nat /\
    (forall m, (m < j)%nat -> fst st !!! m = lev_table a b i m) /\
    (forall m, (j <= m <= n2)%nat -> fst st !!! m = lev_table a b (i - 1) m) /\
    snd st = lev_table a b (i - 1) (j - 1)).
  assert (H : R (1 + n2)%nat
                (for_loop n2 1%nat (Levenshtein_cell s1 s2 i)
                   (<[0%nat := Z.of_nat i]> d, Z.of_nat i - 1))).
  { apply (for_loop_invariant R).
    - unfold R. cbn [fst snd]. split; [rewrite length_insert; exact Hl|].
      split; [|split].
      + intros m Hm. replace m with O by lia.
        rewrite list_lookup_total_insert_eq by lia.
        rewrite lev_table_0_r by lia. reflexivity.
      + intros m Hm. rewrite list_lookup_total_insert_ne by lia. apply Hd. lia.
      + rewrite lev_table_0_r by lia. lia.
    - intros j [d' pd] Hj (Hl' & Hlo & Hhi & Hpd). cbn [fst snd] in *.
      unfold R, Levenshtein_cell. cbn [fst snd].
      rewrite !min_as_test.
      rewrite list_lookup_total_insert_eq by lia.
      rewrite !length_insert.
      assert (Hcell : Z.min (Z.min (d' !!! j + 1) (d' !!! (j - 1)%nat + 1))
                        (pd + (if char_at s1 (i - 1) =? char_at s2 (j - 1)
                               then 0 else 1)) = lev_table a b i j).
      { rewrite (Hhi j) by lia. rewrite (Hlo (j - 1)%nat) by lia. rewrite Hpd.
        rewrite !char_at_cbytes by lia. fold a b.
        replace i with (S (i - 1)) at 4 5 by lia.
        replace j with (S (j - 1)) at 1 3 5 by lia.
        rewrite lev_table_S by lia.
        replace (S (i - 1)) with i by lia. replace (S (j - 1)) with j by lia.
        reflexivity. }
      rewrite Hcell.
      split; [exact Hl'|]. split; [|split].
      + intros m Hm. destruct (decide (m = j)) as [->|Hne].
        * rewrite list_lookup_total_insert_eq by (rewrite length_insert; lia).
          reflexivity.
        * rewrite !list_lookup_total_insert_ne by lia. apply Hlo. lia.
      + intros m Hm. rewrite !list_lookup_total_insert_ne by lia. apply Hhi. lia.
      + replace (S j - 1)%nat with j by lia. apply Hhi. lia. }
  destruct H as (Hl' & Hlo & _ & _). split; [exact Hl'|].
  intros m Hm. apply Hlo. lia.
Qed.

Lemma strlen_0_cbytes s : strlen s = O -> cbytes s = [].
Proof. rewrite <- length_cbytes. apply length_zero_iff_nil. Qed.

(** With its [malloc] succeeding the function returns the entry of the table
    for the two whole strings. *)
Lemma lev_dist_rec s1 s2 :
  lev_dist s1 s2 = lev_rec (rev (cbytes s1)) (rev (cbytes s2)).
Proof.
  unfold lev_dist, LevenshteinDistance.
  destruct (strlen s1 =? 0)%nat eqn:E1.
  { apply Nat.eqb_eq in E1. rewrite (strlen_0_cbytes _ E1). cbn [fst rev].
    rewrite lev_rec_nil_l, length_rev, length_cbytes. reflexivity. }
  destruct (strlen s2 =? 0)%nat eqn:E2.
  { apply Nat.eqb_eq in E2. rewrite (strlen_0_cbytes _ E2). cbn [fst rev].
    rewrite lev_rec_nil_r, length_rev, length_cbytes. reflexivity. }
  apply Nat.eqb_neq in E1, E2. cbn [alloc negb fst].
  pose proof (Levenshtein_init (cbytes s1) (cbytes s2) (strlen s2)
                (eq_sym (length_cbytes s2))) as Hinit.
  cbv zeta in Hinit.
  set (d0 := for_loop (strlen s2 + 1) 0%nat (fun i d => <[i := Z.of_nat i]> d)
               (replicate (strlen s2 + 1) 0)) in *.
  pose (Q := fun (t : nat) (d : list Z) =>
    length d = (strlen s2 + 1)%nat /\
    forall m, (m <= strlen s2)%nat ->
      d !!! m = lev_table (cbytes s1) (cbytes s2) (t - 1) m).
  assert (H : Q (1 + strlen s1)%nat
                (for_loop (strlen s1) 1%nat
                   (Levenshtein_row s1 s2 (strlen s2)) d0)).
  { apply (for_loop_invariant Q).
    - exact Hinit.
    - intros t d Ht [Hl Hd]. unfold Q.
      replace (S t - 1)%nat with t by lia.
      apply Levenshtein_row_spec; [lia | exact Hl | exact Hd]. }
  destruct H as [_ H]. rewrite (H (strlen s2)) by lia.
  unfold lev_table. replace (1 + strlen s1 - 1)%nat with (strlen s1) by lia.
  rewrite <- (length_cbytes s1) at 1. rewrite <- (length_cbytes s2) at 1.
  rewrite !firstn_all. reflexivity.
Qed.

(** What the function returns, by the fate of its allocation: the distance,
    or -1 when the row cannot be allocated; no allocation is asked for when
    one of the strings is empty. *)
Lemma LevenshteinDistance_cases s1 s2 h :
  (strlen s1 = O \/ strlen s2 = O ->
   LevenshteinDistance s1 s2 h = (lev_dist s1 s2, h)) /\
  (strlen s1 <> O -> strlen s2 <> O ->
   LevenshteinDistance s1 s2 h =
     (if fst (alloc h) then lev_dist s1 s2 else -1, snd (alloc h))).
Proof.
  unfold lev_dist, LevenshteinDistance. split.
  - intros [E|E].
    + rewrite E. reflexivity.
    + rewrite E. destruct (strlen s1 =? 0)%nat; reflexivity.
  - intros E1 E2. apply Nat.eqb_neq in E1, E2. rewrite E1, E2.
    cbn [alloc]. destruct (alloc h) as [[|] h']; reflexivity.
Qed.

Lemma alignment_nonneg a b n : alignment a b n -> 0 <= n.
Proof. induction 1; lia. Qed.

Lemma alignment_inserts b : alignment [] b (Z.of_nat (length b)).
Proof.
  induction b as [|y b IH]; [constructor|].
  cbn [length]. rewrite Nat2Z.inj_succ, <- Z.add_1_r. constructor. exact IH.
Qed.

Lemma alignment_deletes a : alignment a [] (Z.of_nat (length a)).
Proof.
  induction a as [|x a IH]; [constructor|].
  cbn [length]. rewrite Nat2Z.inj_succ, <- Z.add_1_r. constructor. exact IH.
Qed.

Lemma lev_rec_alignment a : forall b, alignment a b (lev_rec a b).
Proof.
  induction a as [|x a IHa]; intros b.
  - rewrite lev_rec_nil_l. apply alignment_inserts.
  - induction b as [|y b IHb].
    + rewrite lev_rec_nil_r. apply alignment_deletes.
    + rewrite lev_rec_cons.
      destruct (Z.min_spec (lev_rec a (y :: b) + 1) (lev_rec (x :: a) b + 1))
        as [[_ E1]|[_ E1]]; rewrite E1;
      match goal with
      | |- alignment _ _ (Z.min ?u ?v) =>
          destruct (Z.min_spec u v) as [[_ E2]|[_ E2]]; rewrite E2
      end;
      try (apply al_delete, IHa); try (apply al_insert, IHb);
      (destruct (x =? y) eqn:E;
       [apply Z.eqb_eq in E; subst y; rewrite Z.add_0_r; apply al_keep, IHa
       | apply al_subst, IHa]).
Qed.

Lemma lev_rec_delete_le x a b : lev_rec (x :: a) b <= lev_rec a b + 1.
Proof.
  destruct b as [|y b].
  - rewrite !lev_rec_nil_r. cbn [length]. lia.
  - rewrite lev_rec_cons. lia.
Qed.

Lemma lev_rec_insert_le y a b : lev_rec a (y :: b) <= lev_rec a b + 1.
Proof.
  destruct a as [|x a].
  - rewrite !lev_rec_nil_l. cbn [length]. lia.
  - rewrite lev_rec_cons. lia.
Qed.

Lemma lev_rec_least a b n : alignment a b n -> lev_rec a b <= n.
Proof.
  induction 1 as [|x a b n _ IH|x y a b n _ IH|x a b n _ IH|y a b n _ IH].
  - reflexivity.
  - rewrite lev_rec_cons, Z.eqb_refl. lia.
  - rewrite lev_rec_cons. destruct (x =? y); lia.
  - pose proof (lev_rec_delete_le x a b). lia.
  - pose proof (lev_rec_insert_le y a b). lia.
Qed.

Lemma alignment_snoc_keep x a b n :
  alignment a b n -> alignment (a ++ [x]) (b ++ [x]) n.
Proof. induction 1; cbn [app]; try (constructor; assumption). apply al_keep, al_nil. Qed.

Lemma alignment_snoc_subst x y a b n :
  alignment a b n -> alignment (a ++ [x]) (b ++ [y]) (n + 1).
Proof.
  induction 1; cbn [app]; try (constructor; assumption).
  apply (al_subst x y [] [] 0), al_nil.
Qed.

Lemma alignment_snoc_delete x a b n :
  alignment a b n -> alignment (a ++ [x]) b (n + 1).
Proof.
  induction 1; cbn [app]; try (constructor; assumption).
  apply (al_delete x [] [] 0), al_nil.
Qed.

Lemma alignment_snoc_insert y a b n :
  alignment a b n -> alignment a (b ++ [y]) (n + 1).
Proof.
  induction 1; cbn [app]; try (constructor; assumption).
  apply (al_insert y [] [] 0), al_nil.
Qed.

Lemma alignment_rev a b n : alignment a b n -> alignment (rev a) (rev b) n.
Proof.
  induction 1; cbn [rev];
    auto using al_nil, alignment_snoc_keep, alignment_snoc_subst,
      alignment_snoc_delete, alignment_snoc_insert.
Qed.

Lemma alignment_sym a b n : alignment a b n -> alignment b a n.
Proof. induction 1; constructor; assumption. Qed.

Lemma alignment_refl a : alignment a a 0.
Proof. induction a; constructor; assumption. Qed.

Lemma alignment_zero a b n : alignment a b n -> n = 0 -> a = b.
Proof.
  induction 1 as [|x a b n H IH|x y a b n H IH|x a b n H IH|y a b n H IH];
    intros Hn; try (apply alignment_nonneg in H; lia).
  - reflexivity.
  - rewrite IH by exact Hn. reflexivity.
Qed.

Lemma alignment_lengths a b n :
  alignment a b n ->
  Z.abs (Z.of_nat (length a) - Z.of_nat (length b)) <= n.
Proof. induction 1; cbn [length]; lia. Qed.

Lemma lev_rec_upper a : forall b,
  lev_rec a b <= Z.max (Z.of_nat (length a)) (Z.of_nat (length b)).
Proof.
  induction a as [|x a IH]; intros b.
  - rewrite lev_rec_nil_l. cbn [length]. lia.
  - destruct b as [|y b].
    + rewrite lev_rec_nil_r. lia.
    + rewrite lev_rec_cons. specialize (IH b). cbn [length].
      destruct (x =? y); lia.
Qed.

(** ** Sorting the suggestions *)

Lemma swap_first_perm {A : Type} `{!Inhabited A} (x : A) (l : list A) : forall j,
  (j < length l)%nat -> (l !!! j) :: <[j := x]> l ≡ₚ x :: l.
Proof.
  induction l as [|y l IH]; intros j Hj; simpl in Hj; [lia|].
  destruct j as [|j]; [exact (Permutation_swap x y l)|].
  change ((y :: l) !!! S j) with (l !!! j).
  change (<[S j := x]> (y :: l)) with (y :: <[j := x]> l).
  etransitivity; [apply Permutation_swap|].
  etransitivity; [apply Permutation_skip, IH; lia | apply Permutation_swap].
Qed.

Lemma swap_perm {A : Type} `{!Inhabited A} (l : list A) : forall i j,
  (i < j)%nat -> (j < length l)%nat ->
  <[j := l !!! i]> (<[i := l !!! j]> l) ≡ₚ l.
Proof.
  induction l as [|y l IH]; intros i j Hij Hj; simpl in Hj; [lia|].
  destruct j as [|j]; [lia|]. destruct i as [|i].
  - change (<[0%nat := (y :: l) !!! S j]> (y :: l)) with ((l !!! j) :: l).
    change (<[S j := (y :: l) !!! 0%nat]> ((l !!! j) :: l))
      with ((l !!! j) :: <[j := y]> l).
    apply swap_first_perm. lia.
  - change ((y :: l) !!! S i) with (l !!! i).
    change ((y :: l) !!! S j) with (l !!! j).
    change (<[S j := l !!! i]> (<[S i := l !!! j]> (y :: l)))
      with (y :: <[j := l !!! i]> (<[i := l !!! j]> l)).
    constructor. apply IH; lia.
Qed.

Lemma sort_step_perm i j (s : list Suggestion) :
  (i < j)%nat -> (j < length s)%nat -> sort_step i j s ≡ₚ s.
Proof.
  intros Hij Hj. unfold sort_step.
  destruct (distance (s !!! j) <? distance (s !!! i)); [|reflexivity].
  apply swap_perm; assumption.
Qed.

Lemma sort_step_length i j (s : list Suggestion) :
  length (sort_step i j s) = length s.
Proof.
  unfold sort_step. destruct (_ <? _); [|reflexivity].
  rewrite !length_insert. reflexivity.
Qed.

(** What one comparison of the sort does, slot by slot. *)
Lemma sort_step_lookup i j (s : list Suggestion) m :
  (i < j)%nat -> (j < length s)%nat ->
  sort_step i j s !!! m =
    if distance (s !!! j) <? distance (s !!! i)
    then (if decide (m = i) then s !!! j
          else if decide (m = j) then s !!! i else s !!! m)
    else s !!! m.
Proof.
  intros Hij Hj. unfold sort_step.
  destruct (distance (s !!! j) <? distance (s !!! i)); [|reflexivity].
  destruct (decide (m = j)) as [->|Hmj].
  - rewrite list_lookup_total_insert_eq by (rewrite length_insert; lia).
    destruct (decide (j = i)); [lia | reflexivity].
  - rewrite list_lookup_total_insert_ne by lia.
    destruct (decide (m = i)) as [->|Hmi].
    + rewrite list_lookup_total_insert_eq by lia. reflexivity.
    + rewrite list_lookup_total_insert_ne by lia. reflexivity.
Qed.

(** The inner loop for slot [i]: the smallest distance among the slots from
    [i] on is brought to slot [i]; the slots before [i] are left alone. *)
Lemma sort_inner_spec (s : list Suggestion) i :
  (i < length s)%nat ->
  let s' := for_loop (length s - (i + 1)) (i + 1)%nat (sort_step i) s in
  length s' = length s /\ s' ≡ₚ s /\
  (forall p, (p < i)%nat -> s' !!! p = s !!! p) /\
  (forall q, (i < q < length s)%nat ->
     distance (s' !!! i) <= distance (s' !!! q)) /\
  (forall q, (i <= q < length s)%nat ->
     exists q', (i <= q' < length s)%nat /\ s' !!! q = s !!! q').
Proof.
  intros Hi s'.
  pose (P := fun (j : nat) (st : list Suggestion) =>
    length st = length s /\ st ≡ₚ s /\
    (forall p, (p < i)%nat -> st !!! p = s !!! p) /\
    (forall q, (i < q < j)%nat -> distance (st !!! i) <= distance (st !!! q)) /\
    (forall q, (i <= q < length s)%nat ->
       exists q', (i <= q' < length s)%nat /\ st !!! q = s !!! q')).
  assert (H : P ((i + 1) + (length s - (i + 1)))%nat s').
  { subst s'. apply (for_loop_invariant P).
    - unfold P. repeat split; try reflexivity.
      + intros q Hq. lia.
      + intros q Hq. exists q. split; [lia | reflexivity].
    - intros t st Ht (Hl & Hp & Hlo & Hmin & Hfrom). unfold P.
      split; [rewrite sort_step_length; exact Hl|].
      split; [rewrite sort_step_perm by lia; exact Hp|].
      split; [|split].
      + intros p Hpi. rewrite sort_step_lookup by lia.
        destruct (_ <? _); [|apply Hlo; exact Hpi].
        repeat case_decide; try lia. apply Hlo. exact Hpi.
      + intros q Hq. rewrite !sort_step_lookup by lia.
        destruct (distance (st !!! t) <? distance (st !!! i)) eqn:E.
        * apply Z.ltb_lt in E. repeat case_decide; try lia.
          specialize (Hmin q ltac:(lia)). lia.
        * apply Z.ltb_ge in E.
          destruct (decide (q = t)) as [->|Hne]; [exact E | apply Hmin; lia].
      + intros q Hq. rewrite sort_step_lookup by lia.
        destruct (_ <? _); [|apply Hfrom; exact Hq].
        repeat case_decide; apply Hfrom; lia. }
  replace ((i + 1) + (length s - (i + 1)))%nat with (length s) in H by lia.
  destruct H as (Hl & Hp & Hlo & Hmin & Hfrom).
  repeat split; assumption.
Qed.

(** The sorting loops rearrange the slots into ascending order of distance. *)
Lemma sort_suggestions_spec (l : list Suggestion) :
  sort_suggestions l ≡ₚ l /\
  forall p q, (p < q < length l)%nat ->
    distance (sort_suggestions l !!! p) <= distance (sort_suggestions l !!! q).
Proof.
  unfold sort_suggestions.
  pose (I := fun (k : nat) (st : list Suggestion) =>
    length st = length l /\ st ≡ₚ l /\
    forall p q, (p < k)%nat -> (p < q < length l)%nat ->
      distance (st !!! p) <= distance (st !!! q)).
  assert (H : I (0 + (length l - 1))%nat
                (for_loop (length l - 1) 0%nat
                   (fun i s =>
                      for_loop (length l - (i + 1)) (i + 1)%nat (sort_step i) s)
                   l)).
  { apply (for_loop_invariant I).
    - unfold I. repeat split; try reflexivity. intros p q Hp. lia.
    - intros k st Hk (Hl & Hp & Hs). unfold I.
      rewrite <- Hl.
      destruct (sort_inner_spec st k ltac:(lia))
        as (Hl' & Hp' & Hlo & Hmin & Hfrom).
      split; [exact Hl'|]. split; [rewrite Hp'; exact Hp|].
      intros p q Hpk Hpq. rewrite Hl in *.
      destruct (decide (p = k)) as [->|Hne]; [apply Hmin; lia|].
      rewrite (Hlo p) by lia.
      destruct (decide (q < k)%nat) as [Hq|Hq].
      + rewrite (Hlo q) by lia. apply Hs; lia.
      + destruct (Hfrom q ltac:(lia)) as (q' & Hq' & ->). apply Hs; lia. }
  destruct H as (Hl & Hp & Hs). split; [exact Hp|].
  intros p q Hpq. apply Hs; lia.
Qed.

Lemma pointwise_sorted {A : Type} `{!Inhabited A} (R : A -> A -> Prop) (l : list A) :
  (forall p q, (p < q < length l)%nat -> R (l !!! p) (l !!! q)) ->
  StronglySorted R l.
Proof.
  induction l as [|x l IH]; intros H; constructor.
  - apply IH. intros p q Hpq. apply (H (S p) (S q)). simpl. lia.
  - apply Forall_forall. intros y Hy.
    apply list_elem_of_lookup_total in Hy as (j & Hj & <-).
    apply (H 0%nat (S j)). simpl. lia.
Qed.

Lemma sort_suggestions_sorted l : StronglySorted by_distance (sort_suggestions l).
Proof.
  destruct (sort_suggestions_spec l) as [Hp Hs].
  apply pointwise_sorted. intros p q Hpq. apply Hs.
  rewrite <- (Permutation_length Hp). exact Hpq.
Qed.

(** ** Suggestions *)

Lemma LevenshteinDistance_value s1 s2 h :
  fst (LevenshteinDistance s1 s2 h) = lev_dist s1 s2 \/
  fst (LevenshteinDistance s1 s2 h) = -1.
Proof.
  destruct (LevenshteinDistance_cases s1 s2 h) as [H0 H1].
  destruct (Nat.eq_dec (strlen s1) 0%nat) as [E1|E1]; [rewrite H0 by auto; auto|].
  destruct (Nat.eq_dec (strlen s2) 0%nat) as [E2|E2]; [rewrite H0 by auto; auto|].
  rewrite H1 by assumption. cbn [fst]. destruct (fst (alloc h)); auto.
Qed.

Lemma LevenshteinDistance_succeeds s1 s2 h :
  allocs_succeed h ->
  exists h', LevenshteinDistance s1 s2 h = (lev_dist s1 s2, h') /\
             allocs_succeed h'.
Proof.
  intros Hh. destruct (LevenshteinDistance_cases s1 s2 h) as [H0 H1].
  destruct (Nat.eq_dec (strlen s1) 0%nat) as [E1|E1]; [rewrite H0 by auto; eauto|].
  destruct (Nat.eq_dec (strlen s2) 0%nat) as [E2|E2]; [rewrite H0 by auto; eauto|].
  rewrite H1 by assumption.
  destruct (alloc_succeeds h Hh) as (h' & -> & Hh'). eauto.
Qed.

(** Whatever the allocations do, every slot the scan fills holds an entry of
    the array with its true distance, between 1 and 2; and the scan fills at
    most ten slots. *)
Lemma collect_suggestions_good word all ws : forall acc h,
  (forall w, w ∈ ws -> w ∈ all) ->
  Forall (good_suggestion word all) acc ->
  Forall (good_suggestion word all) (fst (collect_suggestions ws word acc h)) /\
  (length (fst (collect_suggestions ws word acc h)) <= Nat.max 10 (length acc))%nat.
Proof.
  induction ws as [|w ws IH]; intros acc h Hsub Hacc; cbn [collect_suggestions].
  - split; [exact Hacc | cbn [fst]; lia].
  - destruct (length acc <? 10)%nat eqn:El; [|split; [exact Hacc | cbn [fst]; lia]].
    apply Nat.ltb_lt in El.
    pose proof (LevenshteinDistance_value word w h) as Hv.
    destruct (LevenshteinDistance word w h) as [dist h']. cbn [fst] in Hv.
    assert (Hsub' : forall w0, w0 ∈ ws -> w0 ∈ all)
      by (intros w0 Hw0; apply Hsub; right; exact Hw0).
    destruct ((0 <? dist) && (dist <=? 2)) eqn:Eq.
    + apply andb_true_iff in Eq as [Eq1 Eq2].
      apply Z.ltb_lt in Eq1. apply Z.leb_le in Eq2.
      destruct (IH (acc ++ [mkSuggestion w dist])%list h' Hsub') as [IH1 IH2].
      * apply Forall_app. split; [exact Hacc|]. constructor; [|constructor].
        split; [apply Hsub; left|]. cbn [s_word distance].
        split; [destruct Hv; lia | lia].
      * split; [exact IH1|]. rewrite length_app in IH2. cbn [length] in IH2. lia.
    + apply IH; assumption.
Qed.

(** With allocations succeeding the scan keeps the first ten candidates. *)
Lemma collect_suggestions_spec word ws : forall acc h,
  allocs_succeed h ->
  exists h',
    collect_suggestions ws word acc h =
      ((acc ++ take (10 - length acc) (candidates word ws))%list, h') /\
    allocs_succeed h'.
Proof.
  induction ws as [|w ws IH]; intros acc h Hh; cbn [collect_suggestions].
  - exists h. change (candidates word []) with (@nil Suggestion).
    rewrite take_nil, app_nil_r. auto.
  - destruct (length acc <? 10)%nat eqn:El.
    2:{ apply Nat.ltb_ge in El. replace (10 - length acc)%nat with O by lia.
        rewrite take_0, app_nil_r. eauto. }
    apply Nat.ltb_lt in El.
    destruct (LevenshteinDistance_succeeds word w h Hh) as (h1 & -> & Hh1).
    unfold candidates. rewrite filter_cons. fold (qualifies word w).
    destruct (qualifies word w) eqn:Eq.
    + rewrite decide_True by reflexivity.
      destruct (IH (acc ++ [mkSuggestion w (lev_dist word w)])%list h1 Hh1)
        as (h' & -> & Hh').
      exists h'. split; [|exact Hh']. f_equal.
      rewrite length_app. cbn [length map].
      replace (10 - length acc)%nat with (S (10 - (length acc + 1))) by lia.
      cbn [take]. rewrite <- app_assoc. reflexivity.
    + rewrite decide_False by discriminate.
      apply IH. exact Hh1.
Qed.

Lemma copy_suggestions_result l : forall h r h',
  copy_suggestions l h = (Some r, h') ->
  r = map (fun s => strcpy (s_word s)) l.
Proof.
  induction l as [|s l IH]; intros h r h'; cbn [copy_suggestions].
  - intros [= <- <-]. reflexivity.
  - destruct (alloc h) as [[|] h1]; cbn [negb]; [|discriminate].
    destruct (copy_suggestions l h1) as [[r1|] h2] eqn:E; [|discriminate].
    intros [= <- <-]. cbn [map]. f_equal. eapply IH. exact E.
Qed.

Lemma copy_suggestions_succeeds l : forall h,
  allocs_succeed h ->
  exists h', copy_suggestions l h =
               (Some (map (fun s => strcpy (s_word s)) l), h') /\
             allocs_succeed h'.
Proof.
  induction l as [|s l IH]; intros h Hh; cbn [copy_suggestions]; [eauto|].
  destruct (alloc_succeeds h Hh) as (h1 & -> & Hh1). cbn [negb].
  destruct (IH h1 Hh1) as (h' & -> & Hh'). eauto.
Qed.

Lemma cbytes_strcpy s : cbytes (strcpy s) = cbytes s.
Proof.
  induction s as [|c r IH]; simpl; [reflexivity|].
  destruct (uchar c =? 0) eqn:E; simpl; [reflexivity|]. rewrite E, IH. reflexivity.
Qed.

Lemma lev_dist_strcpy w e : lev_dist w (strcpy e) = lev_dist w e.
Proof. rewrite !lev_dist_rec, cbytes_strcpy. reflexivity. Qed.

Lemma lev_rec_zero a b : lev_rec a b = 0 <-> a = b.
Proof.
  split.
  - intros H. apply (alignment_zero a b (lev_rec a b)); [|exact H].
    apply lev_rec_alignment.
  - intros <-. pose proof (lev_rec_least a a 0 (alignment_refl a)).
    pose proof (alignment_nonneg _ _ _ (lev_rec_alignment a a)). lia.
Qed.

Lemma lev_dist_zero s1 s2 : lev_dist s1 s2 = 0 <-> cbytes s1 = cbytes s2.
Proof.
  rewrite lev_dist_rec, lev_rec_zero. split; [|intros ->; reflexivity].
  intros H. apply (f_equal (@rev Z)) in H. rewrite !rev_involutive in H. exact H.
Qed.

(** The shape of every non-NULL result: the copies of the first five slots of
    the sorted scan. *)
Lemma GetSuggestions_shape s word cnt h result count' h' :
  SpellChecker_GetSuggestions (Some s) (Some word) (Some cnt) h =
    (Some result, count', h') ->
  exists sl,
    Forall (good_suggestion word (words (mainDictionary s))) sl /\
    (length sl <= 10)%nat /\
    result = map (fun x => strcpy (s_word x)) (take 5 (sort_suggestions sl)) /\
    count' = Some (Z.of_nat (length result)).
Proof.
  unfold SpellChecker_GetSuggestions.
  destruct (alloc h) as [[|] h0]; cbn [negb]; [|discriminate].
  destruct (collect_suggestions_good word (words (mainDictionary s))
              (words (mainDictionary s)) [] h0 ltac:(auto) ltac:(constructor))
    as [Hg Hl].
  destruct (collect_suggestions (words (mainDictionary s)) word [] h0)
    as [sl h1]. cbn [fst length] in Hg, Hl.
  destruct (alloc h1) as [[|] h2]; cbn [negb]; [|discriminate].
  destruct (copy_suggestions (take 5 (sort_suggestions sl)) h2)
    as [[r|] h3] eqn:Ec; [|discriminate].
  intros [= <- <- <-]. apply copy_suggestions_result in Ec.
  exists sl. split; [exact Hg|]. split; [lia|]. split; [exact Ec|].
  rewrite Ec, length_map. reflexivity.
Qed.

(** X3. Every non-NULL result of [SpellChecker_GetSuggestions], whatever the
    allocations did, holds at most 5 words and [*count] is their number; each
    word is the copy of an entry of the main dictionary, at edit distance 1
    or 2 from the input word, and so never the input word itself. *)
Theorem GetSuggestions_bounds (s : SpellChecker) (word : string) (cnt : Z)
    (h : heap) (result : list string) (count' : option Z) (h' : heap) :
  SpellChecker_GetSuggestions (Some s) (Some word) (Some cnt) h =
    (Some result, count', h') ->
  (length result <= 5)%nat /\
  count' = Some (Z.of_nat (length result)) /\
  Forall (fun c =>
            (exists e, e ∈ words (mainDictionary s) /\ c = strcpy e) /\
            0 < lev_dist word c <= 2 /\ cbytes c <> cbytes word) result.
Proof.
  intros H. apply GetSuggestions_shape in H as (sl & Hg & _ & -> & ->).
  split; [rewrite length_map, length_take; lia|]. split; [reflexivity|].
  apply Forall_fmap. apply Forall_take.
  destruct (sort_suggestions_spec sl) as [Hp _]. rewrite Hp.
  eapply Forall_impl; [exact Hg|]. intros x (Hin & Hd & Hr). cbn beta.
  split; [eauto|]. rewrite lev_dist_strcpy, <- Hd. split; [exact Hr|].
  intros E. symmetry in E. rewrite cbytes_strcpy in E.
  apply lev_dist_zero in E. lia.
Qed.

Lemma GetSuggestions_bounds_witness :
  (length ["hallo"; "hell"; "help"] <= 5)%nat /\
  Some 3 = Some (Z.of_nat (length ["hallo"; "hell"; "help"])) /\
  Forall (fun c =>
            (exists e,
               e ∈ words (mainDictionary
                            (set_mainDictionary sc_fresh
                               (mkDictionary ["hallo"; "hell"; "hello"; "help";
                                              "world"] 10))) /\
               c = strcpy e) /\
            0 < lev_dist "hello" c <= 2 /\ cbytes c <> cbytes "hello")
    ["hallo"; "hell"; "help"].
Proof.
  apply (GetSuggestions_bounds
           (set_mainDictionary sc_fresh
              (mkDictionary ["hallo"; "hell"; "hello"; "help"; "world"] 10))
           "hello" 0 [] ["hallo"; "hell"; "help"] (Some 3) []).
  vm_compute. reflexivity.
Defined.

(** X4. Every non-NULL result of [SpellChecker_GetSuggestions] is in
    ascending order of edit distance to the input word. *)
Theorem GetSuggestions_ascending (s : SpellChecker) (word : string) (cnt : Z)
    (h : heap) (result : list string) (count' : option Z) (h' : heap) :
  SpellChecker_GetSuggestions (Some s) (Some word) (Some cnt) h =
    (Some result, count', h') ->
  StronglySorted (fun c1 c2 => lev_dist word c1 <= lev_dist word c2) result.
Proof.
  intros H. apply GetSuggestions_shape in H as (sl & Hg & _ & -> & _).
  assert (Hg' : Forall (good_suggestion word (words (mainDictionary s)))
                  (take 5 (sort_suggestions sl))).
  { apply Forall_take. destruct (sort_suggestions_spec sl) as [Hp _].
    rewrite Hp. exact Hg. }
  assert (Hs : StronglySorted by_distance (take 5 (sort_suggestions sl))).
  { pose proof (sort_suggestions_sorted sl) as Hs.
    rewrite <- (take_drop 5 (sort_suggestions sl)) in Hs.
    apply StronglySorted_app_1_l in Hs. exact Hs. }
  induction Hs as [|x l Hs IH Hx]; cbn [map]; constructor.
  - apply IH. inversion Hg'; assumption.
  - apply Forall_fmap. inversion Hg' as [|? ? (_ & Hdx & _) Hgl]; subst.
    rewrite Forall_forall in Hx, Hgl |- *. intros y Hy. unfold compose.
    destruct (Hgl y Hy) as (_ & Hdy & _).
    rewrite !lev_dist_strcpy, <- Hdx, <- Hdy. apply Hx, Hy.
Qed.

Lemma GetSuggestions_ascending_witness :
  StronglySorted (fun c1 c2 => lev_dist "cc" c1 <= lev_dist "cc" c2)
    ["cb"; "bb"; "aa"].
Proof.
  apply (GetSuggestions_ascending
           (set_mainDictionary sc_fresh (mkDictionary ["aa"; "bb"; "cb"] 10))
           "cc" 0 [] ["cb"; "bb"; "aa"] (Some 3) []).
  vm_compute. reflexivity.
Defined.

(** X5. With allocations succeeding [SpellChecker_GetSuggestions] returns a
    result: the (at most five) nearest of the first ten candidates of the main
    dictionary, a candidate being an entry at distance 1 or 2 from the word,
    taken in dictionary order.  The user dictionary and the ignore list play
    no part. *)
Theorem GetSuggestions_best_of_first_ten (s : SpellChecker) (word : string)
    (cnt : Z) (h : heap) :
  allocs_succeed h ->
  exists sorted h',
    SpellChecker_GetSuggestions (Some s) (Some word) (Some cnt) h =
      (Some (map (fun x => strcpy (s_word x)) (take 5 sorted)),
       Some (Z.of_nat (length (take 5 sorted))), h') /\
    sorted ≡ₚ take 10 (candidates word (words (mainDictionary s))) /\
    StronglySorted by_distance sorted.
Proof.
  intros Hh. unfold SpellChecker_GetSuggestions.
  destruct (alloc_succeeds h Hh) as (h0 & -> & Hh0). cbn [negb].
  destruct (collect_suggestions_spec word (words (mainDictionary s)) [] h0 Hh0)
    as (h1 & -> & Hh1). cbn [app length]. rewrite Nat.sub_0_r.
  destruct (alloc_succeeds h1 Hh1) as (h2 & -> & Hh2). cbn [negb].
  destruct (copy_suggestions_succeeds
              (take 5 (sort_suggestions
                         (take 10 (candidates word (words (mainDictionary s))))))
              h2 Hh2) as (h3 & -> & _).
  eexists _, h3. split; [reflexivity|].
  split; [apply sort_suggestions_spec | apply sort_suggestions_sorted].
Qed.

Lemma GetSuggestions_best_of_first_ten_witness :
  exists sorted h',
    SpellChecker_GetSuggestions (Some sc_precedence) (Some "wrold") (Some 0)
      [true; true] =
      (Some (map (fun x => strcpy (s_word x)) (take 5 sorted)),
       Some (Z.of_nat (length (take 5 sorted))), h') /\
    sorted ≡ₚ take 10 (candidates "wrold" (words (mainDictionary sc_precedence))) /\
    StronglySorted by_distance sorted.
Proof.
  apply (GetSuggestions_best_of_first_ten sc_precedence "wrold" 0 [true; true]).
  repeat constructor.
Defined.

Lemma collect_suggestions_full word extra ws : forall acc h,
  (10 <= length (fst (collect_suggestions ws word acc h)))%nat ->
  collect_suggestions (ws ++ extra) word acc h =
  collect_suggestions ws word acc h.
Proof.
  induction ws as [|w ws IH]; intros acc h Hl.
  - cbn [collect_suggestions fst app] in *.
    destruct extra as [|e extra]; [reflexivity|]. cbn [collect_suggestions].
    destruct (length acc <? 10)%nat eqn:E; [apply Nat.ltb_lt in E; lia|].
    reflexivity.
  - cbn [app collect_suggestions] in *.
    destruct (length acc <? 10)%nat; [|reflexivity].
    destruct (LevenshteinDistance word w h) as [dist h1].
    destruct ((0 <? dist) && (dist <=? 2)); apply IH; exact Hl.
Qed.

Lemma candidates_app word ws1 ws2 :
  candidates word (ws1 ++ ws2) = (candidates word ws1 ++ candidates word ws2)%list.
Proof. unfold candidates. rewrite filter_app, map_app. reflexivity. Qed.

(** X6. With allocations succeeding, the scan of
    [SpellChecker_GetSuggestions] stops at the tenth candidate: when the main
    dictionary already holds ten entries at distance 1 or 2 from the word,
    whatever follows them in the array changes nothing to the result, however
    near the word it is. *)
Theorem GetSuggestions_ignores_beyond_ten (s : SpellChecker)
    (ws extra : list string) (cap : Z) (word : string) (cnt : Z) (h : heap) :
  allocs_succeed h ->
  (10 <= length (candidates word ws))%nat ->
  SpellChecker_GetSuggestions
    (Some (set_mainDictionary s (mkDictionary (ws ++ extra) cap)))
    (Some word) (Some cnt) h =
  SpellChecker_GetSuggestions
    (Some (set_mainDictionary s (mkDictionary ws cap)))
    (Some word) (Some cnt) h.
Proof.
  intros Hh Hc. unfold SpellChecker_GetSuggestions.
  cbn [mainDictionary set_mainDictionary words].
  destruct (alloc_succeeds h Hh) as (h0 & -> & Hh0). cbn [negb].
  rewrite collect_suggestions_full; [reflexivity|].
  destruct (collect_suggestions_spec word ws [] h0 Hh0) as (h1 & -> & _).
  cbn [fst app length]. rewrite length_take. lia.
Qed.

Lemma GetSuggestions_ignores_beyond_ten_witness :
  SpellChecker_GetSuggestions
    (Some (set_mainDictionary sc_fresh
             (mkDictionary
                (["aaz"; "abz"; "acz"; "adz"; "aez"; "afz"; "agz"; "ahz"; "aiz";
                  "ajz"] ++ ["zzy"]) 100)))
    (Some "zzz") (Some 0) [] =
  SpellChecker_GetSuggestions
    (Some (set_mainDictionary sc_fresh
             (mkDictionary
                ["aaz"; "abz"; "acz"; "adz"; "aez"; "afz"; "agz"; "ahz"; "aiz";
                 "ajz"] 100)))
    (Some "zzz") (Some 0) [].
Proof.
  apply (GetSuggestions_ignores_beyond_ten sc_fresh
           ["aaz"; "abz"; "acz"; "adz"; "aez"; "afz"; "agz"; "ahz"; "aiz"; "ajz"]
           ["zzy"] 100 "zzz" 0 []).
  - constructor.
  - vm_compute. lia.
Defined.

(** The nearest entry can be the one that is never looked at: "zzy" is one
    edit away from "zzz" and is not suggested. *)
Lemma nearest_entry_missed :
  lev_dist "zzz" "zzy" = 1 /\
  fst (fst (SpellChecker_GetSuggestions
    (Some (set_mainDictionary sc_fresh
             (mkDictionary
                ["aaz"; "abz"; "acz"; "adz"; "aez"; "afz"; "agz"; "ahz"; "aiz";
                 "ajz"; "zzy"] 100)))
    (Some "zzz") (Some 0) [])) = Some ["aaz"; "abz"; "acz"; "adz"; "aez"].
Proof. vm_compute. split; reflexivity. Qed.

(** ** Edit distance: results *)

(** X7. When its row can be allocated, [LevenshteinDistance] returns the
    least number of single-byte insertions, deletions and substitutions that
    turn one C string into the other: some sequence of edits has that cost and
    none has less. *)
Theorem LevenshteinDistance_minimal (s1 s2 : string) (h : heap) :
  allocs_succeed h ->
  alignment (cbytes s1) (cbytes s2) (fst (LevenshteinDistance s1 s2 h)) /\
  forall n, alignment (cbytes s1) (cbytes s2) n ->
            fst (LevenshteinDistance s1 s2 h) <= n.
Proof.
  intros Hh. destruct (LevenshteinDistance_succeeds s1 s2 h Hh) as (h' & -> & _).
  cbn [fst]. rewrite lev_dist_rec. split.
  - rewrite <- (rev_involutive (cbytes s1)), <- (rev_involutive (cbytes s2)) at 1.
    apply alignment_rev, lev_rec_alignment.
  - intros n Hn. apply lev_rec_least, alignment_rev, Hn.
Qed.

Lemma LevenshteinDistance_minimal_witness :
  alignment (cbytes "kitten") (cbytes "sitting")
    (fst (LevenshteinDistance "kitten" "sitting" [true])) /\
  forall n, alignment (cbytes "kitten") (cbytes "sitting") n ->
            fst (LevenshteinDistance "kitten" "sitting" [true]) <= n.
Proof.
  apply (LevenshteinDistance_minimal "kitten" "sitting" [true]).
  repeat constructor.
Defined.

(** X8. [LevenshteinDistance] returns -1 exactly when both strings are
    non-empty and the allocation of its row fails; it asks for no allocation
    when one of the strings is empty, and then returns the length of the
    other. *)
Theorem LevenshteinDistance_failure (s1 s2 : string) (h : heap) :
  (fst (LevenshteinDistance s1 s2 h) = -1 <->
   strlen s1 <> O /\ strlen s2 <> O /\ fst (alloc h) = false) /\
  (strlen s1 = O ->
   LevenshteinDistance s1 s2 h = (Z.of_nat (strlen s2), h)) /\
  (strlen s2 = O ->
   LevenshteinDistance s1 s2 h = (Z.of_nat (strlen s1), h)).
Proof.
  assert (Hpos : 0 <= lev_dist s1 s2).
  { rewrite lev_dist_rec.
    exact (alignment_nonneg _ _ _ (lev_rec_alignment _ _)). }
  destruct (LevenshteinDistance_cases s1 s2 h) as [H0 H1].
  split; [|split].
  - destruct (Nat.eq_dec (strlen s1) 0%nat) as [E1|E1].
    { rewrite H0 by auto. cbn [fst]. split; [lia | tauto]. }
    destruct (Nat.eq_dec (strlen s2) 0%nat) as [E2|E2].
    { rewrite H0 by auto. cbn [fst]. split; [lia | tauto]. }
    rewrite H1 by assumption. cbn [fst].
    destruct (fst (alloc h)); split; try lia; try tauto.
  - intros E. unfold LevenshteinDistance. rewrite E. reflexivity.
  - intros E. unfold LevenshteinDistance. rewrite E.
    destruct (strlen s1 =? 0)%nat eqn:E1; [|reflexivity].
    apply Nat.eqb_eq in E1. rewrite E1. reflexivity.
Qed.

Lemma LevenshteinDistance_failure_witness :
  LevenshteinDistance "" "word" [false] = (Z.of_nat (strlen "word"), [false]).
Proof.
  apply (proj1 (proj2 (LevenshteinDistance_failure "" "word" [false]))).
  reflexivity.
Defined.

(** X9. The distance [LevenshteinDistance] computes is 0 exactly when the two
    C strings are equal byte for byte (case matters), is the same in both
    directions, and lies between the difference of the two lengths and the
    greater of them. *)
Theorem lev_dist_facts (s1 s2 : string) :
  (lev_dist s1 s2 = 0 <-> cbytes s1 = cbytes s2) /\
  lev_dist s1 s2 = lev_dist s2 s1 /\
  Z.abs (Z.of_nat (strlen s1) - Z.of_nat (strlen s2)) <= lev_dist s1 s2 /\
  lev_dist s1 s2 <= Z.max (Z.of_nat (strlen s1)) (Z.of_nat (strlen s2)).
Proof.
  split; [apply lev_dist_zero|]. rewrite !lev_dist_rec. split; [|split].
  - apply Z.le_antisymm; apply lev_rec_least, alignment_sym, lev_rec_alignment.
  - pose proof (alignment_lengths _ _ _
                  (lev_rec_alignment (rev (cbytes s1)) (rev (cbytes s2)))) as H.
    rewrite !length_rev, !length_cbytes in H. exact H.
  - pose proof (lev_rec_upper (rev (cbytes s1)) (rev (cbytes s2))) as H.
    rewrite !length_rev, !length_cbytes in H. exact H.
Qed.

(** ** Comparators and search: results *)

(** X10. [DictionaryComparator] and [strcasecmp_custom] are the same
    function; it is antisymmetric, its "not greater" is transitive and total,
    and it returns 0 exactly when the two C strings agree byte for byte once
    upper-case ASCII letters are folded to lower case.  So it is a consistent
    comparator for [qsort] and for the binary search. *)
Theorem comparator_total_preorder (a b c : string) :
  strcasecmp_custom a b = DictionaryComparator a b /\
  DictionaryComparator a b = - DictionaryComparator b a /\
  (DictionaryComparator a b <= 0 -> DictionaryComparator b c <= 0 ->
   DictionaryComparator a c <= 0) /\
  (DictionaryComparator a b <= 0 \/ DictionaryComparator b a <= 0) /\
  (DictionaryComparator a b = 0 <-> lower_key a = lower_key b).
Proof.
  split; [reflexivity|]. split; [apply cmp_antisym|].
  split; [apply cmp_le_trans|]. split; [apply cmp_le_total|].
  rewrite <- strcasecmp_custom_comparator. apply caseless_eq_cmp.
Qed.

(** An array out of order can hide a word from the search. *)
Lemma unsorted_array_miss :
  dict_contains (mkDictionary ["world"; "hello"; "apple"] 10) "world" /\
  BinarySearchDictionary (mkDictionary ["world"; "hello"; "apple"] 10) "world"
    = false.
Proof.
  split; [|vm_compute; reflexivity].
  unfold dict_contains. cbn [words]. constructor. reflexivity.
Qed.

(** X11. [BinarySearchDictionary] never reports a word that is absent: a hit
    means some entry equals the word case-insensitively, whatever the order
    of the array.  On an array in comparator order it finds every word that is
    present, in any letter case; on an empty array it finds nothing. *)
Theorem BinarySearch_correct (d : Dictionary) (w : string) :
  (BinarySearchDictionary d w = true -> dict_contains d w) /\
  (dict_sorted d -> dict_contains d w -> BinarySearchDictionary d w = true) /\
  (words d = [] -> BinarySearchDictionary d w = false).
Proof.
  split; [apply BinarySearchDictionary_hit|]. split.
  - intros Hs Hc. apply BinarySearchDictionary_spec; assumption.
  - intros E. unfold BinarySearchDictionary, count. rewrite E. reflexivity.
Qed.

Lemma BinarySearch_correct_witness :
  dict_sorted (mkDictionary ["apple"; "Hello"; "world"] 10) /\
  dict_contains (mkDictionary ["apple"; "Hello"; "world"] 10) "HELLO" /\
  BinarySearchDictionary (mkDictionary ["apple"; "Hello"; "world"] 10) "HELLO"
    = true.
Proof.
  assert (Hs : dict_sorted (mkDictionary ["apple"; "Hello"; "world"] 10))
    by (unfold dict_sorted; cbn [words]; sorted_by_computation).
  assert (Hc : dict_contains (mkDictionary ["apple"; "Hello"; "world"] 10) "HELLO").
  { unfold dict_contains. cbn [words]. apply Exists_cons_tl, Exists_cons_hd.
    reflexivity. }
  split; [exact Hs|]. split; [exact Hc|].
  exact (proj1 (proj2 (BinarySearch_correct
                         (mkDictionary ["apple"; "Hello"; "world"] 10) "HELLO"))
           Hs Hc).
Defined.

(** ** Ignoring and learning: results *)

Lemma AddToIgnoreList_step s v h :
  allocs_succeed h ->
  exists s' h', SpellChecker_AddToIgnoreList (Some s) (Some v) h = (Some s', h') /\
    allocs_succeed h' /\
    mainDictionary s' = mainDictionary s /\
    userDictionary s' = userDictionary s /\
    misspelled s' = misspelled s /\
    ((BinarySearchDictionary (ignoredWords s) v = true /\ s' = s) \/
     (BinarySearchDictionary (ignoredWords s) v = false /\
      dict_sorted (ignoredWords s') /\
      Permutation (words (ignoredWords s'))
        (words (ignoredWords s) ++ [strcpy v])%list)).
Proof.
  intros H. unfold SpellChecker_AddToIgnoreList.
  destruct (BinarySearchDictionary (ignoredWords s) v) eqn:E.
  - exists s, h. repeat split; auto.
  - destruct (Dictionary_push_succeeds (ignoredWords s) v h H)
      as (d' & h' & -> & Hw & H'). cbn [negb].
    eexists _, h'. split; [reflexivity|]. split; [exact H'|].
    cbn [mainDictionary userDictionary misspelled ignoredWords set_ignoredWords].
    repeat split. right. split; [reflexivity|].
    split; [apply Dictionary_sort_sorted|].
    rewrite Dictionary_sort_perm, Hw. reflexivity.
Qed.

(** X12. With allocations succeeding, a word passed to
    [SpellChecker_AddToIgnoreList] is judged correct from then on, whether or
    not any dictionary holds it, and the call touches neither dictionary nor
    the misspelled list.  After [SpellChecker_ClearIgnoreList] the ignore list
    is empty and a word is correct only if it is empty or found in the main or
    the user dictionary. *)
Theorem ignore_list_effect (s : SpellChecker) (w : string) (h : heap) :
  (allocs_succeed h ->
   exists s' h',
     SpellChecker_AddToIgnoreList (Some s) (Some w) h = (Some s', h') /\
     SpellChecker_IsWordCorrect (Some s') (Some w) = true /\
     mainDictionary s' = mainDictionary s /\
     userDictionary s' = userDictionary s /\
     misspelled s' = misspelled s) /\
  (exists s0,
     SpellChecker_ClearIgnoreList (Some s) = Some s0 /\
     words (ignoredWords s0) = [] /\
     mainDictionary s0 = mainDictionary s /\
     userDictionary s0 = userDictionary s /\
     (SpellChecker_IsWordCorrect (Some s0) (Some w) = true <->
      strlen w = O \/ BinarySearchDictionary (mainDictionary s) w = true \/
      BinarySearchDictionary (userDictionary s) w = true)).
Proof.
  split.
  - intros Hh.
    destruct (AddToIgnoreList_step s w h Hh)
      as (s' & h' & E & _ & Hm & Hu & Hms & Hcase).
    exists s', h'. split; [exact E|]. split; [|auto].
    assert (Hf : BinarySearchDictionary (ignoredWords s') w = true).
    { destruct Hcase as [[Hb ->]|(_ & Hs & Hp)]; [exact Hb|].
      apply BinarySearchDictionary_spec; [exact Hs|].
      unfold dict_contains. rewrite Hp. apply Exists_app. right.
      constructor. apply lower_key_strcpy. }
    unfold SpellChecker_IsWordCorrect. rewrite Hf.
    destruct (strlen w =? 0)%nat; reflexivity.
  - eexists. split; [reflexivity|].
    cbn [ignoredWords mainDictionary userDictionary set_ignoredWords words].
    repeat split.
    + unfold SpellChecker_IsWordCorrect.
      cbn [ignoredWords mainDictionary userDictionary set_ignoredWords].
      change (BinarySearchDictionary
                (mkDictionary [] (capacity (ignoredWords s))) w) with false.
      destruct (strlen w =? 0)%nat eqn:E0; [apply Nat.eqb_eq in E0; auto|].
      destruct (BinarySearchDictionary (mainDictionary s) w); [auto|].
      destruct (BinarySearchDictionary (userDictionary s) w); [auto|discriminate].
    + unfold SpellChecker_IsWordCorrect.
      cbn [ignoredWords mainDictionary userDictionary set_ignoredWords].
      change (BinarySearchDictionary
                (mkDictionary [] (capacity (ignoredWords s))) w) with false.
      intros [E|[E|E]].
      * rewrite E. reflexivity.
      * rewrite E. destruct (strlen w =? 0)%nat; reflexivity.
      * rewrite E. destruct (strlen w =? 0)%nat; [reflexivity|].
        destruct (BinarySearchDictionary (mainDictionary s) w); reflexivity.
Qed.

Lemma ignore_list_effect_witness :
  exists s' h',
    SpellChecker_AddToIgnoreList (Some sc_precedence) (Some "xyz") [true] =
      (Some s', h') /\
    SpellChecker_IsWordCorrect (Some s') (Some "xyz") = true /\
    mainDictionary s' = mainDictionary sc_precedence /\
    userDictionary s' = userDictionary sc_precedence /\
    misspelled s' = misspelled sc_precedence.
Proof.
  apply (proj1 (ignore_list_effect sc_precedence "xyz" [true])).
  repeat constructor.
Defined.

(** X13. [SpellChecker_AddToUserDictionary] on a word the search already
    finds returns at once, without allocating and without changing anything.
    Otherwise, if its allocations succeed, the user dictionary gains exactly
    one entry, a copy of the word, and is in sorted order, the rest of the
    engine being untouched, and learning the same word again right away
    changes nothing; if the first allocation the call asks for fails, the
    entries stay as they were. *)
Theorem AddToUserDictionary_effect (s : SpellChecker) (w : string) (h : heap) :
  (BinarySearchDictionary (userDictionary s) w = true ->
   SpellChecker_AddToUserDictionary (Some s) (Some w) h = (Some s, h)) /\
  (BinarySearchDictionary (userDictionary s) w = false -> allocs_succeed h ->
   exists s' h',
     SpellChecker_AddToUserDictionary (Some s) (Some w) h = (Some s', h') /\
     Permutation (words (userDictionary s'))
       (words (userDictionary s) ++ [strcpy w])%list /\
     dict_sorted (userDictionary s') /\
     mainDictionary s' = mainDictionary s /\
     ignoredWords s' = ignoredWords s /\
     misspelled s' = misspelled s /\
     SpellChecker_AddToUserDictionary (Some s') (Some w) h' = (Some s', h')) /\
  (fst (alloc h) = false ->
   words (user_of (fst (SpellChecker_AddToUserDictionary (Some s) (Some w) h))) =
   words (userDictionary s)).
Proof.
  split; [|split].
  - intros E. unfold SpellChecker_AddToUserDictionary. rewrite E. reflexivity.
  - intros E Hh. unfold SpellChecker_AddToUserDictionary at 1. rewrite E.
    destruct (Dictionary_push_succeeds (userDictionary s) w h Hh)
      as (d' & h' & -> & Hw & Hh'). cbn [negb].
    eexists _, h'. split; [reflexivity|].
    cbn [mainDictionary userDictionary misspelled ignoredWords set_userDictionary].
    assert (Hp : Permutation (words (Dictionary_sort d'))
                   (words (userDictionary s) ++ [strcpy w])%list)
      by (rewrite Dictionary_sort_perm, Hw; reflexivity).
    repeat split; [exact Hp | apply Dictionary_sort_sorted |].
    unfold SpellChecker_AddToUserDictionary.
    cbn [userDictionary set_userDictionary].
    rewrite (proj2 (BinarySearchDictionary_spec (Dictionary_sort d') w
                      (Dictionary_sort_sorted d'))); [reflexivity|].
    unfold dict_contains. rewrite Hp. apply Exists_app. right.
    constructor. apply lower_key_strcpy.
  - intros Ha. unfold SpellChecker_AddToUserDictionary.
    destruct (BinarySearchDictionary (userDictionary s) w); [reflexivity|].
    unfold Dictionary_push, Dictionary_grow.
    destruct (capacity (userDictionary s) <=? count (userDictionary s)).
    + destruct (alloc h) as [ok h1]. cbn [fst] in Ha. subst ok. reflexivity.
    + cbn [negb]. destruct (alloc h) as [ok h1]. cbn [fst] in Ha. subst ok.
      reflexivity.
Qed.

Lemma AddToUserDictionary_effect_witness :
  exists s' h',
    SpellChecker_AddToUserDictionary (Some sc_precedence) (Some "Colour") [] =
      (Some s', h') /\
    Permutation (words (userDictionary s'))
      (words (userDictionary sc_precedence) ++ [strcpy "Colour"])%list /\
    dict_sorted (userDictionary s') /\
    mainDictionary s' = mainDictionary sc_precedence /\
    ignoredWords s' = ignoredWords sc_precedence /\
    misspelled s' = misspelled sc_precedence /\
    SpellChecker_AddToUserDictionary (Some s') (Some "Colour") h' = (Some s', h').
Proof.
  apply (proj1 (proj2 (AddToUserDictionary_effect sc_precedence "Colour" []))).
  - vm_compute. reflexivity.
  - constructor.
Defined.

(** ** Creating and checking: edge cases *)

(** Settles one shape of the oracle in [Create_result]: either the engine is
    returned and the verdicts read are all true, or neither holds. *)
Ltac create_case :=
  cbn;
  split;
  [ intros Hne; try (exfalso; apply Hne; reflexivity); repeat constructor
  | intros Hall; try discriminate;
    repeat (inversion_clear Hall as [|? ? ? Hall'];
            try discriminate; rename Hall' into Hall) ].

(** X14. [SpellChecker_Create] returns an engine exactly when its five
    allocations all succeed, and NULL otherwise.  The engine it returns has
    checking enabled, empty word arrays and an empty misspelled list, so it
    judges every non-empty word misspelled. *)
Theorem Create_result (h : heap) :
  (fst (SpellChecker_Create h) <> None <-> allocs_succeed (take 5 h)) /\
  (forall s, fst (SpellChecker_Create h) = Some s ->
     s = sc_fresh /\ engine_sorted s /\
     forall w, SpellChecker_IsWordCorrect (Some s) (Some w) = true <->
               strlen w = O).
Proof.
  split.
  - unfold SpellChecker_Create, allocs_succeed.
    destruct h as [|b0 h]; [create_case|].
    destruct b0; [|create_case].
    destruct h as [|b1 h]; [create_case|].
    destruct h as [|b2 h]; [destruct b1; create_case|].
    destruct h as [|b3 h]; [destruct b1, b2; create_case|].
    destruct h as [|b4 h]; [destruct b1, b2, b3; create_case|].
    destruct b1, b2, b3, b4; create_case.
  - intros s Hs.
    assert (E : s = sc_fresh).
    { unfold SpellChecker_Create in Hs.
      destruct (alloc h) as [[|] h0]; cbn [negb fst] in Hs; [|discriminate].
      destruct (alloc h0) as [ok1 h1]. destruct (alloc h1) as [ok2 h2].
      destruct (alloc h2) as [ok3 h3]. destruct (alloc h3) as [ok4 h4].
      destruct (ok1 && ok2 && ok3 && ok4); cbn [fst] in Hs; [|discriminate].
      injection Hs as <-. reflexivity. }
    subst s. split; [reflexivity|]. split.
    + repeat split; constructor.
    + intros w. unfold SpellChecker_IsWordCorrect.
      destruct (strlen w =? 0)%nat eqn:E0.
      * apply Nat.eqb_eq in E0. tauto.
      * apply Nat.eqb_neq in E0. cbn. split; [discriminate | tauto].
Qed.

Lemma Create_result_witness :
  sc_fresh = sc_fresh /\ engine_sorted sc_fresh /\
  forall w, SpellChecker_IsWordCorrect (Some sc_fresh) (Some w) = true <->
            strlen w = O.
Proof.
  apply (proj2 (Create_result [true; true; true; true; true]) sc_fresh).
  reflexivity.
Defined.



(** ** Checking: what the records are *)

Lemma skip_nonalpha_drop ptr : forall pos,
  exists j, (j <= String.length ptr)%nat /\
            skip_nonalpha ptr pos = (str_drop j ptr, advance pos j) /\
            (deref (str_drop j ptr) <> 0 ->
             isalpha (deref (str_drop j ptr)) = true).
Proof.
  induction ptr as [|c r IH]; intros pos; cbn [skip_nonalpha].
  - exists O. split; [simpl; lia|]. split; [reflexivity|]. simpl. congruence.
  - destruct (negb (uchar c =? 0) && negb (isalpha (uchar c))) eqn:E.
    + destruct (IH (DWORD_incr pos)) as (j & Hj & -> & Hs).
      exists (S j). split; [simpl; lia|]. rewrite advance_incr.
      split; [reflexivity | exact Hs].
    + exists O. split; [simpl; lia|]. split; [reflexivity|].
      cbn [str_drop deref]. intros H0. apply Z.eqb_neq in H0. rewrite H0 in E.
      cbn [negb andb] in E. destruct (isalpha (uchar c)); [reflexivity|discriminate].
Qed.

Lemma extract_word_drop ptr : forall pos w n,
  (n <= 255)%nat ->
  exists j, (j <= String.length ptr)%nat /\ (n + j <= 255)%nat /\
            extract_word ptr pos w n =
              (str_drop j ptr, advance pos j, (w ++ str_take j ptr)%string) /\
            all_alpha (str_take j ptr) = true /\
            (deref ptr <> 0 -> isalpha (deref ptr) = true -> (n < 255)%nat ->
             (1 <= j)%nat).
Proof.
  induction ptr as [|c r IH]; intros pos w n Hn; cbn [extract_word].
  - exists O. rewrite string_app_nil_r. repeat split; simpl; try lia; congruence.
  - destruct (negb (uchar c =? 0) && isalpha (uchar c) && (n <? 255)%nat) eqn:E.
    + apply andb_true_iff in E as [E E3]. apply andb_true_iff in E as [_ E2].
      apply Nat.ltb_lt in E3.
      destruct (IH (DWORD_incr pos) (w ++ String c "")%string (S n) ltac:(lia))
        as (j & Hj & Hb & -> & Ha & _).
      exists (S j). split; [simpl; lia|]. split; [lia|].
      cbn [str_drop str_take all_alpha]. rewrite E2, Ha, advance_incr.
      rewrite string_app_assoc. repeat split. lia.
    + exists O. rewrite string_app_nil_r. repeat split; simpl; try lia.
      intros H0 Ha Hlt. apply Z.eqb_neq in H0. apply Nat.ltb_lt in Hlt.
      rewrite H0, Ha, Hlt in E. discriminate.
Qed.

Lemma str_drop_drop j : forall k s, str_drop j (str_drop k s) = str_drop (k + j) s.
Proof.
  intros k. induction k as [|k IH]; intros s; [reflexivity|].
  destruct s as [|c r]; [destruct j; reflexivity|]. cbn [str_drop Nat.add]. apply IH.
Qed.

Lemma substring_take_drop a : forall n s,
  substring a n s = str_take n (str_drop a s).
Proof.
  induction a as [|a IH]; intros n s.
  - cbn [str_drop]. revert s. induction n as [|n IHn]; intros [|c r];
      cbn [substring str_take]; try reflexivity. rewrite IHn. reflexivity.
  - destruct s as [|c r]; [destruct n; reflexivity|].
    cbn [substring str_drop]. apply IH.
Qed.

(** The tokens scanned from byte [k] of the text on: each is a token of the
    text starting at or after [k], and each ends before the next starts. *)
Lemma tokens_loop_slices text fuel : forall k,
  Z.of_nat (String.length text) < 2 ^ 32 ->
  (k <= String.length text)%nat ->
  Forall (fun m => token_of text m /\ Z.of_nat k <= startPos m)
    (tokens_loop fuel (str_drop k text) (Z.of_nat k)) /\
  StronglySorted token_before
    (tokens_loop fuel (str_drop k text) (Z.of_nat k)).
Proof.
  induction fuel as [|fuel IH]; intros k Hw Hk; cbn [tokens_loop];
    [split; constructor|].
  destruct (deref (str_drop k text) =? 0); [split; constructor|].
  destruct (skip_nonalpha_drop (str_drop k text) (Z.of_nat k))
    as (j1 & Hj1 & -> & Hstop).
  rewrite length_str_drop in Hj1. rewrite str_drop_drop in *.
  rewrite advance_nowrap by lia. rewrite <- Nat2Z.inj_add.
  set (a := (k + j1)%nat) in *.
  destruct (deref (str_drop a text) =? 0) eqn:E1; [split; constructor|].
  apply Z.eqb_neq in E1.
  destruct (extract_word_drop (str_drop a text) (Z.of_nat a) "" 0 ltac:(lia))
    as (j2 & Hj2 & Hb2 & E & Ha & Hpos).
  specialize (Hpos E1 (Hstop E1) ltac:(lia)).
  rewrite length_str_drop in Hj2. rewrite E. cbn [append].
  rewrite str_drop_drop. rewrite advance_nowrap by lia.
  rewrite <- Nat2Z.inj_add. set (b := (a + j2)%nat).
  destruct (IH b Hw ltac:(unfold b, a; lia)) as [IH1 IH2].
  rewrite strcpy_no_nul by (apply all_alpha_no_nul, Ha).
  assert (Htok : token_of text
                   (mkMisspelledWord (str_take j2 (str_drop a text))
                      (Z.of_nat a) (Z.of_nat b))).
  { exists a, b. cbn [startPos endPos word].
    replace (b - a)%nat with j2 by (unfold b; lia).
    rewrite substring_take_drop. repeat split; try (unfold b, a; lia).
    exact Ha. }
  split.
  - constructor; [split; [exact Htok | cbn [startPos]; unfold a; lia]|].
    eapply Forall_impl; [exact IH1|]. intros m [Hm Hs]. split; [exact Hm|].
    unfold b, a in Hs. lia.
  - constructor; [exact IH2|].
    eapply Forall_impl; [exact IH1|]. intros m [_ Hs].
    unfold token_before. cbn [endPos]. exact Hs.
Qed.

Lemma StronglySorted_take {A : Type} (R : A -> A -> Prop) (l : list A) k :
  StronglySorted R l -> StronglySorted R (take k l).
Proof.
  intros H. rewrite <- (take_drop k l) in H.
  apply StronglySorted_app_1_l in H. exact H.
Qed.

Lemma StronglySorted_filter {A : Type} (R : A -> A -> Prop) (P : A -> Prop)
    `{!forall x, Decision (P x)} (l : list A) :
  StronglySorted R l -> StronglySorted R (filter P l).
Proof.
  induction 1 as [|x l Hs IH Hx]; [constructor|].
  rewrite filter_cons. destruct (decide (P x)); [|exact IH].
  constructor; [exact IH|].
  rewrite Forall_forall in Hx |- *. intros y Hy.
  apply list_elem_of_filter in Hy as [_ Hy]. apply Hx, Hy.
Qed.

(** Whatever the allocations do, the loop appends an initial part of the
    misspelled tokens: a failed [realloc] only cuts the list short. *)
Lemma Check_loop_prefix fuel : forall s ptr pos h,
  (String.length ptr < fuel)%nat ->
  exists s' h' k,
    Check_loop fuel s ptr pos h = Some (s', h') /\
    m_words (misspelled s') =
      (m_words (misspelled s) ++
       take k (filter (fun m => is_misspelled s m = true)
                 (tokens_loop fuel ptr pos)))%list.
Proof.
  induction fuel as [|fuel IH]; intros s ptr pos h Hf; [lia|].
  cbn [Check_loop tokens_loop].
  destruct (deref ptr =? 0).
  { exists s, h, O. rewrite app_nil_r. auto. }
  pose proof (skip_nonalpha_length ptr pos) as Hl1.
  pose proof (skip_nonalpha_stops ptr pos) as Hs1.
  destruct (skip_nonalpha ptr pos) as [ptr1 pos1]. simpl in Hl1, Hs1.
  destruct (deref ptr1 =? 0) eqn:E1.
  { exists s, h, O. rewrite app_nil_r. auto. }
  apply Z.eqb_neq in E1.
  pose proof (extract_word_progress ptr1 pos1 E1 (Hs1 E1)) as Hl2.
  destruct (extract_word ptr1 pos1 "" 0) as [[ptr2 pos2] w]. simpl in Hl2.
  rewrite filter_cons.
  set (entry := mkMisspelledWord (strcpy w) pos1 pos2).
  assert (Em : is_misspelled s entry =
               negb (SpellChecker_IsWordCorrect (Some s) (Some w))).
  { unfold is_misspelled, entry. cbn [word].
    rewrite IsWordCorrect_strcpy. reflexivity. }
  destruct (SpellChecker_IsWordCorrect (Some s) (Some w)) eqn:Ec;
    cbn [negb] in *.
  - rewrite decide_False by (rewrite Em; discriminate).
    apply IH. lia.
  - rewrite decide_True by exact Em.
    destruct (m_capacity (misspelled s) <=? m_count (misspelled s)).
    + destruct (alloc h) as [[|] h1]; cbn [negb].
      * edestruct (IH (set_misspelled s
                  (mkMisspelledWordList
                     (m_words (mkMisspelledWordList (m_words (misspelled s))
                                 (m_capacity (misspelled s) * 2)) ++ [entry])
                     (m_capacity (mkMisspelledWordList (m_words (misspelled s))
                                    (m_capacity (misspelled s) * 2)))))
                  ptr2 pos2 h1) as (s' & h' & k & E & Hw); [lia|].
        exists s', h', (S k). split; [exact E|].
        rewrite Hw. cbn [misspelled set_misspelled m_words take].
        rewrite <- app_assoc. cbn [app].
        erewrite is_misspelled_frame; [reflexivity | repeat split].
      * eexists _, h1, O. split; [reflexivity|].
        cbn [misspelled set_misspelled m_words take]. rewrite app_nil_r.
        reflexivity.
    + edestruct (IH (set_misspelled s
                  (mkMisspelledWordList (m_words (misspelled s) ++ [entry])
                     (m_capacity (misspelled s))))
                  ptr2 pos2 h) as (s' & h' & k & E & Hw); [lia|].
      exists s', h', (S k). split; [exact E|].
      rewrite Hw. cbn [misspelled set_misspelled m_words take].
      rewrite <- app_assoc. cbn [app].
      erewrite is_misspelled_frame; [reflexivity | repeat split].
Qed.

Lemma Check_prefix s text h :
  exists s' h' k,
    SpellChecker_Check (Some s) (Some text) h = (Some s', h') /\
    m_words (misspelled s') =
      take k (filter (fun m => is_misspelled s m = true) (tokenize text)).
Proof.
  unfold SpellChecker_Check.
  destruct (negb (enabled s)); [eexists _, h, O; split; reflexivity|].
  destruct (deref text =? 0); [eexists _, h, O; split; reflexivity|].
  destruct (only_whitespace text); [eexists _, h, O; split; reflexivity|].
  destruct (Check_loop_prefix (S (String.length text)) (reset_misspelled s)
              text 0 h ltac:(lia)) as (s' & h' & k & E & Hw).
  rewrite E. exists s', h', k. split; [reflexivity|].
  rewrite Hw. cbn [reset_misspelled set_misspelled misspelled m_words app].
  erewrite is_misspelled_frame; [reflexivity | repeat split].
Qed.

(** X16. Whatever the allocations do, every record left by
    [SpellChecker_Check] on a text shorter than [2^32] bytes describes a real
    token of that text: its offsets delimit a non-empty stretch of at most 255
    bytes, all alphabetic, its word is exactly that stretch, and the engine
    judges the word misspelled.  The records come in text order and do not
    overlap. *)
Theorem Check_records_are_tokens (s : SpellChecker) (text : string) (h : heap)
    (s' : SpellChecker) (h' : heap) :
  Z.of_nat (String.length text) < 2 ^ 32 ->
  SpellChecker_Check (Some s) (Some text) h = (Some s', h') ->
  Forall (fun m => token_of text m /\ is_misspelled s m = true)
    (m_words (misspelled s')) /\
  StronglySorted token_before (m_words (misspelled s')).
Proof.
  intros Hw E.
  destruct (Check_prefix s text h) as (s1 & h1 & k & E1 & Hm).
  rewrite E in E1. injection E1 as <- <-. rewrite Hm.
  destruct (tokens_loop_slices text (S (String.length text)) 0 Hw ltac:(lia))
    as [Ht Hs].
  change (tokens_loop (S (String.length text)) (str_drop 0 text) (Z.of_nat 0))
    with (tokenize text) in Ht, Hs.
  split.
  - apply Forall_take. rewrite Forall_forall in Ht |- *. intros m Hin.
    apply list_elem_of_filter in Hin as [Hmis Hin].
    split; [apply (Ht m Hin) | exact Hmis].
  - apply StronglySorted_take, StronglySorted_filter, Hs.
Qed.

Lemma Check_records_are_tokens_witness :
  exists s' h',
    SpellChecker_Check (Some sc_precedence) (Some "hello wrold xyz") [] =
      (Some s', h') /\
    Forall (fun m => token_of "hello wrold xyz" m /\
                     is_misspelled sc_precedence m = true)
      (m_words (misspelled s')) /\
    StronglySorted token_before (m_words (misspelled s')).
Proof.
  eexists _, _. split; [vm_compute; reflexivity|].
  eapply (Check_records_are_tokens sc_precedence "hello wrold xyz" []).
  - vm_compute. reflexivity.
  - vm_compute. reflexivity.
Defined.

(** ** Looking a position up: results *)

Lemma covers_test pos m :
  (startPos m <=? pos) && (pos <? endPos m) = true <-> covers pos m.
Proof. unfold covers. rewrite andb_true_iff, Z.leb_le, Z.ltb_lt. reflexivity. Qed.

(** X17. [SpellChecker_IsMisspelledAtPosition] returns TRUE exactly when the
    position lies in the interval [start, end) of some record of the
    misspelled list.  On a hit with a buffer and a positive buffer length, the
    buffer receives the word of the first such record cut to
    [outWordLen - 1] bytes; in every other case the buffer is left as it
    was.  A NULL engine gives FALSE. *)
Theorem IsMisspelledAtPosition_spec (s : SpellChecker) (pos : Z)
    (outWord : option string) (outWordLen : Z) :
  let r := SpellChecker_IsMisspelledAtPosition (Some s) pos outWord outWordLen in
  (fst r = true <-> Exists (covers pos) (m_words (misspelled s))) /\
  (fst r = false \/ outWord = None \/ outWordLen <= 0 -> snd r = outWord) /\
  (fst r = true -> outWord <> None -> 0 < outWordLen ->
   exists before m after,
     m_words (misspelled s) = (before ++ m :: after)%list /\
     Forall (fun m' => ~ covers pos m') before /\ covers pos m /\
     snd r = Some (str_take (Z.to_nat (outWordLen - 1)) (strcpy (word m)))) /\
  SpellChecker_IsMisspelledAtPosition None pos outWord outWordLen =
    (false, outWord).
Proof.
  cbv zeta. unfold SpellChecker_IsMisspelledAtPosition.
  split; [|split; [|split; [|reflexivity]]].
  - induction (m_words (misspelled s)) as [|m ms IH];
      cbn [IsMisspelledAtPosition_loop].
    + cbn [fst]. split; [discriminate | intros H; inversion H].
    + destruct ((startPos m <=? pos) && (pos <? endPos m)) eqn:E.
      * apply covers_test in E.
        assert (Ht : forall x y : option string,
                  fst (match outWord with
                       | Some _ => if 0 <? outWordLen then (true, x) else (true, y)
                       | None => (true, y)
                       end) = true).
        { intros x y. destruct outWord; [destruct (0 <? outWordLen)|]; reflexivity. }
        rewrite Ht. split; [intros _; left; exact E | reflexivity].
      * rewrite IH. split; [intros H; right; exact H|].
        intros H. inversion H as [? ? Hc|? ? Hc]; subst; [|exact Hc].
        apply covers_test in Hc. congruence.
  - induction (m_words (misspelled s)) as [|m ms IH];
      cbn [IsMisspelledAtPosition_loop]; [reflexivity|].
    destruct ((startPos m <=? pos) && (pos <? endPos m)); [|exact IH].
    destruct outWord as [b|]; [|reflexivity].
    destruct (0 <? outWordLen) eqn:E; [|reflexivity].
    apply Z.ltb_lt in E. cbn [fst snd]. intros [H|[H|H]];
      [discriminate | discriminate | lia].
  - intros Hr Ho Hn.
    induction (m_words (misspelled s)) as [|m ms IH];
      cbn [IsMisspelledAtPosition_loop] in *; [discriminate|].
    destruct ((startPos m <=? pos) && (pos <? endPos m)) eqn:E.
    + apply covers_test in E. exists [], m, ms.
      split; [reflexivity|]. split; [constructor|]. split; [exact E|].
      destruct outWord as [b|]; [|congruence].
      apply Z.ltb_lt in Hn. rewrite Hn. reflexivity.
    + destruct (IH Hr) as (before & m0 & after & -> & Hb & Hc & Hs).
      exists (m :: before), m0, after. split; [reflexivity|].
      split; [|split; assumption]. constructor; [|exact Hb].
      rewrite <- covers_test. congruence.
Qed.

Lemma IsMisspelledAtPosition_spec_witness :
  exists before m after,
    m_words (misspelled
               (set_misspelled sc_fresh
                  (mkMisspelledWordList
                     [mkMisspelledWord "Ths" 0 3; mkMisspelledWord "tst" 9 12]
                     100))) = (before ++ m :: after)%list /\
    Forall (fun m' => ~ covers 10 m') before /\ covers 10 m /\
    snd (SpellChecker_IsMisspelledAtPosition
           (Some (set_misspelled sc_fresh
                    (mkMisspelledWordList
                       [mkMisspelledWord "Ths" 0 3; mkMisspelledWord "tst" 9 12]
                       100)))
           10 (Some "") 3) =
      Some (str_take (Z.to_nat (3 - 1)) (strcpy (word m))).
Proof.
  apply (proj1 (proj2 (proj2 (IsMisspelledAtPosition_spec
           (set_misspelled sc_fresh
              (mkMisspelledWordList
                 [mkMisspelledWord "Ths" 0 3; mkMisspelledWord "tst" 9 12] 100))
           10 (Some "") 3)))).
  - reflexivity.
  - discriminate.
  - lia.
Defined.

(** ** Saving and loading back *)

Lemma substring_all s : substring 0 (String.length s) s = s.
Proof. induction s as [|c r IH]; simpl; [reflexivity | rewrite IH; reflexivity]. Qed.

Lemma line_entry_safe w : line_safe w -> line_entry false w = [w].
Proof.
  intros (Hn & _ & Hl & Hs). unfold line_entry, trimmed.
  rewrite strlen_no_nul by exact Hn.
  assert (Ht : trim_trailing w (String.length w) = String.length w).
  { destruct (String.length w) as [|k] eqn:E; [lia|].
    cbn [trim_trailing]. replace (S k - 1)%nat with k in Hs by lia.
    rewrite Hs. reflexivity. }
  rewrite Ht, substring_all.
  destruct (String.length w =? 0)%nat eqn:E0; [apply Nat.eqb_eq in E0; lia|].
  cbn [orb andb]. rewrite strcpy_no_nul by exact Hn. reflexivity.
Qed.

Lemma file_entries_write_words f ws :
  Forall line_safe ws ->
  (String.length (write_words ws) < f)%nat ->
  file_entries false f (write_words ws) = ws.
Proof.
  induction 1 as [|w ws Hw Hws IH]; intros Hf.
  - destruct f; [lia | reflexivity].
  - cbn [write_words] in *.
    destruct Hw as (Hn & Hnl & Hl & Hs).
    rewrite strcpy_no_nul in * by exact Hn.
    rewrite (file_entries_line false f w (write_words ws) true)
      by (assumption || lia || discriminate).
    rewrite line_entry_safe by (repeat split; assumption || lia).
    cbn [app]. f_equal. apply IH.
    rewrite !string_length_app in Hf. lia.
Qed.

(** X18. Saving and loading back.  When the file can be opened for writing,
    [SpellChecker_SaveUserDictionary] writes the user dictionary one word per
    line; if every word is line-safe (1 to 255 bytes, no NUL, no newline, not
    ending in white space), loading that file with
    [SpellChecker_LoadUserDictionary], allocations succeeding, adds exactly
    the saved words to the loading engine, and leaves its user dictionary in
    sorted order.  When the file cannot be opened for writing, saving changes
    neither the engine nor the file system. *)
Theorem save_then_load (fs : filesystem) (writable : string -> bool)
    (s t : SpellChecker) (path : string) (h : heap) :
  (writable path = true ->
   Forall line_safe (words (userDictionary s)) -> allocs_succeed h ->
   exists s1 fs1 t' h',
     SpellChecker_SaveUserDictionary fs writable (Some s) (Some path) =
       (Some s1, fs1) /\
     Permutation (words (userDictionary s1)) (words (userDictionary s)) /\
     SpellChecker_LoadUserDictionary fs1 (Some t) (Some path) h =
       (true, Some t', h') /\
     Permutation (words (userDictionary t'))
       (words (userDictionary t) ++ words (userDictionary s))%list /\
     dict_sorted (userDictionary t')) /\
  (writable path = false ->
   SpellChecker_SaveUserDictionary fs writable (Some s) (Some path) =
     (Some s, fs)).
Proof.
  split.
  - intros Hw Hsafe Hh. unfold SpellChecker_SaveUserDictionary. rewrite Hw.
    cbn [negb].
    set (d := Dictionary_sort (userDictionary s)).
    set (fs1 := fun p => if String.eqb p path then Some (write_words (words d))
                         else fs p).
    assert (Hfs : fs1 path = Some (write_words (words d)))
      by (unfold fs1; rewrite String.eqb_refl; reflexivity).
    destruct (LoadUserDictionary_readable fs1 t path _ h Hfs Hh) as (h' & E & _).
    eexists _, fs1, _, h'. split; [reflexivity|].
    cbn [userDictionary set_userDictionary]. fold d.
    split; [apply Dictionary_sort_perm|]. split; [exact E|].
    assert (Hsafe' : Forall line_safe (words d)).
    { unfold d. rewrite Dictionary_sort_perm. exact Hsafe. }
    rewrite file_entries_write_words by (assumption || lia).
    cbn [userDictionary set_userDictionary].
    split.
    + rewrite Dictionary_sort_perm, Dictionary_extend_words.
      unfold d. rewrite Dictionary_sort_perm. reflexivity.
    + apply Dictionary_sort_sorted.
  - intros Hw. unfold SpellChecker_SaveUserDictionary. rewrite Hw. reflexivity.
Qed.

Lemma save_then_load_witness :
  exists s1 fs1 t' h',
    SpellChecker_SaveUserDictionary (one_file "") (fun _ => true)
      (Some (set_userDictionary sc_fresh (mkDictionary ["zebra"; "Colour"] 10)))
      (Some "user.txt") = (Some s1, fs1) /\
    Permutation (words (userDictionary s1)) ["zebra"; "Colour"] /\
    SpellChecker_LoadUserDictionary fs1 (Some sc_fresh) (Some "user.txt") [] =
      (true, Some t', h') /\
    Permutation (words (userDictionary t'))
      (words (userDictionary sc_fresh) ++ ["zebra"; "Colour"])%list /\
    dict_sorted (userDictionary t').
Proof.
  apply (proj1 (save_then_load (one_file "") (fun _ => true)
           (set_userDictionary sc_fresh (mkDictionary ["zebra"; "Colour"] 10))
           sc_fresh "user.txt" [])).
  - reflexivity.
  - cbn [words userDictionary set_userDictionary].
    repeat constructor; simpl; lia.
  - constructor.
Defined.

(** ** Invariants of the interface *)

Lemma Dictionary_extend_fits es : forall d,
  Dictionary_fits d -> Dictionary_fits (Dictionary_extend d es).
Proof.
  induction es as [|e es IH]; intros d Hd; [exact Hd|].
  change (Dictionary_extend d (e :: es))
    with (Dictionary_extend (Dictionary_extend d [e]) es).
  apply IH. destruct Hd as [Hc Hn]. unfold Dictionary_extend, Dictionary_fits, count in *.
  cbn [fold_left capacity words]. rewrite length_app. cbn [length].
  destruct (capacity d <=? Z.of_nat (length (words d))) eqn:E;
    [apply Z.leb_le in E | apply Z.leb_gt in E]; lia.
Qed.

Lemma Dictionary_sort_fits d : Dictionary_fits d -> Dictionary_fits (Dictionary_sort d).
Proof.
  unfold Dictionary_fits, count. intros Hd.
  rewrite (Permutation_length (Dictionary_sort_perm d)).
  unfold Dictionary_sort. destruct (0 <? count d); exact Hd.
Qed.

Lemma Check_loop_fits fuel : forall s ptr pos h s' h',
  allocs_succeed h ->
  0 < m_capacity (misspelled s) ->
  m_count (misspelled s) <= m_capacity (misspelled s) ->
  Check_loop fuel s ptr pos h = Some (s', h') ->
  0 < m_capacity (misspelled s') /\
  m_count (misspelled s') <= m_capacity (misspelled s').
Proof.
  induction fuel as [|fuel IH]; intros s ptr pos h s' h' Hh Hc Hn;
    cbn [Check_loop]; [discriminate|].
  destruct (deref ptr =? 0); [intros [= <- <-]; auto|].
  destruct (skip_nonalpha ptr pos) as [ptr1 pos1].
  destruct (deref ptr1 =? 0); [intros [= <- <-]; auto|].
  destruct (extract_word ptr1 pos1 "" 0) as [[ptr2 pos2] w].
  destruct (negb (SpellChecker_IsWordCorrect (Some s) (Some w)));
    [|apply IH; assumption].
  unfold m_count in *.
  destruct (m_capacity (misspelled s) <=? Z.of_nat (length (m_words (misspelled s))))
    eqn:E.
  - apply Z.leb_le in E.
    destruct (alloc_succeeds h Hh) as (h1 & -> & Hh1). cbn [negb].
    apply IH; [exact Hh1 | |];
      cbn [misspelled set_misspelled m_capacity m_words];
      rewrite ?length_app; cbn [length]; lia.
  - apply Z.leb_gt in E.
    apply IH; [exact Hh | |];
      cbn [misspelled set_misspelled m_capacity m_words];
      rewrite ?length_app; cbn [length]; lia.
Qed.

Ltac engine_split :=
  split; [split; [|split] | split; [|split; [|split; [|split]]]].

Lemma api_step_invariant s s' :
  api_step s s' ->
  engine_sorted s /\ engine_fits s -> engine_sorted s' /\ engine_fits s'.
Proof.
  intros Hstep [(Hm & Hu & Hi) (Fm & Fu & Fi & Fc & Fn)].
  destruct Hstep as
    [fs s path h ok s' h' Hh E | fs s path h ok s' h' Hh E
    | s text h s' h' Hh E | s w h s' h' Hh E | s w h s' h' Hh E
    | s s' E | fs writable s path s' fs' E].
  - destruct path as [path|]; [|injection E as <- <- <-; engine_split; assumption].
    destruct (fs path) as [file|] eqn:Ef.
    + destruct (LoadDictionary_readable fs s path file h Ef Hh) as (h1 & E1 & _).
      rewrite E1 in E. injection E as <- <- <-.
      engine_split; cbn [mainDictionary userDictionary ignoredWords misspelled
                           set_mainDictionary]; try assumption;
        try apply Dictionary_sort_sorted;
        try (apply Dictionary_sort_fits, Dictionary_extend_fits; assumption).
    + unfold SpellChecker_LoadDictionary in E. rewrite Ef in E.
      injection E as <- <- <-. engine_split; assumption.
  - destruct path as [path|]; [|injection E as <- <- <-; engine_split; assumption].
    destruct (fs path) as [file|] eqn:Ef.
    + destruct (LoadUserDictionary_readable fs s path file h Ef Hh) as (h1 & E1 & _).
      rewrite E1 in E. injection E as <- <- <-.
      engine_split; cbn [mainDictionary userDictionary ignoredWords misspelled
                           set_userDictionary]; try assumption;
        try apply Dictionary_sort_sorted;
        try (apply Dictionary_sort_fits, Dictionary_extend_fits; assumption).
    + unfold SpellChecker_LoadUserDictionary in E. rewrite Ef in E.
      injection E as <- <- <-. engine_split; assumption.
  - pose proof (Check_frame (Some s) text h) as F. cbv beta iota in F.
    rewrite E in F. cbn [fst] in F. destruct F as (Em & Eu & Ei & _ & _).
    assert (Hfit : 0 < m_capacity (misspelled s') /\
                   m_count (misspelled s') <= m_capacity (misspelled s')).
    { unfold SpellChecker_Check in E.
      assert (Hr : 0 < m_capacity (misspelled (reset_misspelled s)) /\
                   m_count (misspelled (reset_misspelled s)) <=
                   m_capacity (misspelled (reset_misspelled s)))
        by (unfold m_count; cbn; lia).
      destruct (negb (enabled s)); [injection E as <- <-; exact Hr|].
      destruct text as [text|]; [|injection E as <- <-; exact Hr].
      destruct (deref text =? 0); [injection E as <- <-; exact Hr|].
      destruct (only_whitespace text); [injection E as <- <-; exact Hr|].
      destruct (Check_loop _ _ _ _ _) as [[s1 h1]|] eqn:El;
        [|injection E as <- <-; exact Hr].
      injection E as <- <-.
      eapply Check_loop_fits; [exact Hh | | | exact El]; apply Hr. }
    unfold engine_sorted, engine_fits. rewrite Em, Eu, Ei.
    engine_split; try assumption; apply Hfit.
  - destruct w as [w|]; [|injection E as <- <-; engine_split; assumption].
    unfold SpellChecker_AddToUserDictionary in E.
    destruct (BinarySearchDictionary (userDictionary s) w);
      [injection E as <- <-; engine_split; assumption|].
    destruct (Dictionary_push_extend (userDictionary s) w h Hh) as (h1 & E1 & _).
    rewrite E1 in E. cbn [negb] in E. injection E as <- <-.
    engine_split; cbn [mainDictionary userDictionary ignoredWords misspelled
                         set_userDictionary]; try assumption;
      try apply Dictionary_sort_sorted;
      try (apply Dictionary_sort_fits, (Dictionary_extend_fits [strcpy w]);
           assumption).
  - destruct w as [w|]; [|injection E as <- <-; engine_split; assumption].
    unfold SpellChecker_AddToIgnoreList in E.
    destruct (BinarySearchDictionary (ignoredWords s) w);
      [injection E as <- <-; engine_split; assumption|].
    destruct (Dictionary_push_extend (ignoredWords s) w h Hh) as (h1 & E1 & _).
    rewrite E1 in E. cbn [negb] in E. injection E as <- <-.
    engine_split; cbn [mainDictionary userDictionary ignoredWords misspelled
                         set_ignoredWords]; try assumption;
      try apply Dictionary_sort_sorted;
      try (apply Dictionary_sort_fits, (Dictionary_extend_fits [strcpy w]);
           assumption).
  - injection E as <-.
    engine_split; cbn [mainDictionary userDictionary ignoredWords misspelled
                         set_ignoredWords capacity]; try assumption;
      try constructor; try (unfold count; cbn; destruct Fi; lia).
  - destruct path as [path|]; [|injection E as <- <-; engine_split; assumption].
    unfold SpellChecker_SaveUserDictionary in E.
    destruct (negb (writable path));
      [injection E as <- <-; engine_split; assumption|].
    injection E as <- <-.
    engine_split; cbn [mainDictionary userDictionary ignoredWords misspelled
                         set_userDictionary]; try assumption;
      try apply Dictionary_sort_sorted;
      try (apply Dictionary_sort_fits; assumption).
Qed.

(** ** Looking a position up after a check *)

Lemma deref_str_drop i : forall s, deref (str_drop i s) = char_at s i.
Proof.
  induction i as [|i IH]; intros [|c r]; try reflexivity.
  cbn [str_drop]. rewrite IH. reflexivity.
Qed.

Lemma no_nul_char_at s : forall i,
  no_nul s = true -> (i < String.length s)%nat -> char_at s i <> 0.
Proof.
  induction s as [|c r IH]; intros i H Hi; [simpl in Hi; lia|].
  simpl in H. apply andb_true_iff in H as [Hc Hr].
  destruct i as [|i].
  - unfold char_at. cbn. apply negb_true_iff, Z.eqb_neq in Hc. exact Hc.
  - change (char_at (String c r) (S i)) with (char_at r i).
    apply IH; [exact Hr | simpl in Hi; lia].
Qed.

Lemma all_alpha_char_at s : forall i,
  all_alpha s = true -> (i < String.length s)%nat -> isalpha (char_at s i) = true.
Proof.
  induction s as [|c r IH]; intros i H Hi; [simpl in Hi; lia|].
  simpl in H. apply andb_true_iff in H as [Hc Hr].
  destruct i as [|i]; [exact Hc|].
  change (char_at (String c r) (S i)) with (char_at r i).
  apply IH; [exact Hr | simpl in Hi; lia].
Qed.

Lemma char_at_str_take n : forall s i,
  (i < n)%nat -> char_at (str_take n s) i = char_at s i.
Proof.
  induction n as [|n IH]; intros s i Hi; [lia|].
  destruct s as [|c r]; [reflexivity|]. cbn [str_take].
  destruct i as [|i]; [reflexivity|].
  change (char_at (String c (str_take n r)) (S i)) with (char_at (str_take n r) i).
  change (char_at (String c r) (S i)) with (char_at r i).
  apply IH. lia.
Qed.

Lemma length_str_take n : forall s,
  String.length (str_take n s) = Nat.min n (String.length s).
Proof.
  induction n as [|n IH]; intros [|c r]; simpl; try reflexivity.
  rewrite IH. reflexivity.
Qed.

(** Every byte inside a token is alphabetic. *)
Lemma token_of_alpha text m i :
  token_of text m -> covers (Z.of_nat i) m -> isalpha (char_at text i) = true.
Proof.
  intros (a & b & Ha & Hb & Hab & _ & Hw & Hal) [H1 H2].
  rewrite Ha in H1. rewrite Hb in H2.
  rewrite Hw, substring_take_drop in Hal.
  pose proof (all_alpha_char_at _ (i - a)%nat Hal) as H.
  rewrite length_str_take, length_str_drop in H.
  rewrite char_at_str_take in H by lia.
  rewrite <- deref_str_drop, str_drop_drop in H.
  replace (a + (i - a))%nat with i in H by lia.
  rewrite deref_str_drop in H. apply H. lia.
Qed.

(** The skipping loop passes over non-alphabetic bytes only and stops at the
    terminator or at an alphabetic byte. *)
Lemma skip_nonalpha_scan ptr : forall pos,
  exists j, (j <= String.length ptr)%nat /\
            skip_nonalpha ptr pos = (str_drop j ptr, advance pos j) /\
            (deref (str_drop j ptr) <> 0 ->
             isalpha (deref (str_drop j ptr)) = true) /\
            (forall i, (i < j)%nat -> isalpha (char_at ptr i) = false).
Proof.
  induction ptr as [|c r IH]; intros pos; cbn [skip_nonalpha].
  - exists O. split; [simpl; lia|]. split; [reflexivity|].
    split; [simpl; congruence|]. intros i Hi. lia.
  - destruct (negb (uchar c =? 0) && negb (isalpha (uchar c))) eqn:E.
    + destruct (IH (DWORD_incr pos)) as (j & Hj & -> & Hstop & Hs).
      exists (S j). split; [simpl; lia|]. rewrite advance_incr.
      split; [reflexivity|]. split; [exact Hstop|]. intros [|i] Hi.
      * apply andb_true_iff in E as [_ E]. apply negb_true_iff in E. exact E.
      * change (char_at (String c r) (S i)) with (char_at r i). apply Hs. lia.
    + exists O. split; [simpl; lia|]. split; [reflexivity|]. split.
      * cbn [str_drop deref]. intros H0. apply Z.eqb_neq in H0. rewrite H0 in E.
        cbn [negb andb] in E.
        destruct (isalpha (uchar c)); [reflexivity|discriminate].
      * intros i Hi. lia.
Qed.

(** Scanning from byte [k] on, every alphabetic byte at or after [k] falls
    inside one of the tokens. *)
Lemma tokens_loop_covers text fuel : forall k,
  Z.of_nat (String.length text) < 2 ^ 32 ->
  no_nul text = true ->
  (k <= String.length text)%nat ->
  (String.length text - k < fuel)%nat ->
  forall i, (k <= i < String.length text)%nat ->
    isalpha (char_at text i) = true ->
    Exists (covers (Z.of_nat i)) (tokens_loop fuel (str_drop k text) (Z.of_nat k)).
Proof.
  induction fuel as [|fuel IH]; intros k Hw Hn Hk Hf i Hi Hal; [lia|].
  cbn [tokens_loop].
  destruct (deref (str_drop k text) =? 0) eqn:E0.
  { apply Z.eqb_eq in E0. rewrite deref_str_drop in E0.
    exfalso. apply (no_nul_char_at text k Hn); [lia | exact E0]. }
  destruct (skip_nonalpha_scan (str_drop k text) (Z.of_nat k))
    as (j1 & Hj1 & -> & Hstop & Hskip).
  rewrite length_str_drop in Hj1. rewrite str_drop_drop in *.
  rewrite advance_nowrap by lia. rewrite <- Nat2Z.inj_add.
  set (a := (k + j1)%nat) in *.
  assert (Hai : (a <= i)%nat).
  { destruct (le_lt_dec a i) as [H|H]; [exact H|]. exfalso.
    specialize (Hskip (i - k)%nat ltac:(unfold a in H; lia)).
    rewrite <- deref_str_drop, str_drop_drop in Hskip.
    replace (k + (i - k))%nat with i in Hskip by lia.
    rewrite deref_str_drop in Hskip. congruence. }
  assert (Hd : deref (str_drop a text) <> 0).
  { rewrite deref_str_drop. apply no_nul_char_at; [exact Hn | lia]. }
  destruct (deref (str_drop a text) =? 0) eqn:E1;
    [apply Z.eqb_eq in E1; contradiction|].
  destruct (extract_word_drop (str_drop a text) (Z.of_nat a) "" 0 ltac:(lia))
    as (j2 & Hj2 & Hb2 & E & Ha & Hpos).
  specialize (Hpos Hd (Hstop Hd) ltac:(lia)).
  rewrite length_str_drop in Hj2. rewrite E.
  rewrite str_drop_drop. rewrite advance_nowrap by lia.
  rewrite <- Nat2Z.inj_add. set (b := (a + j2)%nat).
  destruct (le_lt_dec b i) as [Hbi|Hbi].
  - apply Exists_cons_tl.
    apply IH; try assumption; unfold b, a in *; lia.
  - apply Exists_cons_hd. unfold covers. cbn [startPos endPos]. lia.
Qed.

(** In a list of non-empty intervals each ending before the next starts, a
    position lies in at most one. *)
Lemma covers_unique pos (l : list MisspelledWord) :
  StronglySorted token_before l ->
  forall m m', m ∈ l -> m' ∈ l -> covers pos m -> covers pos m' -> m = m'.
Proof.
  induction 1 as [|x l Hs IH Hx]; intros m m' Hm Hm' Hc Hc';
    [inversion Hm|].
  rewrite Forall_forall in Hx.
  apply elem_of_cons in Hm as [->|Hm]; apply elem_of_cons in Hm' as [->|Hm'].
  - reflexivity.
  - exfalso. specialize (Hx m' Hm'). unfold token_before, covers in *. lia.
  - exfalso. specialize (Hx m Hm). unfold token_before, covers in *. lia.
  - apply IH; assumption.
Qed.

Lemma IsMisspelledAtPosition_hit ms pos outWord outWordLen :
  fst (IsMisspelledAtPosition_loop ms pos outWord outWordLen) = true <->
  Exists (covers pos) ms.
Proof.
  induction ms as [|m ms IH]; cbn [IsMisspelledAtPosition_loop].
  - cbn [fst]. split; [discriminate | intros H; inversion H].
  - destruct ((startPos m <=? pos) && (pos <? endPos m)) eqn:E.
    + apply covers_test in E.
      split; [intros _; left; exact E|]. intros _.
      destruct outWord; [destruct (0 <? outWordLen)|]; reflexivity.
    + rewrite IH. split; [intros H; right; exact H|].
      intros H. inversion H as [? ? Hc|? ? Hc]; subst; [|exact Hc].
      apply covers_test in Hc. congruence.
Qed.

(** X20. Position lookup after a check.  With checking enabled and
    allocations succeeding, on a text without NUL bytes shorter than [2^32]
    bytes, [SpellChecker_IsMisspelledAtPosition] called after
    [SpellChecker_Check] answers FALSE at every non-alphabetic byte of the
    text, and at an alphabetic byte it answers whether the token around that
    byte is misspelled: there is a token of the text containing the byte, and
    the answer is TRUE exactly when the engine judges its word incorrect. *)
Theorem lookup_after_check (s : SpellChecker) (text : string) (h : heap)
    (s' : SpellChecker) (h' : heap) (i : nat) (outWord : option string)
    (outWordLen : Z) :
  enabled s = true -> allocs_succeed h -> no_nul text = true ->
  Z.of_nat (String.length text) < 2 ^ 32 ->
  SpellChecker_Check (Some s) (Some text) h = (Some s', h') ->
  (i < String.length text)%nat ->
  let answer :=
    fst (SpellChecker_IsMisspelledAtPosition (Some s') (Z.of_nat i)
           outWord outWordLen) in
  (isalpha (char_at text i) = false -> answer = false) /\
  (isalpha (char_at text i) = true ->
   exists m, token_of text m /\ covers (Z.of_nat i) m /\
             answer = negb (SpellChecker_IsWordCorrect (Some s) (Some (word m)))).
Proof.
  intros He Hh Hn Hw E Hi answer. subst answer.
  destruct (Check_records s text h He Hh) as (s1 & h1 & E1 & _ & Hm).
  rewrite E in E1. injection E1 as <- <-.
  destruct (tokens_loop_slices text (S (String.length text)) 0 Hw ltac:(lia))
    as [Ht Hs].
  change (tokens_loop (S (String.length text)) (str_drop 0 text) (Z.of_nat 0))
    with (tokenize text) in Ht, Hs.
  rewrite Forall_forall in Ht.
  unfold SpellChecker_IsMisspelledAtPosition. rewrite Hm.
  split.
  - intros Hna.
    destruct (fst (IsMisspelledAtPosition_loop _ _ _ _)) eqn:Ea; [|reflexivity].
    apply IsMisspelledAtPosition_hit, Exists_exists in Ea as (m & Hin & Hc).
    apply list_elem_of_filter in Hin as [_ Hin].
    pose proof (token_of_alpha text m i (proj1 (Ht m Hin)) Hc). congruence.
  - intros Hal.
    pose proof (tokens_loop_covers text (S (String.length text)) 0 Hw Hn
                  ltac:(lia) ltac:(lia) i ltac:(lia) Hal) as Hex.
    change (tokens_loop (S (String.length text)) (str_drop 0 text) (Z.of_nat 0))
      with (tokenize text) in Hex.
    apply Exists_exists in Hex as (m & Hin & Hc).
    exists m. split; [apply (Ht m Hin)|]. split; [exact Hc|].
    destruct (SpellChecker_IsWordCorrect (Some s) (Some (word m))) eqn:Ec;
      cbn [negb].
    + destruct (fst (IsMisspelledAtPosition_loop _ _ _ _)) eqn:Ea; [|reflexivity].
      apply IsMisspelledAtPosition_hit, Exists_exists in Ea as (m' & Hin' & Hc').
      apply list_elem_of_filter in Hin' as [Hmis Hin'].
      assert (m = m') by (eapply covers_unique; eassumption). subst m'.
      unfold is_misspelled in Hmis. rewrite Ec in Hmis. discriminate.
    + apply IsMisspelledAtPosition_hit, Exists_exists. exists m.
      split; [|exact Hc]. apply list_elem_of_filter. split; [|exact Hin].
      unfold is_misspelled. rewrite Ec. reflexivity.
Qed.

Lemma lookup_after_check_witness :
  exists s' h',
    SpellChecker_Check (Some sc_precedence) (Some "hello wrold xyz") [] =
      (Some s', h') /\
    (isalpha (char_at "hello wrold xyz" 13) = false ->
     fst (SpellChecker_IsMisspelledAtPosition (Some s') (Z.of_nat 13) None 0) =
       false) /\
    (isalpha (char_at "hello wrold xyz" 13) = true ->
     exists m, token_of "hello wrold xyz" m /\ covers (Z.of_nat 13) m /\
       fst (SpellChecker_IsMisspelledAtPosition (Some s') (Z.of_nat 13) None 0) =
         negb (SpellChecker_IsWordCorrect (Some sc_precedence) (Some (word m)))).
Proof.
  eexists _, _. split; [vm_compute; reflexivity|].
  eapply (lookup_after_check sc_precedence "hello wrold xyz" [] _ _ 13%nat None 0).
  - reflexivity.
  - constructor.
  - reflexivity.
  - vm_compute. reflexivity.
  - vm_compute. reflexivity.
  - simpl. lia.
Defined.

(** ** Engines reached through the interface *)

Lemma Create_Some h s h' : SpellChecker_Create h = (Some s, h') -> s = sc_fresh.
Proof.
  unfold SpellChecker_Create. intros Hs.
  destruct (alloc h) as [[|] h0]; cbn [negb] in Hs; [|discriminate].
  destruct (alloc h0) as [ok1 h1]. destruct (alloc h1) as [ok2 h2].
  destruct (alloc h2) as [ok3 h3]. destruct (alloc h3) as [ok4 h4].
  destruct (ok1 && ok2 && ok3 && ok4); [|discriminate].
  injection Hs as <- _. reflexivity.
Qed.

Lemma reachable_sorted_fits s : reachable s -> engine_sorted s /\ engine_fits s.
Proof.
  induction 1 as [h s h' E | s s' _ IH Hstep].
  - apply Create_Some in E. subst s. split.
    + repeat split; constructor.
    + unfold engine_fits, Dictionary_fits, count, m_count.
      vm_compute. repeat split; congruence.
  - exact (api_step_invariant s s' Hstep IH).
Qed.

(** X19. Every engine obtained from [SpellChecker_Create] by calls of the
    interface whose allocations succeed (loads, checks, additions to the user
    dictionary and to the ignore list, clearing the ignore list, saves) keeps
    its three word arrays sorted for the comparator and its entry counts
    within positive capacities.  Hence on such an engine the binary searches
    are exact: a non-empty word is judged correct exactly when the ignore
    list, the main dictionary or the user dictionary holds it,
    case-insensitively. *)
Theorem reachable_invariant (s : SpellChecker) :
  reachable s ->
  engine_sorted s /\ engine_fits s /\
  forall w, strlen w <> O ->
    (SpellChecker_IsWordCorrect (Some s) (Some w) = true <->
     dict_contains (ignoredWords s) w \/ dict_contains (mainDictionary s) w \/
     dict_contains (userDictionary s) w).
Proof.
  intros Hr. destruct (reachable_sorted_fits s Hr) as [Hs Hf].
  split; [exact Hs|]. split; [exact Hf|].
  destruct Hs as (Hm & Hu & Hi). intros w Hne.
  rewrite <- !BinarySearchDictionary_spec by assumption.
  rewrite <- !orb_true_iff.
  unfold SpellChecker_IsWordCorrect.
  destruct (strlen w =? 0)%nat eqn:E0; [apply Nat.eqb_eq in E0; lia|].
  destruct (BinarySearchDictionary (ignoredWords s) w); [tauto|].
  destruct (BinarySearchDictionary (mainDictionary s) w); [tauto|].
  destruct (BinarySearchDictionary (userDictionary s) w); cbn [orb]; tauto.
Qed.

Lemma reachable_invariant_witness :
  let s := set_userDictionary sc_fresh (mkDictionary ["hello"] 1000) in
  engine_sorted s /\ engine_fits s /\
  forall w, strlen w <> O ->
    (SpellChecker_IsWordCorrect (Some s) (Some w) = true <->
     dict_contains (ignoredWords s) w \/ dict_contains (mainDictionary s) w \/
     dict_contains (userDictionary s) w).
Proof.
  apply reachable_invariant.
  eapply reach_step.
  - eapply (reach_Create []). reflexivity.
  - eapply (step_AddToUserDictionary sc_fresh (Some "hello") []).
    + constructor.
    + vm_compute. reflexivity.
Defined.

(** ** Loads cut short by a failed allocation *)

Lemma Dictionary_push_cases d e h :
  exists ok d' h', Dictionary_push d e h = (ok, d', h') /\
    (ok = true -> d' = Dictionary_extend d [strcpy e]) /\
    (ok = false -> words d' = words d).
Proof.
  unfold Dictionary_push, Dictionary_grow, Dictionary_extend. cbn [fold_left].
  destruct (capacity d <=? count d).
  - destruct (alloc h) as [[|] h1]; cbn [negb].
    + destruct (alloc h1) as [[|] h2]; cbn [negb];
        eexists _, _, _; (split; [reflexivity|]); split; intros; try discriminate;
        reflexivity.
    + eexists _, _, _; (split; [reflexivity|]); split; intros; try discriminate;
        reflexivity.
  - cbn [negb]. destruct (alloc h) as [[|] h1]; cbn [negb];
      eexists _, _, _; (split; [reflexivity|]); split; intros; try discriminate;
      reflexivity.
Qed.

(** Whatever the allocations do, the reading loop returns, having appended
    the first [k] entries of the file in file order; it reports failure
    exactly when an entry was left out. *)
Lemma LoadDictionary_loop_any fuel : forall d file h,
  (String.length file < fuel)%nat ->
  exists ok d' h' k,
    LoadDictionary_loop fuel d file h = Some (ok, d', h') /\
    words d' = (words d ++ take k (file_entries true fuel file))%list /\
    (ok = true -> d' = Dictionary_extend d (file_entries true fuel file)) /\
    (ok = false -> (k < length (file_entries true fuel file))%nat).
Proof.
  induction fuel as [|fuel IH]; intros d file h Hf; [lia|].
  cbn [LoadDictionary_loop file_entries].
  destruct (fgets 256 file) as [[line rest]|] eqn:Eg.
  2:{ exists true, d, h, O. split; [reflexivity|]. cbn [take].
      rewrite app_nil_r. repeat split. discriminate. }
  apply fgets_progress in Eg. unfold line_entry. cbn [andb].
  destruct ((trim_trailing line (strlen line) =? 0)%nat
            || (char_at (trimmed line) 0 =? 35)).
  - cbn [app]. apply IH. lia.
  - destruct (Dictionary_push_cases d (trimmed line) h)
      as (ok & d1 & h1 & -> & Ht & Hfl).
    destruct ok; cbn [negb].
    + specialize (Ht eq_refl). subst d1.
      destruct (IH (Dictionary_extend d [strcpy (trimmed line)]) rest h1
                  ltac:(lia)) as (ok' & d' & h' & k & -> & Hw & Ht' & Hf').
      exists ok', d', h', (S k). split; [reflexivity|]. split; [|split].
      * rewrite Hw. cbn [Dictionary_extend fold_left words app take].
        rewrite <- app_assoc. reflexivity.
      * intros Hok. rewrite (Ht' Hok), <- Dictionary_extend_app. reflexivity.
      * intros Hok. cbn [app length]. specialize (Hf' Hok). lia.
    + exists false, d1, h1, O. split; [reflexivity|]. split; [|split].
      * cbn [take]. rewrite app_nil_r. apply Hfl. reflexivity.
      * discriminate.
      * intros _. cbn [app length]. lia.
Qed.

(** X21. Whatever the allocations do, [SpellChecker_LoadDictionary] on a
    readable file returns, changes nothing but the main dictionary, and leaves
    there the words it held before together with the first [k] entries of the
    file, for some [k]: nothing is lost and nothing is rolled back.  When an
    allocation fails before the last entry ([k] is less than the number of
    entries), the call reports failure and the entries read so far stay
    appended in file order behind the old words, the array being left
    unsorted; otherwise the array is sorted. *)
Theorem Load_cut_short (fs : filesystem) (s : SpellChecker) (path file : string)
    (h : heap) :
  fs path = Some file ->
  let entries := file_entries true (S (String.length file)) file in
  exists ok s' h' k,
    SpellChecker_LoadDictionary fs (Some s) (Some path) h = (ok, Some s', h') /\
    Permutation (words (mainDictionary s'))
      (words (mainDictionary s) ++ take k entries)%list /\
    userDictionary s' = userDictionary s /\
    ignoredWords s' = ignoredWords s /\
    misspelled s' = misspelled s /\
    enabled s' = enabled s /\
    ((k < length entries)%nat ->
     ok = false /\
     words (mainDictionary s') = (words (mainDictionary s) ++ take k entries)%list) /\
    ((length entries <= k)%nat ->
     dict_sorted (mainDictionary s') /\
     (ok = true <-> words (mainDictionary s') <> [])).
Proof.
  intros Hfs entries. unfold SpellChecker_LoadDictionary. rewrite Hfs.
  destruct (LoadDictionary_loop_any (S (String.length file)) (mainDictionary s)
              file h ltac:(lia)) as (ok & d' & h' & k & -> & Hw & Ht & Hf).
  fold entries in Hw, Ht, Hf.
  destruct ok.
  - exists (0 <? count (Dictionary_sort d')),
           (set_mainDictionary s (Dictionary_sort d')), h', (length entries).
    split; [reflexivity|].
    cbn [mainDictionary userDictionary ignoredWords misspelled enabled
         set_mainDictionary].
    rewrite firstn_all.
    assert (Hp : Permutation (words (Dictionary_sort d'))
                   (words (mainDictionary s) ++ entries)%list).
    { rewrite Dictionary_sort_perm, (Ht eq_refl), Dictionary_extend_words.
      reflexivity. }
    split; [exact Hp|]. repeat split; try lia.
    + apply Dictionary_sort_sorted.
    + unfold count. rewrite Z.ltb_lt. intros H0 Hnil. rewrite Hnil in H0.
      simpl in H0. lia.
    + unfold count. rewrite Z.ltb_lt. destruct (words (Dictionary_sort d'));
        [congruence | simpl; lia].
  - exists false, (set_mainDictionary s d'), h', k.
    split; [reflexivity|].
    cbn [mainDictionary userDictionary ignoredWords misspelled enabled
         set_mainDictionary].
    rewrite Hw. specialize (Hf eq_refl).
    repeat split; try reflexivity; try lia.
Qed.

Lemma Load_cut_short_witness :
  let fs := one_file ("zebra" ++ newline ++ "apple" ++ newline ++ "mango") in
  let entries :=
    file_entries true (S (String.length ("zebra" ++ newline ++ "apple" ++ newline ++ "mango")))
      ("zebra" ++ newline ++ "apple" ++ newline ++ "mango") in
  exists ok s' h' k,
    SpellChecker_LoadDictionary fs (Some sc_fresh) (Some "words.txt")
      [true; true; false] = (ok, Some s', h') /\
    Permutation (words (mainDictionary s'))
      (words (mainDictionary sc_fresh) ++ take k entries)%list /\
    userDictionary s' = userDictionary sc_fresh /\
    ignoredWords s' = ignoredWords sc_fresh /\
    misspelled s' = misspelled sc_fresh /\
    enabled s' = enabled sc_fresh /\
    ((k < length entries)%nat ->
     ok = false /\
     words (mainDictionary s') =
       (words (mainDictionary sc_fresh) ++ take k entries)%list) /\
    ((length entries <= k)%nat ->
     dict_sorted (mainDictionary s') /\
     (ok = true <-> words (mainDictionary s') <> [])).
Proof.
  apply (Load_cut_short
           (one_file ("zebra" ++ newline ++ "apple" ++ newline ++ "mango"))
           sc_fresh "words.txt"
           ("zebra" ++ newline ++ "apple" ++ newline ++ "mango")
           [true; true; false]).
  reflexivity.
Defined.

(** A load cut short after two entries: the words stay in file order, and the
    binary search, run on the unsorted array, misses "apple" although the
    main dictionary holds it. *)
Lemma cut_short_load_then_miss :
  exists s' h',
    SpellChecker_LoadDictionary
      (one_file ("zebra" ++ newline ++ "apple" ++ newline ++ "mango"))
      (Some sc_fresh) (Some "words.txt") [true; true; false] =
      (false, Some s', h') /\
    words (mainDictionary s') = ["zebra"; "apple"] /\
    SpellChecker_IsWordCorrect (Some s') (Some "apple") = false.
Proof. eexists _, _. repeat split; vm_compute; reflexivity. Qed.
